(** * OllamaAuthor: the novel-generation pipeline of [generateNovel.js]

    A shallow embedding of the control logic of [generateNovel.js]: the
    cleaning of model responses, the extraction of the storyline JSON, the
    chapter plan with its fallback, the chapter writer with its length-gated
    retry, the assembling loop and the main block.

    JavaScript strings are sequences of UTF-16 code units; they are modelled
    as lists of code units, so that [length] is the [.length] of the source. *)

From Stdlib Require Import ZArith NArith Lia.
From Stdlib Require Strings.String Strings.Ascii Numbers.DecimalString DecimalZ.
From stdpp Require Import base list numbers strings.

Set Default Proof Using "Type".
Set Warnings "-register-all".

(** ** Strings *)

Abbreviation str := (list N).

(** A string literal of the source, as code units. *)
Definition lit (s : String.string) : str :=
  Ascii.N_of_ascii <$> String.list_ascii_of_string s.
Arguments lit : simpl never.

Definition nl : str := [10%N].       (* line feed *)
Definition dq : str := [34%N].       (* the double quote *)
Definition bq : str := [96%N].       (* the backtick *)

(** [WhiteSpace] and [LineTerminator] of ECMA-262: the code units that
    [String.prototype.trim] removes and that [\s] matches. *)
Definition is_ws (c : N) : bool :=
  ((9 <=? c) && (c <=? 13)
   || (c =? 32) || (c =? 160) || (c =? 5760)
   || (8192 <=? c) && (c <=? 8202)
   || (c =? 8232) || (c =? 8233) || (c =? 8239) || (c =? 8287)
   || (c =? 12288) || (c =? 65279))%N.

Fixpoint drop_ws (s : str) : str :=
  match s with
  | c :: s' => if is_ws c then drop_ws s' else s
  | [] => []
  end.

Definition is_nil {A} (l : list A) : bool :=
  match l with [] => true | _ => false end.

(** Removal of the trailing white space. *)
Fixpoint rstrip (s : str) : str :=
  match s with
  | [] => []
  | c :: s' =>
      let r := rstrip s' in
      if is_ws c && is_nil r then [] else c :: r
  end.

(** [s.trim()] *)
Definition trim (s : str) : str := rstrip (drop_ws s).

(** A text that does not start with white space. *)
Definition head_not_ws (s : str) : Prop :=
  match s with c :: _ => is_ws c = false | [] => True end.

Fixpoint starts_with (p s : str) : bool :=
  match p, s with
  | [], _ => true
  | c :: p', d :: s' => (c =? d)%N && starts_with p' s'
  | _ :: _, [] => false
  end.

(** [s.replace(p, '')] with a string pattern: the first occurrence of [p]
    is deleted, and [s] is returned as it is when there is none. *)
Fixpoint replace_first (p s : str) : str :=
  if starts_with p s then drop (length p) s
  else match s with
       | [] => []
       | c :: s' => c :: replace_first p s'
       end.

(** [s.split('\n')] *)
Fixpoint split_nl (s : str) : list str :=
  match s with
  | [] => [[]]
  | c :: s' =>
      if (c =? 10)%N then [] :: split_nl s'
      else match split_nl s' with
           | l :: ls => (c :: l) :: ls
           | [] => [[c]]
           end
  end.

(** [a.join(sep)] on strings *)
Fixpoint join (sep : str) (l : list str) : str :=
  match l with
  | [] => []
  | [x] => x
  | x :: l' => x ++ sep ++ join sep l'
  end.

(** Decimal printing of an integer, as [Number::toString] prints it (for
    magnitudes below 10^21, which is all the code builds). *)
Definition dec_Z (z : Z) : str :=
  lit (DecimalString.NilEmpty.string_of_int (Z.to_int z)).

Definition dec (n : nat) : str := dec_Z (Z.of_nat n).

(** ** Regular expressions

    The two patterns of the source are built from three pieces: a literal,
    the greedy [\s*] and the lazy capturing [([\s\S]*?)]. Each piece is a
    backtracking matcher in continuation-passing style, as in the pattern
    semantics of ECMA-262: it consumes a prefix of the unread text and
    hands the rest to its continuation, trying its alternatives in order
    until the continuation succeeds. *)

Section Regex.
Context {A : Type}.

Fixpoint m_lit (p : str) (k : str → option A) (s : str) : option A :=
  match p with
  | [] => k s
  | c :: p' =>
      match s with
      | d :: s' => if (c =? d)%N then m_lit p' k s' else None
      | [] => None
      end
  end.

(** [\s*]: the longest run first, then shorter ones. *)
Fixpoint m_ws_star (k : str → option A) (s : str) : option A :=
  match s with
  | c :: s' =>
      if is_ws c then
        match m_ws_star k s' with
        | Some r => Some r
        | None => k s
        end
      else k s
  | [] => k []
  end.

(** [([\s\S]*?)]: the shortest capture first; [g] is what is captured
    so far. *)
Fixpoint m_any_lazy (k : str → str → option A) (g : str) (s : str)
  : option A :=
  match k g s with
  | Some r => Some r
  | None =>
      match s with
      | [] => None
      | c :: s' => m_any_lazy k (g ++ [c]) s'
      end
  end.

(** The search for the leftmost match: [skipped] is the text before
    the position that is tried. *)
Fixpoint re_search (m : str → option A) (skipped : str) (s : str)
  : option (str * A) :=
  match m s with
  | Some r => Some (skipped, r)
  | None =>
      match s with
      | [] => None
      | c :: s' => re_search m (skipped ++ [c]) s'
      end
  end.
End Regex.

(** ** parseOllamaResponse *)

Definition think_open : str := lit "<think>".
Definition think_close : str := lit "</think>".

(** [/<think>([\s\S]*?)<\/think>/] at one position: the captured content
    and the text after the match. *)
Definition thinkRegex_here : str → option (str * str) :=
  m_lit think_open
    (m_any_lazy (λ g, m_lit think_close (λ rest, Some (g, rest))) []).

(** [thinkRegex.exec] on the text from [lastIndex] on: the full match,
    its group, and the text after it (the new [lastIndex]). *)
Definition thinkRegex_exec (unread : str) : option (str * str * str) :=
  match re_search thinkRegex_here [] unread with
  | Some (_, (thinkContent, rest)) =>
      Some (think_open ++ thinkContent ++ think_close, thinkContent, rest)
  | None => None
  end.

(** The [while] loop: one round per match of the regex on [response];
    every round deletes the first occurrence of the matched text from
    [cleanedResponse]. A match is not empty, so the loop runs at most
    [length response] rounds. The [console.log] of the content is not
    modelled. *)
Fixpoint think_loop (rounds : nat) (unread cleanedResponse : str) : str :=
  match rounds with
  | O => cleanedResponse
  | S rounds' =>
      match thinkRegex_exec unread with
      | None => cleanedResponse
      | Some (fullMatch, _, rest) =>
          think_loop rounds' rest (replace_first fullMatch cleanedResponse)
      end
  end.

Definition parseOllamaResponse (response : str) : str :=
  trim (think_loop (length response) response response).

(** ** extractJsonFromMarkdown *)

Definition fence : str := lit "```".
Definition fence_json : str := lit "```json".

(** [/```json\s*([\s\S]*?)\s*```/] at one position: the group. *)
Definition jsonRegex_here : str → option str :=
  m_lit fence_json
    (m_ws_star
       (m_any_lazy (λ g, m_ws_star (m_lit fence (λ _, Some g))) [])).

(** [text.match(jsonRegex)]: the group of the leftmost match. *)
Definition jsonRegex_match (text : str) : option str :=
  snd <$> re_search jsonRegex_here [] text.

Definition extractJsonFromMarkdown (text : str) : str :=
  match jsonRegex_match text with
  | Some g => if is_nil g then text else trim g
  | None => text
  end.

(** ** JavaScript values

    The values that [JSON.parse] builds, and [undefined] for a property
    that is absent. A number keeps the literal it was read from; an object
    lists its own properties in the order of [Object.keys]. *)

Inductive value :=
| VUndefined
| VNull
| VBool (b : bool)
| VNum (literal : str)
| VStr (s : str)
| VArr (elems : list value)
| VObj (props : list (str * value)).

(** The built-in functions of the language that the source calls and that
    are not modelled here: [JSON.parse] ([None] when it throws a
    [SyntaxError]) and the printing of a number. *)
Class Builtins := {
  JSON_parse : str → option value;
  Number_toString : str → str;     (* [String(n)] for the number read from a literal *)
  Number_isFinite : str → bool;
}.

(** Property lookup among the own properties of an object. *)
Fixpoint own_property (props : list (str * value)) (k : str) : option value :=
  match props with
  | [] => None
  | (k', v) :: props' =>
      if bool_decide (k' = k) then Some v else own_property props' k
  end.

(** [v[i]] for an index [i]; [None] is the [TypeError] of a read on
    [undefined] or [null]. No prototype has an indexed property. *)
Definition js_get (v : value) (i : nat) : option value :=
  match v with
  | VUndefined | VNull => None
  | VArr elems => Some (default VUndefined (elems !! i))
  | VObj props => Some (default VUndefined (own_property props (dec i)))
  | VStr s => Some (from_option (λ c, VStr [c]) VUndefined (s !! i))
  | VBool _ | VNum _ => Some VUndefined
  end.

(** [Object.keys(v)]; [None] is the [TypeError] on [undefined] or [null]. *)
Definition Object_keys (v : value) : option (list str) :=
  match v with
  | VUndefined | VNull => None
  | VObj props => Some (props.*1)
  | VArr elems => Some (dec <$> seq 0 (length elems))
  | VStr s => Some (dec <$> seq 0 (length s))
  | VBool _ | VNum _ => Some []
  end.

(** [Object.keys(v)[0]] used as a computed property name: [undefined]
    becomes the name ["undefined"]. *)
Definition first_key (v : value) : option str :=
  keys ← Object_keys v;
  Some (default (lit "undefined") (head keys)).

(** The single-key object [{ [key]: text }]. *)
Definition single_key_object (key text : str) : value :=
  VObj [(key, VStr text)].

(** The two halves of a surrogate pair. *)
Definition is_lead (c : N) : bool := ((55296 <=? c) && (c <=? 56319))%N.
Definition is_trail (c : N) : bool := ((56320 <=? c) && (c <=? 57343))%N.

Section Stringify.
Context `{Builtins}.

(** [`${v}`]: [ToString] of ECMA-262; [None] is the [TypeError] of an
    object that cannot be converted to a primitive, which is the case of
    a parsed object with an own property [toString]. *)
Fixpoint ToString (v : value) : option str :=
  match v with
  | VUndefined => Some (lit "undefined")
  | VNull => Some (lit "null")
  | VBool b => Some (if b then lit "true" else lit "false")
  | VNum n => Some (Number_toString n)
  | VStr s => Some s
  | VArr elems =>
      join (lit ",") <$>
        mapM (λ e, match e with
                   | VUndefined | VNull => Some []
                   | _ => ToString e
                   end) elems
  | VObj props =>
      if bool_decide (lit "toString" ∈ props.*1) then None
      else Some (lit "[object Object]")
  end.

Definition hex_digit (n : N) : N :=
  (if n <? 10 then 48 + n else 87 + n)%N.

(** [\uXXXX], in lower case *)
Definition unicode_escape (c : N) : str :=
  lit "\u" ++ [hex_digit ((c / 4096) `mod` 16); hex_digit ((c / 256) `mod` 16);
               hex_digit ((c / 16) `mod` 16); hex_digit (c `mod` 16)]%N.

(** The body of [QuoteJSONString]; [paired] tells that the code unit
    before was a leading surrogate. *)
Fixpoint quote_units (paired : bool) (s : str) : str :=
  match s with
  | [] => []
  | c :: s' =>
      let next_is_trail := match s' with d :: _ => is_trail d | [] => false end in
      let here :=
        if (c =? 8)%N then lit "\b"
        else if (c =? 9)%N then lit "\t"
        else if (c =? 10)%N then lit "\n"
        else if (c =? 12)%N then lit "\f"
        else if (c =? 13)%N then lit "\r"
        else if (c =? 34)%N then lit "\" ++ dq
        else if (c =? 92)%N then lit "\\"
        else if (c <? 32)%N then unicode_escape c
        else if is_lead c then (if next_is_trail then [c] else unicode_escape c)
        else if is_trail c then (if paired then [c] else unicode_escape c)
        else [c] in
      here ++ quote_units (is_lead c && next_is_trail) s'
  end.

Definition QuoteJSONString (s : str) : str := dq ++ quote_units false s ++ dq.

(** [JSON.stringify(v)]; [None] is the result [undefined]. A parsed
    value has no callable [toJSON]. *)
Fixpoint JSON_stringify (v : value) : option str :=
  match v with
  | VUndefined => None
  | VNull => Some (lit "null")
  | VBool b => Some (if b then lit "true" else lit "false")
  | VNum n => Some (if Number_isFinite n then Number_toString n else lit "null")
  | VStr s => Some (QuoteJSONString s)
  | VArr elems =>
      Some (lit "[" ++
            join (lit ",") ((λ e, default (lit "null") (JSON_stringify e)) <$> elems)
            ++ lit "]")
  | VObj props =>
      Some (lit "{" ++
            join (lit ",")
              (omap (λ p, (λ t, QuoteJSONString p.1 ++ lit ":" ++ t) <$> JSON_stringify p.2)
                    props)
            ++ lit "}")
  end.

(** A template hole filled with a value that may be [undefined]. *)
Definition template_hole (o : option str) : str := default (lit "undefined") o.
End Stringify.

(** ** The effects of a run

    A run talks to the generation service and writes files. Both are kept
    in the state of a small monad: the requests sent so far, in order, and
    the artifacts written. The service is a function of the number of
    requests made before and of the request, which covers every behaviour
    of a service that answers. [Diverge] is the outcome of a computation
    that was cut because its retry budget was used up.

    The writing of a file, of the cover image and of the e-book can fail:
    whether the file system takes a write is a parameter of the run, as
    the answers of the service are. The output on the console is left
    out. *)

Inductive exn :=
| FetchError                 (* [fetch] rejects: the endpoint is unreachable *)
| HttpError (status : N)     (* [new Error(`HTTP error! status: ...`)] *)
| BodyError                  (* [response.json()] rejects *)
| TypeError                  (* a read on [undefined] or [null], and the like *)
| IOError.                   (* a write that the file system refuses *)

Inductive outcome (A : Type) :=
| Ret (a : A)
| Throw (e : exn)
| Diverge.
Arguments Ret {A} a.
Arguments Throw {A} e.
Arguments Diverge {A}.

(** The body of a request; [stream] is always [false]. *)
Record request := { model : str; prompt : str }.

(** What the decoded body holds as [data.response]: a string, or [None]
    when there is no such string. *)
Inductive body :=
| Undecodable
| Decoded (response : option str).

Inductive reply :=
| Unreachable
| Http (status : N) (b : body).

(** [response.ok] *)
Definition response_ok (status : N) : bool :=
  ((200 <=? status) && (status <=? 299))%N.

(** The arguments of a call of [path.join]. *)
Abbreviation path := (list str).

Abbreviation bytes := (list N).

(** The bytes of a code point in UTF-8. *)
Definition utf8_point (p : N) : bytes :=
  (if p <? 128 then [p]
   else if p <? 2048 then [192 + p / 64; 128 + p `mod` 64]
   else if p <? 65536 then
     [224 + p / 4096; 128 + (p / 64) `mod` 64; 128 + p `mod` 64]
   else [240 + p / 262144; 128 + (p / 4096) `mod` 64;
         128 + (p / 64) `mod` 64; 128 + p `mod` 64])%N.

(** The encoding ['utf8'] of a string, as [fs.writeFileSync] stores it:
    a pair of surrogates is one code point, and a surrogate that stands
    alone is stored as U+FFFD. *)
Fixpoint utf8 (s : str) : bytes :=
  match s with
  | [] => []
  | c :: s' =>
      if is_lead c then
        match s' with
        | d :: s'' =>
            if is_trail d
            then utf8_point (65536 + (c - 55296) * 1024 + (d - 56320))%N ++ utf8 s''
            else utf8_point 65533 ++ utf8 s'
        | [] => utf8_point 65533
        end
      else if is_trail c then utf8_point 65533 ++ utf8 s'
      else utf8_point c ++ utf8 s'
  end.

Inductive artifact :=
| TextFile (p : path) (content : bytes)
| CoverPng (p : path)
| EpubFile (p : path) (title author : str) (cover : path) (chapters : list value).

Record World := { sent : list request; disk : list artifact }.

Definition M (A : Type) : Type := World → outcome A * World.

#[global] Instance M_ret : MRet M := λ A a w, (Ret a, w).
#[global] Instance M_bind : MBind M := λ A B f m w,
  match m w with
  | (Ret a, w') => f a w'
  | (Throw e, w') => (Throw e, w')
  | (Diverge, w') => (Diverge, w')
  end.

Definition throw {A} (e : exn) : M A := λ w, (Throw e, w).
Definition diverge {A} : M A := λ w, (Diverge, w).

(** [try { m } catch (error) { h error }] *)
Definition try_catch {A} (m : M A) (h : exn → M A) : M A := λ w,
  match m w with
  | (Throw e, w') => h e w'
  | r => r
  end.

(** An operation of the language that throws a [TypeError] or returns. *)
Definition or_TypeError {A} (o : option A) : M A :=
  match o with
  | Some a => mret a
  | None => throw TypeError
  end.

(** The configuration of the process, the service it talks to and the
    file system it writes to: [accepts d a] tells whether the write of
    [a] goes through when [d] has been written. *)
Record Env := {
  svc : nat → request → reply;
  accepts : list artifact → artifact → bool;
  ollamaModel : str;
  language : str;
  outputDir : str;
}.

(** A write that is refused throws and leaves nothing. *)
Definition write (E : Env) (a : artifact) : M () := λ w,
  if accepts E (disk w) a
  then (Ret (), {| sent := sent w; disk := disk w ++ [a] |})
  else (Throw IOError, w).

(** A newline, an indented empty line, a newline and the indentation:
    what separates the paragraphs of the prompt templates. *)
Definition para : str := nl ++ lit "  " ++ nl ++ lit "  ".

Record NovelResult := {
  novel : str;
  title : str;
  chapters : list str;
  chapterObjects : list value;
}.

Section Pipeline.
Context `{Builtins} (E : Env).

Definition log_request (req : request) (w : World) : World :=
  {| sent := sent w ++ [req]; disk := disk w |}.

(** [await fetch(url, ...)] with the body [req] *)
Definition fetch (req : request) : M reply := λ w,
  (Ret (svc E (length (sent w)) req), log_request req w).

Definition languageInstruction : str :=
  if is_nil (language E) then []
  else lit "Respond in the language " ++ language E ++ lit ". ".

(** The body of the request that [callOllama] sends for a prompt. *)
Definition ollama_request (prompt : str) : request :=
  let modifiedPrompt := languageInstruction ++ prompt in
  {| model := ollamaModel E; prompt := modifiedPrompt |}.

Definition callOllama (prompt : str) : M str :=
  try_catch
    (response ← fetch (ollama_request prompt);
     match response with
     | Unreachable => throw FetchError
     | Http status b =>
         if negb (response_ok status) then throw (HttpError status)
         else match b with
              | Undecodable => throw BodyError
              | Decoded None => throw TypeError
              | Decoded (Some text) => mret (parseOllamaResponse text)
              end
     end)
    (λ error, throw error).

Definition generateCoverPrompt (plot : str) : M str :=
  callOllama
    (lit "You are a creative assistant that writes a spec for the cover art of a book, based on the book's plot."
     ++ para ++ lit "Plot: " ++ plot
     ++ para ++ lit "Describe the cover we should create, based on the plot. This should be two sentences long, maximum.").

Definition createCoverImage (plot : str) : M path :=
  coverPrompt ← generateCoverPrompt plot;
  let coverPath := [outputDir E; lit "cover.png"] in
  write E (CoverPng coverPath);;
  mret coverPath.

Definition generatePlots (prompt : str) : M (list str) :=
  response ← callOllama
    (lit "You are a creative assistant that generates engaging fantasy novel plots."
     ++ para ++ lit "Generate 10 fantasy novel plots based on this prompt: " ++ prompt);
  mret (split_nl response).

Definition selectMostEngaging (plots : list str) : M str :=
  callOllama
    (lit "You are an expert in writing fantastic fantasy novel plots."
     ++ para ++ lit "Here are a number of possible plots for a new novel: "
     ++ join (lit ",") plots
     ++ para ++ lit "Now, write the final plot that we will go with. It can be one of these, a mix of the best elements of multiple, or something completely new and better. The most important thing is the plot should be fantastic, unique, and engaging.").

Definition improvePlot (plot : str) : M str :=
  callOllama
    (lit "You are an expert in improving and refining story plots."
     ++ para ++ lit "Improve this plot: " ++ plot).

Definition getTitle (plot : str) : M str :=
  callOllama
    (lit "You are an expert writer."
     ++ para ++ lit "Here is the plot: " ++ plot
     ++ para ++ lit "What is the title of this book? Just respond with the title, do nothing else.").

Definition firstChapterPrompt (plot firstChapterTitle writingStyle : str) : str :=
  lit "You are a world-class fantasy writer."
  ++ para ++ lit "Here is the high-level plot to follow: " ++ plot
  ++ para ++ lit "Write the first chapter of this novel: "
  ++ bq ++ firstChapterTitle ++ bq ++ lit "."
  ++ para ++ lit "Make it incredibly unique, engaging, and well-written."
  ++ para ++ lit "Here is a description of the writing style you should use: "
  ++ bq ++ writingStyle ++ bq
  ++ para ++ lit "Include only the chapter text. There is no need to rewrite the chapter name.".

Definition improveChapterPrompt (plot firstDraft writingStyle : str) : str :=
  lit "You are a world-class fantasy writer. Your job is to take your student's rough initial draft of the first chapter of their fantasy novel, and rewrite it to be significantly better, with much more detail."
  ++ para ++ lit "Here is the high-level plot you asked your student to follow: " ++ plot
  ++ para ++ lit "Here is the first chapter they wrote: " ++ firstDraft
  ++ para ++ lit "Now, rewrite the first chapter of this novel, in a way that is far superior to your student's chapter. It should still follow the exact same plot, but it should be far more detailed, much longer, and more engaging. Here is a description of the writing style you should use: "
  ++ bq ++ writingStyle ++ bq.

Definition writeFirstChapter (plot : str) (firstChapterTitle : value)
    (writingStyle : str) : M str :=
  shown ← or_TypeError (ToString firstChapterTitle);
  firstDraft ← callOllama (firstChapterPrompt plot shown writingStyle);
  callOllama (improveChapterPrompt plot firstDraft writingStyle).

Definition chapterPrompt (previousChapters plot : str) (chapterTitle : value) : str :=
  lit "You are a world-class fantasy writer."
  ++ para ++ lit "Plot: " ++ plot
  ++ nl ++ lit "  Previous Chapters: " ++ previousChapters
  ++ para ++ lit "Write the next chapter of this novel, following the plot and taking in the previous chapters as context. Here is the plan for this chapter: "
  ++ template_hole (JSON_stringify chapterTitle)
  ++ para ++ lit "Write it beautifully. Include only the chapter text. There is no need to rewrite the chapter name.".

(** The function calls itself when the response is short; [budget]
    bounds the number of calls, and the computation is cut when it is
    used up. *)
Fixpoint writeChapter (budget : nat) (previousChapters plot : str)
    (chapterTitle : value) : M str :=
  match budget with
  | O => diverge
  | S budget' =>
      or_TypeError (Object_keys chapterTitle);;      (* the [console.log] of the key *)
      response ← callOllama (chapterPrompt previousChapters plot chapterTitle);
      if (length response <? 1000)%nat
      then writeChapter budget' previousChapters plot chapterTitle
      else mret response
  end.

Definition jsonFormat : str :=
  lit "[{" ++ dq ++ lit "Chapter CHAPTER_NUMBER_HERE - CHAPTER_TITLE_GOES_HERE"
  ++ dq ++ lit ": " ++ dq ++ lit "CHAPTER_OVERVIEW_AND_DETAILS_GOES_HERE"
  ++ dq ++ lit "}, ...]".

Definition generateStoryline (plot : str) (numChapters : Z) : M str :=
  initialResponse ← callOllama
    (lit "You are a world-class fantasy writer. Your job is to write a detailed storyline, complete with chapters, for a fantasy novel. Don't be flowery -- you want to get the message across in as few words as possible. But those words should contain lots of information."
     ++ para ++ lit "Write a fantastic storyline with " ++ dec_Z numChapters
     ++ lit " chapters and high-level details based on this plot: " ++ plot ++ lit "."
     ++ para ++ lit "output the response in a json format following this template "
     ++ jsonFormat);
  improvedResponse ← callOllama
    (lit "You are a world-class fantasy writer. Your job is to take your student's rough initial draft of the storyline of a fantasy novel, and rewrite it to be significantly better."
     ++ para ++ lit "Here is the draft storyline they wrote: " ++ initialResponse
     ++ para ++ lit "Now, rewrite the storyline, in a way that is far superior to your student's version. It should have the same number of chapters, but it should be much improved in as many ways as possible. Remember to do it in this list of dictionaries format "
     ++ jsonFormat);
  mret (extractJsonFromMarkdown improvedResponse).

(** [/[^a-z0-9._ ]/gi] keeps the letters, the digits, the dot, the
    underscore and the space. *)
Definition filename_unit (c : N) : bool :=
  ((97 <=? c) && (c <=? 122) || (65 <=? c) && (c <=? 90)
   || (48 <=? c) && (c <=? 57) || (c =? 46) || (c =? 95) || (c =? 32))%N.

Definition writeToFile (prompt content : str) : M () :=
  let validFilename := trim (filter (λ c, filename_unit c = true) prompt) in
  write E (TextFile [outputDir E; lit "prompts"; validFilename ++ lit ".txt"]
                    (utf8 content)).

(** The artifact records what the function is given; the formatting of
    the chapters is [epubContent] below. *)
Definition createEpub (title author : str) (chapters : list value)
    (coverImagePath : path) : M path :=
  let epubPath := [outputDir E; title ++ lit ".epub"] in
  write E (EpubFile epubPath title author coverImagePath chapters);;
  mret epubPath.

(** The plan of the fallback:
    [Array.from({ length: numChapters }, (_, i) => ({ ... }))]. *)
Definition fallbackPlan (numChapters : Z) : value :=
  VArr ((λ i, VObj [(lit "Chapter " ++ dec (i + 1) ++ lit " - Untitled",
                     VStr (lit "This is chapter " ++ dec (i + 1)))])
        <$> seq 0 (Z.to_nat numChapters)).

(** [try { chapterTitles = JSON.parse(storyline) } catch { ... }] *)
Definition parse_storyline (storyline : str) (numChapters : Z) : value :=
  match JSON_parse storyline with
  | Some parsed => parsed
  | None => fallbackPlan numChapters
  end.

(** The stages of [writeFantasyNovel] up to the storyline. *)
Definition writeFantasyNovel_storyline (prompt : str) (numChapters : Z)
  : M (str * str) :=
  plots ← generatePlots prompt;
  bestPlot ← selectMostEngaging plots;
  improvedPlot ← improvePlot bestPlot;
  title ← getTitle improvedPlot;
  storyline ← generateStoryline improvedPlot numChapters;
  mret (title, storyline).

(** The [for] loop over the chapters [i + 1], for [count] rounds. *)
Fixpoint chapter_loop (budget : nat) (chapterTitles : value) (storyline : str)
    (count i : nat) (st : NovelResult) : M NovelResult :=
  match count with
  | O => mret st
  | S count' =>
      entry ← or_TypeError (js_get chapterTitles i);
      chapter ← writeChapter budget (novel st) storyline entry;
      key ← or_TypeError (first_key entry);
      chapter_loop budget chapterTitles storyline count' (S i)
        {| novel := novel st ++ lit "Chapter " ++ dec (i + 1) ++ lit ":" ++ nl
                    ++ chapter ++ nl;
           title := title st;
           chapters := chapters st ++ [chapter];
           chapterObjects := chapterObjects st ++ [single_key_object key chapter] |}
  end.

(** The stages of [writeFantasyNovel] from the chapter plan on. *)
Definition writeFantasyNovel_chapters (budget : nat) (title storyline : str)
    (chapterTitles : value) (numChapters : Z) (writingStyle : str)
  : M NovelResult :=
  let novel := lit "Storyline:" ++ nl ++ storyline ++ nl ++ nl in
  first ← or_TypeError (js_get chapterTitles 0);
  firstChapter ← writeFirstChapter storyline first writingStyle;
  let novel := novel ++ lit "Chapter 1:" ++ nl ++ firstChapter ++ nl in
  key ← or_TypeError (first_key first);
  chapter_loop budget chapterTitles storyline (Z.to_nat (numChapters - 1)) 1
    {| novel := novel; title := title; chapters := [firstChapter];
       chapterObjects := [single_key_object key firstChapter] |}.

Definition writeFantasyNovel (budget : nat) (prompt : str) (numChapters : Z)
    (writingStyle : str) : M NovelResult :=
  '(title, storyline) ← writeFantasyNovel_storyline prompt numChapters;
  writeFantasyNovel_chapters budget title storyline
    (parse_storyline storyline numChapters) numChapters writingStyle.

(** The [try] block of the main function. *)
Definition main_try (budget : nat) (prompt : str) (numChapters : Z)
    (writingStyle : str) : M () :=
  r ← writeFantasyNovel budget prompt numChapters writingStyle;
  writeToFile prompt (novel r);;
  coverPath ← createCoverImage
    (template_hole (JSON_stringify (VArr (chapterObjects r))));
  createEpub (title r) (lit "Ollama Author") (chapterObjects r) coverPath;;
  mret ().

(** The main function: an error is logged and the process ends. *)
Definition main (budget : nat) (prompt : str) (numChapters : Z)
    (writingStyle : str) : M () :=
  try_catch (main_try budget prompt numChapters writingStyle) (λ error, mret ()).
End Pipeline.

(** ** The specification side

    Definitions that follow the words of the specification, to compare
    with the functions above. *)

(** The text before and after the first occurrence of [p] in [s]. *)
Fixpoint find_first (p s : str) : option (str * str) :=
  if starts_with p s then Some ([], drop (length p) s)
  else match s with
       | [] => None
       | c :: s' => prod_map (cons c) id <$> find_first p s'
       end.

(** The interior of the first fenced block tagged [json]: the text
    between the first [```json] and the first [```] after it. *)
Definition first_json_fence (text : str) : option str :=
  '(_, after_tag) ← find_first fence_json text;
  '(interior, _) ← find_first fence after_tag;
  Some interior.

(** The text with every [<think>...</think>] segment removed, delimiters
    included: a segment runs from an opening tag to the first closing tag
    after it. *)
Fixpoint strip_segments (rounds : nat) (s : str) : str :=
  match rounds with
  | O => s
  | S rounds' =>
      match find_first think_open s with
      | None => s
      | Some (before, after_open) =>
          match find_first think_close after_open with
          | None => s
          | Some (_, rest) => before ++ strip_segments rounds' rest
          end
      end
  end.

Definition strip_think (s : str) : str := strip_segments (length s) s.

(** The blocks ["Chapter i:\n" + text + "\n"], numbered from [i] on. *)
Fixpoint chapter_blocks (i : nat) (texts : list str) : str :=
  match texts with
  | [] => []
  | t :: texts' =>
      lit "Chapter " ++ dec i ++ lit ":" ++ nl ++ t ++ nl
      ++ chapter_blocks (S i) texts'
  end.

(** The manuscript of the specification: the storyline header followed
    by the blocks of the chapters completed so far. *)
Definition manuscript (storyline : str) (texts : list str) : str :=
  lit "Storyline:" ++ nl ++ storyline ++ nl ++ nl ++ chapter_blocks 1 texts.

(** An opening tag that is closed somewhere after it. *)
Definition has_think_segment (s : str) : bool :=
  match find_first think_open s with
  | Some (_, after_open) => bool_decide (is_Some (find_first think_close after_open))
  | None => false
  end.

(** ** A reference implementation of the built-ins

    Modelled from the specification of the language (ECMA-262, ECMA-404),
    which is not part of the repository: a parser of the JSON grammar, to
    run the pipeline on concrete texts. The theorems below hold for every
    implementation of the built-ins; this one is used for examples. *)

Module Ref.
Definition json_ws (c : N) : bool :=
  ((c =? 32) || (c =? 9) || (c =? 10) || (c =? 13))%N.

Fixpoint skip_ws (s : str) : str :=
  match s with
  | c :: s' => if json_ws c then skip_ws s' else s
  | [] => []
  end.

Definition is_digit (c : N) : bool := ((48 <=? c) && (c <=? 57))%N.

Definition hex_value (c : N) : option N :=
  (if is_digit c then Some (c - 48)
   else if (65 <=? c) && (c <=? 70) then Some (c - 55)
   else if (97 <=? c) && (c <=? 102) then Some (c - 87)
   else None)%N.

Definition hex4 (a b c d : N) : option N :=
  x ← hex_value a; y ← hex_value b; z ← hex_value c; t ← hex_value d;
  Some (((x * 16 + y) * 16 + z) * 16 + t)%N.

Definition escape (e : N) : option N :=
  (if (e =? 34) || (e =? 92) || (e =? 47) then Some e
   else if e =? 98 then Some 8
   else if e =? 102 then Some 12
   else if e =? 110 then Some 10
   else if e =? 114 then Some 13
   else if e =? 116 then Some 9
   else None)%N.

(** The characters of a string, after its opening quote. *)
Fixpoint parse_chars (s : str) : option (str * str) :=
  match s with
  | [] => None
  | c :: s' =>
      if (c =? 34)%N then Some ([], s')
      else if (c =? 92)%N then
        match s' with
        | [] => None
        | e :: s'' =>
            if (e =? 117)%N then
              match s'' with
              | h1 :: h2 :: h3 :: h4 :: s3 =>
                  u ← hex4 h1 h2 h3 h4;
                  '(t, r) ← parse_chars s3;
                  Some (u :: t, r)
              | _ => None
              end
            else
              u ← escape e;
              '(t, r) ← parse_chars s'';
              Some (u :: t, r)
        end
      else if (c <? 32)%N then None
      else '(t, r) ← parse_chars s'; Some (c :: t, r)
  end.

Fixpoint take_digits (s : str) : str * str :=
  match s with
  | c :: s' =>
      if is_digit c then let '(d, r) := take_digits s' in (c :: d, r)
      else ([], s)
  | [] => ([], [])
  end.

(** A number: its literal and the text after it. *)
Definition parse_number (s : str) : option (str * str) :=
  let '(sign, s1) :=
    match s with
    | c :: s' => if (c =? 45)%N then ([c], s') else ([], s)
    | [] => ([], [])
    end in
  '(int, s2) ←
    match s1 with
    | c :: s' =>
        if (c =? 48)%N then Some ([c], s')
        else if is_digit c then Some (take_digits s1)
        else None
    | [] => None
    end;
  '(frac, s3) ←
    match s2 with
    | c :: s' =>
        if (c =? 46)%N then
          let '(d, r) := take_digits s' in
          if is_nil d then None else Some (c :: d, r)
        else Some ([], s2)
    | [] => Some ([], [])
    end;
  '(exp, s4) ←
    match s3 with
    | c :: s' =>
        if ((c =? 101) || (c =? 69))%N then
          let '(sg, s'') :=
            match s' with
            | d :: t => if ((d =? 43) || (d =? 45))%N then ([d], t) else ([], s')
            | [] => ([], [])
            end in
          let '(d, r) := take_digits s'' in
          if is_nil d then None else Some (c :: sg ++ d, r)
        else Some ([], s3)
    | [] => Some ([], [])
    end;
  Some (sign ++ int ++ frac ++ exp, s4).

(** A later property of the same name replaces the value and keeps
    the place. *)
Fixpoint set_prop (k : str) (v : value) (props : list (str * value))
  : list (str * value) :=
  match props with
  | [] => [(k, v)]
  | (k', v') :: ps =>
      if bool_decide (k' = k) then (k', v) :: ps
      else (k', v') :: set_prop k v ps
  end.

Definition digits_value (k : str) : N :=
  fold_left (λ acc c, acc * 10 + (c - 48))%N k 0%N.

(** An array index: a canonical numeric name below [2^32 - 1]. *)
Definition array_index (k : str) : option N :=
  match k with
  | [] => None
  | c :: k' =>
      if forallb is_digit k && (negb (c =? 48)%N || is_nil k')
         && (length k <=? 10)%nat && (digits_value k <? 4294967295)%N
      then Some (digits_value k)
      else None
  end.

Fixpoint insert_index (i : N) (kv : str * value) (l : list (N * (str * value)))
  : list (N * (str * value)) :=
  match l with
  | [] => [(i, kv)]
  | (j, kv') :: l' =>
      if (i <? j)%N then (i, kv) :: l else (j, kv') :: insert_index i kv l'
  end.

(** The order of [Object.keys]: the array indices in ascending order,
    then the other names in the order of their creation. *)
Definition order_props (props : list (str * value)) : list (str * value) :=
  let created := fold_left (λ acc kv, set_prop kv.1 kv.2 acc) props [] in
  let indexed :=
    fold_left (λ acc kv, match array_index kv.1 with
                         | Some i => insert_index i kv acc
                         | None => acc
                         end) created [] in
  indexed.*2 ++ filter (λ kv, array_index kv.1 = None) created.

(** The recursive descent; every call reads a character before it
    calls again, so a budget of twice the length of the text is never
    used up. *)
Fixpoint parse_value (budget : nat) (s : str) : option (value * str) :=
  match budget with
  | O => None
  | S budget' =>
      match skip_ws s with
      | [] => None
      | c :: s1 =>
          if (c =? 123)%N then
            match skip_ws s1 with
            | d :: s2 =>
                if (d =? 125)%N then Some (VObj [], s2)
                else '(props, r) ← parse_members budget' s1;
                     Some (VObj (order_props props), r)
            | [] => None
            end
          else if (c =? 91)%N then
            match skip_ws s1 with
            | d :: s2 =>
                if (d =? 93)%N then Some (VArr [], s2)
                else '(elems, r) ← parse_elements budget' s1;
                     Some (VArr elems, r)
            | [] => None
            end
          else if (c =? 34)%N then
            '(t, r) ← parse_chars s1; Some (VStr t, r)
          else if starts_with (lit "true") (c :: s1) then
            Some (VBool true, drop 4 (c :: s1))
          else if starts_with (lit "false") (c :: s1) then
            Some (VBool false, drop 5 (c :: s1))
          else if starts_with (lit "null") (c :: s1) then
            Some (VNull, drop 4 (c :: s1))
          else
            '(n, r) ← parse_number (c :: s1); Some (VNum n, r)
      end
  end
with parse_elements (budget : nat) (s : str) : option (list value * str) :=
  match budget with
  | O => None
  | S budget' =>
      '(v, s1) ← parse_value budget' s;
      match skip_ws s1 with
      | c :: s2 =>
          if (c =? 44)%N then
            '(vs, r) ← parse_elements budget' s2; Some (v :: vs, r)
          else if (c =? 93)%N then Some ([v], s2)
          else None
      | [] => None
      end
  end
with parse_members (budget : nat) (s : str)
  : option (list (str * value) * str) :=
  match budget with
  | O => None
  | S budget' =>
      match skip_ws s with
      | c :: s1 =>
          if (c =? 34)%N then
            '(k, s2) ← parse_chars s1;
            match skip_ws s2 with
            | d :: s3 =>
                if (d =? 58)%N then
                  '(v, s4) ← parse_value budget' s3;
                  match skip_ws s4 with
                  | e :: s5 =>
                      if (e =? 44)%N then
                        '(ms, r) ← parse_members budget' s5;
                        Some ((k, v) :: ms, r)
                      else if (e =? 125)%N then Some ([(k, v)], s5)
                      else None
                  | [] => None
                  end
                else None
            | [] => None
            end
          else None
      | [] => None
      end
  end.

(** [JSON.parse(text)]; [None] is the [SyntaxError]. *)
Definition parse (text : str) : option value :=
  '(v, r) ← parse_value (2 * length text + 2) text;
  if is_nil (skip_ws r) then Some v else None.

(** The numbers print as they are written, which is exact for the
    integer literals that [Number::toString] prints unchanged. *)
#[export] Instance builtins : Builtins := {|
  JSON_parse := parse;
  Number_toString := id;
  Number_isFinite := λ _, true;
|}.
End Ref.

(** ** Scripted services, for concrete runs *)

(** A reply with status 200 whose decoded body holds [text]. *)
Definition ok_reply (text : str) : reply := Http 200 (Decoded (Some text)).

(** The service that answers its [n]-th request with the [n]-th reply of
    a script, and with [otherwise] once the script is over. *)
Definition scripted (script : list reply) (otherwise : reply)
  : nat → request → reply :=
  λ n _, default otherwise (script !! n).

(** The configuration of the source by default, with a file system that
    takes every write. *)
Definition default_env (service : nat → request → reply) : Env :=
  {| svc := service; accepts := λ _ _, true; ollamaModel := lit "deepseek-r1:7b";
     language := lit "English"; outputDir := lit "./output" |}.

Definition init : World := {| sent := []; disk := [] |}.

(** A chapter that is long enough: a thousand letters. *)
Definition long_text : str := replicate 1000 120%N.

(** ** Properties of runs *)

(** [post m w Q]: the run of [m] from [w] ends in an outcome and a state
    that satisfy [Q]. *)
Definition post {A} (m : M A) (w : World) (Q : outcome A → World → Prop) : Prop :=
  Q (m w).1 (m w).2.

Section Runs.
Context `{Builtins} (E : Env).

(** The text of a reply that [callOllama] accepts. *)
Definition reply_text (r : reply) : option str :=
  match r with
  | Http status (Decoded (Some text)) =>
      if response_ok status then Some text else None
  | _ => None
  end.

(** The error that [callOllama] throws for a reply: a transport error
    ([FetchError], [HttpError]), a service error ([BodyError]), or the
    [TypeError] of a body without a text. *)
Definition failure (r : reply) : option exn :=
  match r with
  | Unreachable => Some FetchError
  | Http status b =>
      if negb (response_ok status) then Some (HttpError status)
      else match b with
           | Undecodable => Some BodyError
           | Decoded None => Some TypeError
           | Decoded (Some _) => None
           end
  end.

(** What [callOllama] returns for a reply. *)
Definition reply_outcome (r : reply) : outcome str :=
  match failure r, reply_text r with
  | Some e, _ => Throw e
  | None, Some text => Ret (parseOllamaResponse text)
  | None, None => Throw TypeError
  end.

Definition long_reply (r : reply) : Prop :=
  ∃ text, reply_text r = Some text ∧ 1000 ≤ length (parseOllamaResponse text).

Definition short_reply (r : reply) : Prop :=
  ∃ text, reply_text r = Some text ∧ length (parseOllamaResponse text) < 1000.

(** Every generation call succeeds. *)
Definition all_succeed : Prop := ∀ n req, failure (svc E n req) = None.


(** Every request sent so far was answered without an error. *)
Definition clean (w : World) : Prop :=
  ∀ j req, sent w !! j = Some req → failure (svc E j req) = None.

(** The entry of the plan for the chapter [i + 1], as the loop reads it. *)
Definition plan_entry (plan : value) (i : nat) : value :=
  default VUndefined (js_get plan i).

(** The key under which the chapter [i + 1] is recorded. *)
Definition plan_key (plan : value) (i : nat) : option str :=
  js_get plan i ≫= first_key.

(** The requests of the first chapter, for a draft. *)
Definition first_chapter_requests (storyline : str) (plan : value)
    (writingStyle firstDraft : str) : list request :=
  [ollama_request E
     (firstChapterPrompt storyline
        (default [] (ToString (plan_entry plan 0))) writingStyle);
   ollama_request E (improveChapterPrompt storyline firstDraft writingStyle)].

(** The requests of the chapters after the first: the chapter after
    the chapters [done] is asked for [a] times, with the manuscript of
    [done] as context, and comes out as [t]. *)
Fixpoint chapter_requests (storyline : str) (plan : value) (done : list str)
    (texts : list str) (attempts : list nat) : list request :=
  match texts, attempts with
  | t :: texts', a :: attempts' =>
      replicate a
        (ollama_request E
           (chapterPrompt (manuscript storyline done) storyline
              (plan_entry plan (length done))))
      ++ chapter_requests storyline plan (done ++ [t]) texts' attempts'
  | _, _ => []
  end.

(** The records of the chapters [texts], keyed by the plan. *)
Definition chapter_records (plan : value) (texts : list str) : list value :=
  imap (λ i t, single_key_object (default [] (plan_key plan i)) t) texts.

(** What a call of [writeChapter] does: it sends the same request [k]
    times; all the replies but the last are short; it returns the last
    reply when it is long, throws when it is an error, and is cut when
    the budget is used up. *)
Definition writeChapter_result (budget : nat) (req : request) (keyed : bool)
    (w : World) (out : outcome str) (w' : World) : Prop :=
  ∃ k, sent w' = sent w ++ replicate k req ∧ disk w' = disk w ∧ k ≤ budget ∧
    (∀ j, S j < k → short_reply (svc E (length (sent w) + j) req)) ∧
    match out with
    | Ret text =>
        ∃ k' t, k = S k' ∧ reply_text (svc E (length (sent w) + k') req) = Some t ∧
                text = parseOllamaResponse t ∧ 1000 ≤ length text
    | Throw e =>
        (k = 0 ∧ keyed = false ∧ e = TypeError) ∨
        (∃ k', k = S k' ∧ failure (svc E (length (sent w) + k') req) = Some e)
    | Diverge =>
        k = budget ∧
        ∀ j, j < k → short_reply (svc E (length (sent w) + j) req)
    end.

(** What the loop does from the state [st]: the requests it sends, and
    the state it returns. *)
Definition loop_result (storyline : str) (plan : value) (st : NovelResult)
    (count : nat) (w : World) (out : outcome NovelResult) (w' : World) : Prop :=
  ∃ texts attempts,
    sent w' = sent w ++ chapter_requests storyline plan (chapters st) texts attempts ∧
    disk w' = disk w ∧
    ∀ st', out = Ret st' →
      length texts = count ∧ title st' = title st ∧
      chapters st' = chapters st ++ texts ∧
      novel st' = manuscript storyline (chapters st') ∧
      chapterObjects st' =
        chapterObjects st ++
        imap (λ j t, single_key_object
                       (default [] (plan_key plan (length (chapters st) + j))) t)
             texts ∧
      (∀ j, j < count → is_Some (plan_key plan (length (chapters st) + j))) ∧
      Forall (λ t, 1000 ≤ length t) texts.

(** What the stages from the chapter plan on do. *)
Definition chapters_result (bookTitle storyline : str) (plan : value)
    (numChapters : Z) (writingStyle : str)
    (w : World) (out : outcome NovelResult) (w' : World) : Prop :=
  ∃ firstDraft sent_first texts attempts,
    sent w' = sent w
              ++ take sent_first
                   (first_chapter_requests storyline plan writingStyle firstDraft)
              ++ chapter_requests storyline plan (take 1 texts) (drop 1 texts) attempts ∧
    disk w' = disk w ∧
    ∀ r, out = Ret r →
      sent_first = 2 ∧ title r = bookTitle ∧ chapters r = texts ∧
      length texts = S (Z.to_nat (numChapters - 1)) ∧
      novel r = manuscript storyline texts ∧
      chapterObjects r = chapter_records plan texts ∧
      (∀ j, j < length texts → is_Some (plan_key plan j)) ∧
      Forall (λ t, 1000 ≤ length t) (drop 1 texts).

(** The last request failed with [e], and no request before it failed. *)
Definition failed_last (w : World) (e : exn) : Prop :=
  ∃ reqs req, sent w = reqs ++ [req] ∧
    failure (svc E (length reqs) req) = Some e ∧
    ∀ j r, reqs !! j = Some r → failure (svc E j r) = None.

(** A computation that writes no file and stops at the first request
    that fails, with the error of that request. *)
Definition fail_fast {A} (m : M A) : Prop :=
  ∀ w, clean w →
    post m w (λ out w',
      disk w' = disk w ∧ (clean w' ∨ ∃ e, out = Throw e ∧ failed_last w' e)).

(** The file that [writeToFile] writes for a prompt. *)
Definition prompt_file (prompt content : str) : artifact :=
  TextFile [outputDir E; lit "prompts";
            trim (filter (λ c, filename_unit c = true) prompt) ++ lit ".txt"]
           (utf8 content).
End Runs.

(** The key and the entry of the fallback plan for the chapter [i]. *)
Definition fallback_key (i : nat) : str :=
  lit "Chapter " ++ dec i ++ lit " - Untitled".

Definition fallback_entry (i : nat) : value :=
  VObj [(fallback_key i, VStr (lit "This is chapter " ++ dec i))].

(** The key of a chapter record. *)
Definition record_key (record : value) : str := default [] (first_key record).

(** ** Concrete runs *)

(** The value that an outcome returns, or [d]. *)
Definition returned {A} (d : A) (o : outcome A) : A :=
  match o with Ret a => a | _ => d end.

Definition empty_result : NovelResult :=
  {| novel := []; title := []; chapters := []; chapterObjects := [] |}.

Definition demo_prompt : str := lit "A lighthouse keeper finds a message in a bottle".
Definition demo_style : str := lit "Clear and easily understandable.".

(** The replies of the stages before the storyline is improved. *)
Definition demo_opening : list reply :=
  [ok_reply (lit "Plot one" ++ nl ++ lit "Plot two");
   ok_reply (lit "The keeper answers the message.");
   ok_reply (lit "The keeper answers the message and sails away.");
   ok_reply (lit "<think>a short title</think> The Bottle ");
   ok_reply (lit "a draft of the storyline")].

(** A plan whose two entries have the same key. *)
Definition plan_same_keys : str :=
  lit "[{" ++ dq ++ lit "Chapter 1 - Dawn" ++ dq ++ lit ": " ++ dq ++ lit "The bottle"
  ++ dq ++ lit "}, {" ++ dq ++ lit "Chapter 1 - Dawn" ++ dq ++ lit ": " ++ dq
  ++ lit "The answer" ++ dq ++ lit "}]".

(** A plan of one entry, and the same plan fenced as the models do. *)
Definition plan_one_entry_json : str :=
  lit "[{" ++ dq ++ lit "Chapter 1 - Dawn" ++ dq ++ lit ": "
  ++ dq ++ lit "The bottle" ++ dq ++ lit "}]".

Definition plan_one_entry : str :=
  lit "```json" ++ nl ++ plan_one_entry_json ++ nl ++ lit "```".

(** The service that answers the opening, then [storyline], then two
    drafts of the first chapter, and [otherwise] from then on. *)
Definition demo_service (storyline : str) (otherwise : reply) : Env :=
  default_env
    (scripted (demo_opening ++ [ok_reply storyline; ok_reply (lit "a draft");
                                ok_reply (lit "The first chapter.")])
              otherwise).

(** ** The prompts of the stages

    The templates that the stages before the chapters fill, one for each
    call of [callOllama]. *)

(** [promptText] of [generatePlots] *)
Definition plotsPrompt (prompt : str) : str :=
  lit "You are a creative assistant that generates engaging fantasy novel plots."
  ++ para ++ lit "Generate 10 fantasy novel plots based on this prompt: " ++ prompt.

(** [promptText] of [selectMostEngaging]; [`${plots}`] joins the array
    with commas. *)
Definition selectPrompt (plots : list str) : str :=
  lit "You are an expert in writing fantastic fantasy novel plots."
  ++ para ++ lit "Here are a number of possible plots for a new novel: "
  ++ join (lit ",") plots
  ++ para ++ lit "Now, write the final plot that we will go with. It can be one of these, a mix of the best elements of multiple, or something completely new and better. The most important thing is the plot should be fantastic, unique, and engaging.".

(** [promptText] of [improvePlot] *)
Definition improvePlotPrompt (plot : str) : str :=
  lit "You are an expert in improving and refining story plots."
  ++ para ++ lit "Improve this plot: " ++ plot.

(** [promptText] of [getTitle] *)
Definition titlePrompt (plot : str) : str :=
  lit "You are an expert writer."
  ++ para ++ lit "Here is the plot: " ++ plot
  ++ para ++ lit "What is the title of this book? Just respond with the title, do nothing else.".

(** [promptText] of [generateStoryline] *)
Definition storylinePrompt (plot : str) (numChapters : Z) : str :=
  lit "You are a world-class fantasy writer. Your job is to write a detailed storyline, complete with chapters, for a fantasy novel. Don't be flowery -- you want to get the message across in as few words as possible. But those words should contain lots of information."
  ++ para ++ lit "Write a fantastic storyline with " ++ dec_Z numChapters
  ++ lit " chapters and high-level details based on this plot: " ++ plot ++ lit "."
  ++ para ++ lit "output the response in a json format following this template "
  ++ jsonFormat.

(** [improvePrompt] of [generateStoryline] *)
Definition improveStorylinePrompt (initialResponse : str) : str :=
  lit "You are a world-class fantasy writer. Your job is to take your student's rough initial draft of the storyline of a fantasy novel, and rewrite it to be significantly better."
  ++ para ++ lit "Here is the draft storyline they wrote: " ++ initialResponse
  ++ para ++ lit "Now, rewrite the storyline, in a way that is far superior to your student's version. It should have the same number of chapters, but it should be much improved in as many ways as possible. Remember to do it in this list of dictionaries format "
  ++ jsonFormat.

(** [prompt] of [generateCoverPrompt] *)
Definition coverPrompt (plot : str) : str :=
  lit "You are a creative assistant that writes a spec for the cover art of a book, based on the book's plot."
  ++ para ++ lit "Plot: " ++ plot
  ++ para ++ lit "Describe the cover we should create, based on the plot. This should be two sentences long, maximum.".

(** ** The name of the manuscript file *)

(** [prompt.replace(/[^a-z0-9._ ]/gi, '').trim()] of [writeToFile] *)
Definition validFilename (prompt : str) : str :=
  trim (filter (λ c, filename_unit c = true) prompt).

(** ** The chapters of the e-book

    The callback that [createEpub] maps over the chapter records. *)

(** [s.includes(p)] *)
Definition str_includes (p s : str) : bool :=
  bool_decide (is_Some (find_first p s)).

(** [s.split(sep)] for a separator that is not empty: the pieces between
    the occurrences of [sep], found from left to right. An occurrence is
    not empty, so [length s] rounds are never used up. *)
Fixpoint split_rounds (rounds : nat) (sep s : str) : list str :=
  match rounds with
  | O => [s]
  | S rounds' =>
      match find_first sep s with
      | None => [s]
      | Some (before, rest) => before :: split_rounds rounds' sep rest
      end
  end.

Definition str_split (sep s : str) : list str := split_rounds (length s) sep s.

(** [chapterContent.split('\n').filter(para => para.trim())
       .map(para => `<p>${para}</p>`).join('')] *)
Definition formattedContent (chapterContent : str) : str :=
  join [] ((λ para, lit "<p>" ++ para ++ lit "</p>")
           <$> filter (λ para, is_nil (trim para) = false) (split_nl chapterContent)).

(** The separator of the number and the name in a chapter title. *)
Definition dash : str := lit " - ".

(** An entry of [content]; a [title] that is [None] is [undefined]. *)
Record EpubChapter := { epub_title : option str; epub_data : str }.

(** [chapterObj[chapterTitle]] for the first key of [chapterObj]: the
    value of an own property. The first key of an array and of a string
    is ["0"]. *)
Definition first_value (chapterObj : value) (chapterTitle : str) : value :=
  match chapterObj with
  | VObj props => default VUndefined (own_property props chapterTitle)
  | _ => default VUndefined (js_get chapterObj 0)
  end.

(** The callback of [chapters.map]; [None] is a [TypeError]: of
    [Object.keys] on [undefined] or [null], or of [.split] on a content
    that is not a string, which is also the case when there is no key. *)
Definition epubChapter (chapterObj : value) : option EpubChapter :=
  keys ← Object_keys chapterObj;
  chapterTitle ← head keys;
  match first_value chapterObj chapterTitle with
  | VStr chapterContent =>
      Some {| epub_title :=
                if str_includes dash chapterTitle
                then str_split dash chapterTitle !! 1
                else Some chapterTitle;
              epub_data := lit "<h1>" ++ chapterTitle ++ lit "</h1>"
                           ++ formattedContent chapterContent |}
  | _ => None
  end.

(** [chapters.map(...)]: the [content] of the e-book. *)
Definition epubContent (chapters : list value) : option (list EpubChapter) :=
  mapM epubChapter chapters.

(** ** Properties of the stages *)

Section Stages.
Context `{Builtins} (E : Env).

(** The requests of the stages up to the storyline, for the responses
    of the first five. *)
Definition storyline_requests (prompt : str) (numChapters : Z)
    (plots bestPlot improvedPlot initialResponse : str) : list request :=
  ollama_request E <$>
    [plotsPrompt prompt; selectPrompt (split_nl plots); improvePlotPrompt bestPlot;
     titlePrompt improvedPlot; storylinePrompt improvedPlot numChapters;
     improveStorylinePrompt initialResponse].

(** The response to the request [i] of a run, cleaned. *)
Definition response_at (w : World) (i : nat) (req : request) : outcome str :=
  reply_outcome (svc E (length (sent w) + i) req).

(** From [w] to [w'] the requests [reqs] were sent, in this order, and
    were answered by the texts [texts]; no file was written. *)
Definition asked (w w' : World) (reqs : list request) (texts : list str) : Prop :=
  sent w' = sent w ++ reqs ∧ disk w' = disk w ∧
  imap (response_at w) reqs = Ret <$> texts.

(** A computation that writes no file and whose requests all carry the
    model and the language of the configuration. *)
Definition only_asks {A} (m : M A) : Prop :=
  ∀ w, post m w (λ _ w',
    disk w' = disk w ∧ ∃ prompts, sent w' = sent w ++ (ollama_request E <$> prompts)).

(** The artifacts of a run that completes, in the order of their
    writing. *)
Definition cover_path : path := [outputDir E; lit "cover.png"].

Definition cover_file : artifact := CoverPng cover_path.

Definition epub_file (r : NovelResult) : artifact :=
  EpubFile [outputDir E; title r ++ lit ".epub"] (title r) (lit "Ollama Author")
           cover_path (chapterObjects r).

Definition artifacts (prompt : str) (r : NovelResult) : list artifact :=
  [prompt_file E prompt (novel r); cover_file; epub_file r].

(** The request of the cover caption. *)
Definition cover_request (r : NovelResult) : request :=
  ollama_request E
    (coverPrompt (template_hole (JSON_stringify (VArr (chapterObjects r))))).
End Stages.


(** * Lemmas on strings and on the two patterns *)

(** ** Strings: prefixes, occurrences and trimming *)

Lemma starts_with_true p s : starts_with p s = true ↔ ∃ r, s = p ++ r.
Proof.
  revert s. induction p as [|c p IH]; intros s; simpl.
  - split; [eauto | done].
  - destruct s as [|d s].
    + split; [done | intros [r Hr]; done].
    + rewrite andb_true_iff, IH, N.eqb_eq. split.
      * intros [-> [r ->]]. eauto.
      * intros [r Hr]. simplify_eq. eauto.
Qed.

Lemma starts_with_app p r : starts_with p (p ++ r) = true.
Proof. apply starts_with_true. eauto. Qed.

Lemma starts_with_app_l p s t : starts_with p s = true → starts_with p (s ++ t) = true.
Proof.
  rewrite !starts_with_true. intros [r ->]. exists (r ++ t). by rewrite (assoc_L (++)).
Qed.

Lemma starts_with_drop p s :
  starts_with p s = true → s = p ++ drop (length p) s.
Proof.
  intros [r ->]%starts_with_true. by rewrite drop_app_length.
Qed.

Lemma m_lit_spec {A} p (k : str → option A) s :
  m_lit p k s = if starts_with p s then k (drop (length p) s) else None.
Proof.
  revert s. induction p as [|c p IH]; intros s; simpl; [done|].
  destruct s as [|d s]; [done|]. destruct (c =? d)%N; simpl; [apply IH | done].
Qed.

Lemma find_first_Some p s a b : find_first p s = Some (a, b) → s = a ++ p ++ b.
Proof.
  revert a b. induction s as [|c s IH]; intros a b.
  - simpl. destruct (starts_with p []) eqn:Hp; [|done].
    intros [= <- <-]. by apply starts_with_drop in Hp.
  - simpl. destruct (starts_with p (c :: s)) eqn:Hp.
    + intros [= <- <-]. by apply starts_with_drop in Hp.
    + destruct (find_first p s) as [[a' b']|] eqn:Hf; [|done].
      intros [= <- <-]. simpl. f_equal. by apply IH.
Qed.

Lemma find_first_None p s : find_first p s = None ↔ ∀ a b, s ≠ a ++ p ++ b.
Proof.
  induction s as [|c s IH]; simpl.
  - destruct (starts_with p []) eqn:Hp.
    + split; [done|]. intros Hn. apply starts_with_true in Hp as [r Hr].
      destruct (Hn [] r). done.
    + split; [|done]. intros _ a b Hab.
      assert (starts_with p [] = true); [|congruence].
      apply starts_with_true. destruct a; [|done]. eauto.
  - destruct (starts_with p (c :: s)) eqn:Hp.
    + split; [done|]. intros Hn. apply starts_with_true in Hp as [r Hr].
      destruct (Hn [] r). done.
    + destruct (find_first p s) as [[a' b']|] eqn:Hf; simpl.
      * split; [done|]. intros Hn. apply find_first_Some in Hf.
        destruct (Hn (c :: a') b'). by rewrite Hf.
      * split; [|done]. intros _ a b Hab. destruct a as [|d a]; simpl in Hab.
        -- rewrite Hab, starts_with_app in Hp. done.
        -- simplify_eq. by eapply (proj1 IH).
Qed.

Lemma find_first_None_suffix p s t :
  find_first p s = None → t `suffix_of` s → find_first p t = None.
Proof.
  rewrite !find_first_None. intros Hn [k ->] a b ->.
  apply (Hn (k ++ a) b). by rewrite <-(assoc_L (++)).
Qed.

Lemma find_first_None_prefix p s t :
  find_first p s = None → t `prefix_of` s → find_first p t = None.
Proof.
  rewrite !find_first_None. intros Hn [k ->] a b ->.
  apply (Hn a (b ++ k)). by rewrite <-!(assoc_L (++)).
Qed.

Lemma find_first_None_app p s t : find_first p (s ++ t) = None → find_first p s = None ∧ find_first p t = None.
Proof.
  intros Hn. split.
  - eapply find_first_None_prefix; [done|]. by apply prefix_app_r.
  - eapply find_first_None_suffix; [done|]. by apply suffix_app_r.
Qed.

(** The text before the first occurrence holds no occurrence. *)
Lemma find_first_before p s a b :
  p ≠ [] → find_first p s = Some (a, b) → find_first p a = None.
Proof.
  intros Hp. revert a b. induction s as [|c s IH]; intros a b; simpl.
  - destruct (starts_with p []) eqn:E; [|done]. intros [= <- <-].
    destruct p; [done|]. done.
  - destruct (starts_with p (c :: s)) eqn:E.
    + intros [= <- <-]. destruct p; [done|]. done.
    + destruct (find_first p s) as [[a' b']|] eqn:Hf; [|done].
      intros [= <- <-]. simpl.
      destruct (starts_with p (c :: a')) eqn:E'.
      * apply find_first_Some in Hf. subst s.
        apply (starts_with_app_l _ _ (p ++ b')) in E'. simpl in E'. congruence.
      * by erewrite IH.
Qed.

(** ** The matchers in closed form *)

Lemma suffix_of_suffixes (t1 t2 s : str) :
  t1 `suffix_of` s → t2 `suffix_of` s → length t1 ≤ length t2 → t1 `suffix_of` t2.
Proof.
  intros [k1 ->] [k2 Hk] Hlen.
  assert (Hl : length k2 ≤ length k1).
  { apply (f_equal length) in Hk. rewrite !length_app in Hk. lia. }
  exists (drop (length k2) k1).
  apply (f_equal (drop (length k2))) in Hk.
  rewrite drop_app_length in Hk. rewrite <-Hk.
  rewrite drop_app_le by done. done.
Qed.

(** The search for a pattern that starts with a literal [p]: when the
    rest of the pattern cannot match after the first [p], and a failure
    of the rest carries over to every later position, the search stops
    at the first occurrence of [p]. *)
Lemma re_search_lit {A} p (k : str → option A) skipped s :
  p ≠ [] →
  (∀ b b', k b = None → b' `suffix_of` b → k b' = None) →
  re_search (m_lit p k) skipped s =
    match find_first p s with
    | None => None
    | Some (a, b) => (λ r, (skipped ++ a, r)) <$> k b
    end.
Proof.
  intros Hp Hk. revert skipped. induction s as [|c s IH]; intros skipped.
  - simpl. rewrite m_lit_spec. destruct p; [done|]. done.
  - cbn [re_search find_first]. rewrite m_lit_spec.
    destruct (starts_with p (c :: s)) eqn:E.
    + destruct (k (drop (length p) (c :: s))) as [r|] eqn:Hkb; simpl.
      * by rewrite (right_id_L [] (++)).
      * rewrite IH. destruct (find_first p s) as [[a b]|] eqn:Hf; [|done].
        rewrite (Hk _ b Hkb); [done|].
        apply find_first_Some in Hf. apply starts_with_drop in E.
        destruct p as [|d p]; [done|]. simpl in E. injection E as -> E.
        simpl. apply (suffix_of_suffixes _ _ s).
        -- exists (a ++ d :: p). by rewrite <-(assoc_L (++)).
        -- apply suffix_drop.
        -- rewrite length_drop. apply (f_equal length) in Hf.
           rewrite !length_app in Hf. simpl in Hf. lia.
    + rewrite IH. destruct (find_first p s) as [[a b]|]; simpl; [|done].
      destruct (k b); simpl; [|done]. by rewrite <-(assoc_L (++)).
Qed.

(** A lazy capture followed by a literal stops at the first occurrence
    of the literal. *)
Lemma m_any_lazy_lit p g s :
  m_any_lazy (λ g, m_lit p (λ rest, Some (g, rest))) g s =
    (λ ir, (g ++ ir.1, ir.2)) <$> find_first p s.
Proof.
  revert g. induction s as [|c s IH]; intros g.
  - simpl. rewrite m_lit_spec. destruct (starts_with p []); simpl; [|done].
    by rewrite (right_id_L [] (++)).
  - cbn [m_any_lazy find_first]. rewrite m_lit_spec.
    destruct (starts_with p (c :: s)); simpl.
    + by rewrite (right_id_L [] (++)).
    + rewrite IH. destruct (find_first p s) as [[a b]|]; simpl; [|done].
      by rewrite <-(assoc_L (++)).
Qed.

(** [thinkRegex.exec] finds the first opening tag that is closed, and
    the first closing tag after it. *)
Lemma thinkRegex_search skipped s :
  re_search thinkRegex_here skipped s =
    match find_first think_open s with
    | None => None
    | Some (a, b) =>
        match find_first think_close b with
        | None => None
        | Some (g, rest) => Some (skipped ++ a, (g, rest))
        end
    end.
Proof.
  unfold thinkRegex_here. rewrite re_search_lit.
  - destruct (find_first think_open s) as [[a b]|]; [|done].
    rewrite m_any_lazy_lit. by destruct (find_first think_close b) as [[g rest]|].
  - done.
  - intros b b'. rewrite !m_any_lazy_lit.
    destruct (find_first think_close b) eqn:Hb; [done|]. intros _ Hs.
    by rewrite (find_first_None_suffix _ _ _ Hb Hs).
Qed.

Lemma thinkRegex_exec_spec s :
  thinkRegex_exec s =
    match find_first think_open s with
    | None => None
    | Some (_, b) =>
        match find_first think_close b with
        | None => None
        | Some (g, rest) => Some (think_open ++ g ++ think_close, g, rest)
        end
    end.
Proof.
  unfold thinkRegex_exec. rewrite thinkRegex_search.
  destruct (find_first think_open s) as [[a b]|]; [|done].
  by destruct (find_first think_close b) as [[g rest]|].
Qed.

(** ** Trimming *)

Lemma drop_ws_suffix s : drop_ws s `suffix_of` s.
Proof.
  induction s as [|c s IH]; simpl; [done|].
  destruct (is_ws c); [by apply suffix_cons_r | done].
Qed.

Lemma rstrip_prefix s : rstrip s `prefix_of` s.
Proof.
  induction s as [|c s IH]; simpl; [done|].
  destruct (is_ws c && is_nil (rstrip s)); [apply prefix_nil | by apply prefix_cons].
Qed.

Lemma rstrip_idemp s : rstrip (rstrip s) = rstrip s.
Proof.
  induction s as [|c s IH]; simpl; [done|].
  destruct (is_ws c && is_nil (rstrip s)) eqn:E; simpl; [done|].
  by rewrite IH, E.
Qed.

Lemma drop_ws_head s : head_not_ws (drop_ws s).
Proof.
  induction s as [|c s IH]; simpl; [done|]. by destruct (is_ws c) eqn:E.
Qed.

Lemma drop_ws_id s : head_not_ws s → drop_ws s = s.
Proof. destruct s as [|c s]; simpl; [done|]. by intros ->. Qed.

Lemma rstrip_head s : head_not_ws s → head_not_ws (rstrip s).
Proof.
  destruct s as [|c s]; simpl; [done|]. intros Hc. by rewrite Hc.
Qed.

Lemma trim_idemp s : trim (trim s) = trim s.
Proof.
  unfold trim. rewrite (drop_ws_id (rstrip _)).
  - apply rstrip_idemp.
  - apply rstrip_head, drop_ws_head.
Qed.

(** The trimmed text sits inside the text. *)
Lemma trim_infix s : ∃ l r, s = l ++ trim s ++ r.
Proof.
  destruct (drop_ws_suffix s) as [l Hl].
  destruct (rstrip_prefix (drop_ws s)) as [r Hr].
  exists l, r. unfold trim. by rewrite <-Hr.
Qed.

Lemma find_first_None_trim p s : find_first p s = None → find_first p (trim s) = None.
Proof.
  intros Hn. destruct (trim_infix s) as (l & r & Hs). rewrite Hs in Hn.
  apply find_first_None_app in Hn as [_ Hn]. by apply find_first_None_app in Hn as [Hn _].
Qed.

Lemma rstrip_nil_drop_ws i t : rstrip i = [] → drop_ws (i ++ t) = drop_ws t.
Proof.
  induction i as [|c i IH]; simpl; [done|].
  destruct (is_ws c) eqn:E; simpl.
  - destruct (rstrip i); simpl; [auto | done].
  - done.
Qed.

(** ** The fence pattern in closed form *)

Lemma m_ws_star_Some {A} (k : str → option A) s r :
  k (drop_ws s) = Some r → m_ws_star k s = Some r.
Proof.
  induction s as [|c s IH]; [done|]. cbn [m_ws_star drop_ws].
  destruct (is_ws c); [|done]. intros Hk. by rewrite IH.
Qed.

Lemma m_ws_star_None {A} (k : str → option A) s :
  (∀ t, t `suffix_of` s → k t = None) → m_ws_star k s = None.
Proof.
  induction s as [|c s IH]; intros Hk; cbn [m_ws_star].
  - by apply Hk.
  - rewrite IH.
    + rewrite Hk by done. by destruct (is_ws c).
    + intros t Ht. apply Hk. by apply suffix_cons_r.
Qed.

Section NotWhite.
(** A literal that does not start with white space. *)
Variables (c0 : N) (p' : str).
Hypothesis Hc0 : is_ws c0 = false.
Let p := c0 :: p'.

Lemma starts_with_white c s : is_ws c = true → starts_with p (c :: s) = false.
Proof using Hc0.
  intros Hc. simpl. destruct (c0 =? c)%N eqn:E; [|done].
  apply N.eqb_eq in E. congruence.
Qed.

Lemma m_ws_star_lit {A} (k : str → option A) s :
  m_ws_star (m_lit p k) s = m_lit p k (drop_ws s).
Proof using Hc0.
  induction s as [|c s IH]; [done|]. cbn [m_ws_star drop_ws].
  destruct (is_ws c) eqn:E; [|done].
  rewrite IH. destruct (m_lit p k (drop_ws s)); [done|].
  by rewrite m_lit_spec, starts_with_white.
Qed.

Lemma find_first_white_run s :
  starts_with p (drop_ws s) = true →
  ∃ i rest, find_first p s = Some (i, rest) ∧ rstrip i = [].
Proof using Hc0.
  induction s as [|c s IH]; [done|]. cbn [drop_ws find_first].
  destruct (is_ws c) eqn:E.
  - intros (i & rest & -> & Hi)%IH.
    rewrite starts_with_white by done. exists (c :: i), rest. simpl.
    by rewrite E, Hi.
  - intros ->. eauto.
Qed.

Lemma find_first_rstrip_nil s i rest :
  find_first p s = Some (i, rest) → rstrip i = [] →
  starts_with p (drop_ws s) = true.
Proof using Hc0.
  intros ->%find_first_Some Hi. rewrite rstrip_nil_drop_ws by done.
  rewrite drop_ws_id; [apply starts_with_app | done].
Qed.

(** A lazy capture followed by [\s*] and the literal: the capture is
    the text before the first occurrence of the literal, without its
    trailing white space. *)
Lemma m_any_lazy_ws_lit g s :
  m_any_lazy (λ g, m_ws_star (m_lit p (λ _, Some g))) g s =
    (λ ir, g ++ rstrip ir.1) <$> find_first p s.
Proof using Hc0.
  revert g. induction s as [|c s IH]; intros g; [done|].
  cbn [m_any_lazy]. rewrite m_ws_star_lit, m_lit_spec.
  destruct (starts_with p (drop_ws (c :: s))) eqn:E.
  - apply find_first_white_run in E as (i & rest & -> & Hi). simpl.
    by rewrite Hi, (right_id_L [] (++)).
  - rewrite IH. cbn [find_first].
    destruct (starts_with p (c :: s)) eqn:E'.
    { destruct (is_ws c) eqn:Ec.
      - by rewrite starts_with_white in E'.
      - cbn [drop_ws] in E. rewrite Ec in E. congruence. }
    destruct (find_first p s) as [[i rest]|] eqn:Hf; [|done]. simpl.
    destruct (is_ws c && is_nil (rstrip i)) eqn:Ew.
    + apply andb_true_iff in Ew as [Hc Hi].
      assert (rstrip i = []) as Hi' by by destruct (rstrip i).
      cbn [drop_ws] in E. rewrite Hc in E.
      by rewrite (find_first_rstrip_nil _ _ _ Hf Hi') in E.
    + by rewrite <-(assoc_L (++)).
Qed.

Lemma find_first_drop_ws s i rest :
  find_first p s = Some (i, rest) →
  find_first p (drop_ws s) = Some (drop_ws i, rest).
Proof using Hc0.
  revert i. induction s as [|c s IH]; intros i; [done|].
  cbn [find_first]. destruct (starts_with p (c :: s)) eqn:E.
  - intros [= <- <-]. destruct (is_ws c) eqn:Ec.
    + by rewrite starts_with_white in E.
    + cbn [drop_ws]. rewrite Ec. cbn [find_first]. by rewrite E.
  - destruct (find_first p s) as [[i' rest']|] eqn:Hf; [|done].
    intros [= <- <-]. simpl. destruct (is_ws c) eqn:Ec; [by apply IH|].
    cbn [find_first]. by rewrite E, Hf.
Qed.

(** [\s*], the lazy capture, [\s*] and the literal: the capture is the
    trimmed text before the first occurrence of the literal. *)
Lemma m_ws_star_any_lazy s :
  m_ws_star (m_any_lazy (λ g, m_ws_star (m_lit p (λ _, Some g))) []) s =
    (λ ir, trim ir.1) <$> find_first p s.
Proof using Hc0.
  destruct (find_first p s) as [[i rest]|] eqn:Hf; simpl.
  - apply m_ws_star_Some.
    by rewrite m_any_lazy_ws_lit, (find_first_drop_ws _ _ _ Hf).
  - apply m_ws_star_None. intros t Ht.
    by rewrite m_any_lazy_ws_lit, (find_first_None_suffix _ _ _ Hf Ht).
Qed.
End NotWhite.

Lemma fence_units : fence = [96; 96; 96]%N.
Proof. reflexivity. Qed.

Lemma fence_json_units : fence_json = fence ++ lit "json".
Proof. reflexivity. Qed.

(** [text.match(jsonRegex)] captures the trimmed interior of the first
    fenced block tagged [json]. *)
Lemma jsonRegex_match_spec text :
  jsonRegex_match text = trim <$> first_json_fence text.
Proof.
  unfold jsonRegex_match, jsonRegex_here, first_json_fence.
  assert (∀ s, m_ws_star (m_any_lazy (λ g, m_ws_star (m_lit fence (λ _, Some g))) []) s
               = (λ ir, trim ir.1) <$> find_first fence s) as Hk.
  { intros s. rewrite fence_units. by apply m_ws_star_any_lazy. }
  rewrite re_search_lit.
  - destruct (find_first fence_json text) as [[a b]|]; simpl; [|done].
    rewrite Hk. by destruct (find_first fence b) as [[i rest]|].
  - done.
  - intros b b'. rewrite !Hk.
    destruct (find_first fence b) eqn:Hb; [done|]. intros _ Hs.
    by rewrite (find_first_None_suffix _ _ _ Hb Hs).
Qed.

Lemma extractJsonFromMarkdown_closed text :
  extractJsonFromMarkdown text =
    match first_json_fence text with
    | Some interior => if is_nil (trim interior) then text else trim interior
    | None => text
    end.
Proof.
  unfold extractJsonFromMarkdown. rewrite jsonRegex_match_spec.
  destruct (first_json_fence text) as [i|]; simpl; [|done].
  by rewrite trim_idemp.
Qed.

Lemma first_json_fence_interior text interior :
  first_json_fence text = Some interior → find_first fence interior = None.
Proof.
  unfold first_json_fence. destruct (find_first fence_json text) as [[a b]|]; [|done].
  simpl. destruct (find_first fence b) as [[i rest]|] eqn:Hf; [|done].
  intros [= <-]. by apply (find_first_before fence b i rest).
Qed.

Lemma first_json_fence_None text :
  find_first fence text = None → first_json_fence text = None.
Proof.
  intros Hn. unfold first_json_fence.
  destruct (find_first fence_json text) as [[a b]|] eqn:Hf; [|done].
  apply find_first_Some in Hf. rewrite fence_json_units in Hf.
  destruct (proj1 (find_first_None _ _) Hn a (lit "json" ++ b)).
  by rewrite Hf, <-(assoc_L (++)).
Qed.

Lemma extractJsonFromMarkdown_idemp text :
  extractJsonFromMarkdown (extractJsonFromMarkdown text) = extractJsonFromMarkdown text.
Proof.
  rewrite (extractJsonFromMarkdown_closed text).
  destruct (first_json_fence text) as [i|] eqn:Hf.
  - destruct (is_nil (trim i)) eqn:En.
    + by rewrite extractJsonFromMarkdown_closed, Hf, En.
    + rewrite extractJsonFromMarkdown_closed, first_json_fence_None; [done|].
      by apply find_first_None_trim, (first_json_fence_interior text).
  - by rewrite extractJsonFromMarkdown_closed, Hf.
Qed.

(** ** The reasoning segments *)

Lemma think_open_units : think_open = [60; 116; 104; 105; 110; 107; 62]%N.
Proof. reflexivity. Qed.

Lemma find_first_None_starts p s : find_first p s = None → starts_with p s = false.
Proof. destruct s; simpl; by destruct (starts_with p _). Qed.

(** No occurrence of the opening tag can start before an occurrence and
    run into it. *)
Lemma think_open_no_overlap x y :
  x ≠ [] → find_first think_open x = None →
  starts_with think_open (x ++ think_open ++ y) = false.
Proof.
  intros Hx Hn%find_first_None_starts.
  destruct (starts_with think_open (x ++ think_open ++ y)) eqn:E; [|done].
  rewrite think_open_units in *.
  destruct x as [|x1 [|x2 [|x3 [|x4 [|x5 [|x6 [|x7 x]]]]]]]; [done|..];
    cbn [starts_with app] in E, Hn;
    repeat match goal with
           | H : _ && _ = true |- _ => apply andb_true_iff in H as [? ?]
           end;
    try done.
  repeat match goal with
         | H : (_ =? _)%N = true |- _ => rewrite H in Hn
         end.
  done.
Qed.

(** Deleting the first occurrence of a segment deletes the segment
    itself when no opening tag stands before it. *)
Lemma replace_first_segment x m rest :
  find_first think_open x = None →
  replace_first (think_open ++ m) (x ++ (think_open ++ m) ++ rest) = x ++ rest.
Proof.
  induction x as [|c x IH]; intros Hn.
  - cbn [app]. destruct ((think_open ++ m) ++ rest) eqn:E.
    + by destruct rest.
    + cbn [replace_first]. rewrite <-E, starts_with_app, drop_app_length. done.
  - cbn [app replace_first].
    destruct (starts_with (think_open ++ m) (c :: x ++ (think_open ++ m) ++ rest)) eqn:E.
    + apply starts_with_true in E as [r Hr].
      pose proof (think_open_no_overlap (c :: x) (m ++ rest)) as Ho.
      rewrite <-!(assoc_L (++)) in Hr. cbn [app] in Ho.
      rewrite Hr in Ho. rewrite starts_with_app in Ho. by specialize (Ho ltac:(done) Hn).
    + f_equal. apply IH.
      eapply find_first_None_suffix; [done|]. by apply suffix_cons_r.
Qed.

(** The rounds of the loop delete the segments where they stand, as long
    as the text that is left holds no opening tag. *)
Lemma think_loop_strip n unread kept :
  find_first think_open (kept ++ strip_segments n unread) = None →
  think_loop n unread (kept ++ unread) = kept ++ strip_segments n unread.
Proof.
  revert unread kept. induction n as [|n IH]; intros unread kept; [done|].
  cbn [think_loop strip_segments]. rewrite thinkRegex_exec_spec.
  destruct (find_first think_open unread) as [[a b]|] eqn:Ha; [|done].
  destruct (find_first think_close b) as [[g rest]|] eqn:Hb; [|done].
  intros Hn. apply find_first_Some in Ha, Hb. subst b unread.
  rewrite !(assoc_L (++) kept) in *.
  rewrite <-(IH rest (kept ++ a)) by done. f_equal.
  rewrite <-(replace_first_segment (kept ++ a) (g ++ think_close) rest).
  - by rewrite <-!(assoc_L (++)).
  - by apply find_first_None_app in Hn as [Hn _].
Qed.

(** The bound on the rounds is never reached: a round consumes text. *)
Lemma think_loop_rounds n m unread cleaned :
  length unread ≤ n → length unread ≤ m →
  think_loop n unread cleaned = think_loop m unread cleaned.
Proof.
  revert m unread cleaned. induction n as [|n IH]; intros m unread cleaned Hn Hm.
  - destruct unread; [|simpl in Hn; lia]. by destruct m.
  - destruct m as [|m].
    + destruct unread; [done | simpl in Hm; lia].
    + cbn [think_loop]. rewrite thinkRegex_exec_spec.
      destruct (find_first think_open unread) as [[a b]|] eqn:Ha; [|done].
      destruct (find_first think_close b) as [[g rest]|] eqn:Hb; [|done].
      apply find_first_Some in Ha, Hb. subst b unread.
      rewrite !length_app in Hn, Hm. rewrite think_open_units in Hn, Hm.
      simpl in Hn, Hm. apply IH; lia.
Qed.

Lemma strip_segments_rounds n m s :
  length s ≤ n → length s ≤ m → strip_segments n s = strip_segments m s.
Proof.
  revert m s. induction n as [|n IH]; intros m s Hn Hm.
  - destruct s; [|simpl in Hn; lia]. by destruct m.
  - destruct m as [|m].
    + destruct s; [done | simpl in Hm; lia].
    + cbn [strip_segments].
      destruct (find_first think_open s) as [[a b]|] eqn:Ha; [|done].
      destruct (find_first think_close b) as [[g rest]|] eqn:Hb; [|done].
      apply find_first_Some in Ha, Hb. subst b s.
      rewrite !length_app in Hn, Hm. rewrite think_open_units in Hn, Hm.
      simpl in Hn, Hm. f_equal. apply IH; lia.
Qed.

(** The first occurrence is the leftmost one. *)
Lemma find_first_leftmost p s a b a2 b2 :
  find_first p s = Some (a, b) → s = a2 ++ p ++ b2 → b2 `suffix_of` b.
Proof.
  intros Hf Hs.
  assert (length a ≤ length a2) as Hl.
  { revert a a2 Hf Hs. induction s as [|c s IH]; intros a a2; cbn [find_first].
    - destruct (starts_with p []); [|done]. intros [= <- <-]. simpl. lia.
    - destruct (starts_with p (c :: s)) eqn:E.
      + intros [= <- <-]. simpl. lia.
      + destruct (find_first p s) as [[a' b']|] eqn:Hf'; [|done].
        intros [= <- <-] Hs. destruct a2 as [|d a2].
        * simpl in Hs. rewrite Hs, starts_with_app in E. done.
        * simpl in Hs. injection Hs as -> Hs. simpl.
          specialize (IH a' a2 eq_refl Hs). lia. }
  apply find_first_Some in Hf. apply (suffix_of_suffixes _ _ s).
  - exists (a2 ++ p). by rewrite <-(assoc_L (++)).
  - exists (a ++ p). by rewrite <-(assoc_L (++)).
  - apply (f_equal length) in Hf. rewrite Hs, !length_app in Hf. lia.
Qed.

Lemma has_think_segment_infix l t r :
  has_think_segment (l ++ t ++ r) = false → has_think_segment t = false.
Proof.
  unfold has_think_segment. intros Hs.
  destruct (find_first think_open t) as [[a b]|] eqn:Ha; [|done].
  apply bool_decide_eq_false. intros [[g rest] Hb].
  apply find_first_Some in Ha, Hb. subst b t.
  destruct (find_first think_open (l ++ (a ++ think_open ++ g ++ think_close ++ rest) ++ r))
    as [[a' b']|] eqn:Ha'.
  - apply bool_decide_eq_false in Hs. apply Hs.
    assert ((g ++ think_close ++ rest ++ r) `suffix_of` b') as [k Hk].
    { apply (find_first_leftmost _ _ _ _ (l ++ a) _ Ha').
      by rewrite <-!(assoc_L (++)). }
    destruct (find_first think_close b') eqn:Hc; [done|].
    destruct (proj1 (find_first_None _ _) Hc (k ++ g) (rest ++ r)).
    by rewrite Hk, <-!(assoc_L (++)).
  - destruct (proj1 (find_first_None _ _) Ha' (l ++ a) (g ++ think_close ++ rest ++ r)).
    by rewrite <-!(assoc_L (++)).
Qed.

Lemma thinkRegex_exec_None s : has_think_segment s = false → thinkRegex_exec s = None.
Proof.
  unfold has_think_segment. rewrite thinkRegex_exec_spec.
  destruct (find_first think_open s) as [[a b]|]; [|done].
  destruct (find_first think_close b) as [[g rest]|]; [|done].
  intros Hs. apply bool_decide_eq_false in Hs. destruct Hs. eauto.
Qed.

Lemma parseOllamaResponse_no_segment s :
  has_think_segment s = false → parseOllamaResponse s = trim s.
Proof.
  intros Hs%thinkRegex_exec_None. unfold parseOllamaResponse.
  destruct (length s); cbn [think_loop]; [done|]. by rewrite Hs.
Qed.

Lemma strip_think_no_segment s : has_think_segment s = false → strip_think s = s.
Proof.
  unfold has_think_segment, strip_think. intros Hs.
  destruct (length s); cbn [strip_segments]; [done|].
  destruct (find_first think_open s) as [[a b]|]; [|done].
  destruct (find_first think_close b) as [[g rest]|]; [|done].
  apply bool_decide_eq_false in Hs. destruct Hs. eauto.
Qed.

Lemma no_open_no_segment s : find_first think_open s = None → has_think_segment s = false.
Proof. unfold has_think_segment. by intros ->. Qed.

Lemma parseOllamaResponse_clean s :
  find_first think_open (strip_think s) = None →
  parseOllamaResponse s = trim (strip_think s).
Proof.
  intros Hn. unfold parseOllamaResponse, strip_think in *.
  by rewrite (think_loop_strip _ s []).
Qed.

(** ** The segments where they stand *)

Lemma replace_first_sublist p s : replace_first p s `sublist_of` s.
Proof.
  induction s as [|c s IH]; simpl.
  - destruct (starts_with p []); [|done]. by rewrite drop_nil.
  - destruct (starts_with p (c :: s)); [apply sublist_drop | by apply sublist_skip].
Qed.

Lemma think_loop_sublist rounds unread cleaned :
  think_loop rounds unread cleaned `sublist_of` cleaned.
Proof.
  revert unread cleaned. induction rounds as [|rounds IH]; intros unread cleaned; simpl.
  - done.
  - destruct (thinkRegex_exec unread) as [[[fullMatch g] rest]|]; [|done].
    etrans; [apply IH | apply replace_first_sublist].
Qed.

Lemma trim_sublist s : trim s `sublist_of` s.
Proof.
  destruct (trim_infix s) as (l & r & Hs). rewrite Hs at 2.
  apply sublist_inserts_l, sublist_inserts_r. done.
Qed.

(** The first occurrence of a pattern that no earlier text can run
    into. *)
Lemma find_first_app_here p a b :
  (∀ x y, x ≠ [] → find_first p x = None → starts_with p (x ++ p ++ y) = false) →
  find_first p a = None → find_first p (a ++ p ++ b) = Some (a, b).
Proof.
  intros Hp. induction a as [|c a IH]; intros Ha.
  - cbn [app]. destruct (p ++ b) as [|d s] eqn:Hs.
    + by destruct p, b.
    + cbn [find_first]. rewrite <-Hs. by rewrite starts_with_app, drop_app_length.
  - pose proof (Hp (c :: a) b ltac:(done) Ha) as Hs.
    cbn [app] in *. cbn [find_first]. rewrite Hs.
    rewrite IH; [done|]. eapply find_first_None_suffix; [done|]. by apply suffix_cons_r.
Qed.

Ltac no_overlap units :=
  let E := fresh "E" in
  intros ? Hn%find_first_None_starts;
  match goal with |- ?t = false => destruct t eqn:E; [|done] end;
  rewrite units in *;
  match goal with
  | x : str |- _ =>
      destruct x as [|? [|? [|? [|? [|? [|? [|? [|? x]]]]]]]]; [done|..];
      cbn [starts_with app] in E, Hn;
      repeat match goal with
             | H : _ && _ = true |- _ => apply andb_true_iff in H as [? ?]
             end;
      try done;
      repeat match goal with
             | H : (_ =? _)%N = true |- _ => rewrite H in Hn
             end;
      done
  end.

Lemma think_close_units : think_close = [60; 47; 116; 104; 105; 110; 107; 62]%N.
Proof. reflexivity. Qed.

Lemma think_close_no_overlap x y :
  x ≠ [] → find_first think_close x = None →
  starts_with think_close (x ++ think_close ++ y) = false.
Proof. revert x. intros x. no_overlap think_close_units. Qed.

Lemma starts_with_close_open z : starts_with think_close (think_open ++ z) = false.
Proof. done. Qed.

(** No closing tag can start in a text without one and run into an
    opening tag. *)
Lemma think_close_open_no_overlap k z :
  k ≠ [] → find_first think_close k = None →
  starts_with think_close (k ++ think_open ++ z) = false.
Proof.
  intros ? Hn%find_first_None_starts.
  destruct (starts_with think_close (k ++ think_open ++ z)) eqn:E; [|done].
  rewrite think_close_units, think_open_units in *.
  destruct k as [|? [|? [|? [|? [|? [|? [|? [|? k]]]]]]]]; [done|..];
    cbn [starts_with app] in E, Hn;
    repeat match goal with
           | H : _ && _ = true |- _ => apply andb_true_iff in H as [? ?]
           end;
    try done.
  repeat match goal with
         | H : (_ =? _)%N = true |- _ => rewrite H in Hn
         end.
  done.
Qed.

(** A text with a closed segment. *)
Lemma has_think_segment_here l m r :
  has_think_segment (l ++ think_open ++ m ++ think_close ++ r) = true.
Proof.
  destruct (has_think_segment (l ++ think_open ++ m ++ think_close ++ r)) eqn:E; [done|].
  assert (has_think_segment (think_open ++ m ++ think_close) = false) as Hs.
  { apply (has_think_segment_infix l _ r). by rewrite <-!(assoc_L (++)). }
  unfold has_think_segment in Hs.
  assert (find_first think_open (think_open ++ m ++ think_close)
          = Some ([], m ++ think_close)) as Hf.
  { rewrite think_open_units. cbn [app find_first starts_with].
    by rewrite !N.eqb_refl. }
  rewrite Hf in Hs. apply bool_decide_eq_false in Hs. destruct Hs.
  destruct (find_first think_close (m ++ think_close)) eqn:Hc; [done|].
  destruct (proj1 (find_first_None _ _) Hc m []). by rewrite (right_id_L [] (++)).
Qed.

(** In a text without a closed segment no closing tag stands after an
    opening tag. *)
Lemma no_close_after_open l m :
  has_think_segment (l ++ think_open ++ m) = false → find_first think_close m = None.
Proof.
  intros Hs. destruct (find_first think_close m) as [[m1 m2]|] eqn:Hm; [|done].
  apply find_first_Some in Hm as ->. by rewrite has_think_segment_here in Hs.
Qed.

Lemma has_think_segment_split s :
  has_think_segment s = true →
  ∃ a g r, s = a ++ think_open ++ g ++ think_close ++ r ∧
           find_first think_open a = None ∧ find_first think_close g = None.
Proof.
  unfold has_think_segment.
  destruct (find_first think_open s) as [[a b]|] eqn:Ha; [|done].
  intros [[g r] Hb]%bool_decide_eq_true.
  exists a, g, r. split_and!.
  - apply find_first_Some in Ha, Hb. by subst.
  - by eapply (find_first_before think_open s).
  - by eapply (find_first_before think_close b).
Qed.

(** The closing tag of a segment is the first one after its opening
    tag. *)
Lemma find_first_close_segment g rest :
  find_first think_close g = None →
  find_first think_close (think_open ++ g ++ think_close ++ rest)
  = Some (think_open ++ g, rest).
Proof.
  intros Hg. rewrite (assoc_L (++)).
  apply find_first_app_here; [apply think_close_no_overlap|].
  rewrite think_open_units, think_close_units in *. cbn [app find_first starts_with].
  cbn. by rewrite Hg.
Qed.

(** A segment matched after a text does not start inside the text, when
    the text and what is kept after it hold no closed segment. *)
Lemma segment_not_earlier x1 x2 tail g rest :
  x2 ≠ [] → has_think_segment ((x1 ++ x2) ++ tail) = false →
  find_first think_close g = None →
  starts_with (think_open ++ g ++ think_close)
    (x2 ++ (think_open ++ g ++ think_close) ++ rest) = false.
Proof.
  intros Hx2 Hseg Hg.
  destruct (starts_with _ _) eqn:E; [exfalso|done].
  apply starts_with_true in E as [r' Hr]. rewrite <-!(assoc_L (++)) in Hr.
  assert (starts_with think_open (x2 ++ think_open ++ g ++ think_close ++ rest) = true)
    as Ho by (rewrite Hr; apply starts_with_app).
  destruct (find_first think_open x2) as [[y1 y2]|] eqn:Hx.
  2:{ by rewrite think_open_no_overlap in Ho. }
  pose proof (find_first_before think_open x2 y1 y2 ltac:(done) Hx) as Hy1.
  apply find_first_Some in Hx as ->.
  destruct y1 as [|c y1].
  2:{ rewrite <-!(assoc_L (++)) in Ho.
      by rewrite (think_open_no_overlap (c :: y1)) in Ho. }
  cbn [app] in *. rewrite <-!(assoc_L (++)) in Hr, Hseg.
  apply app_inv_head in Hr.
  assert (find_first think_close y2 = None) as Hy2.
  { apply (no_close_after_open x1) in Hseg.
    by apply find_first_None_app in Hseg as [Hseg _]. }
  apply app_eq_inv in Hr as [(k & Hk & Hr)|(k & Hk & Hr)].
  - (* the closing tag of the copy ends after the text *)
    subst y2. apply find_first_None_app in Hy2 as [_ Hk].
    destruct k as [|c k].
    + pose proof (starts_with_app think_close r') as Hs. rewrite Hr in Hs.
      cbn [app] in Hs. by rewrite starts_with_close_open in Hs.
    + pose proof (starts_with_app think_close r') as Hs. rewrite Hr in Hs.
      by rewrite (think_close_open_no_overlap (c :: k)) in Hs.
  - (* the closing tag of the copy stands in the segment *)
    pose proof (find_first_close_segment g rest Hg) as Hf.
    assert (rest_r : r' `suffix_of` rest).
    { apply (find_first_leftmost _ _ _ _ k r' Hf Hr). }
    destruct rest_r as [u Hu]. apply (f_equal length) in Hr, Hk, Hu.
    repeat rewrite length_app in Hr. rewrite length_app in Hk, Hu.
    replace (length think_open) with 7 in Hr by done. lia.
Qed.

(** Deleting the first occurrence of a segment deletes the segment
    itself. *)
Lemma replace_first_here x tail g rest :
  has_think_segment (x ++ tail) = false → find_first think_close g = None →
  replace_first (think_open ++ g ++ think_close)
    (x ++ (think_open ++ g ++ think_close) ++ rest) = x ++ rest.
Proof.
  intros Hseg Hg.
  assert (∀ x1 x2, x = x1 ++ x2 →
            replace_first (think_open ++ g ++ think_close)
              (x2 ++ (think_open ++ g ++ think_close) ++ rest) = x2 ++ rest) as Hgen.
  { intros x1 x2. revert x1. induction x2 as [|c x2 IH]; intros x1 Hx.
    - cbn [app].
      destruct ((think_open ++ g ++ think_close) ++ rest) eqn:Hs; [by destruct rest|].
      cbn [replace_first]. rewrite <-Hs. by rewrite starts_with_app, drop_app_length.
    - cbn [app replace_first].
      pose proof (segment_not_earlier x1 (c :: x2) tail g rest) as Hn.
      cbn [app] in Hn. rewrite Hn; [|done|by rewrite <-Hx|done].
      f_equal. apply (IH (x1 ++ [c])). by rewrite Hx, <-(assoc_L (++)). }
  by apply (Hgen []).
Qed.

(** The rounds of the loop delete the segments where they stand, as long
    as the text that is left holds no closed segment. *)
Lemma think_loop_exact n unread kept :
  has_think_segment (kept ++ strip_segments n unread) = false →
  think_loop n unread (kept ++ unread) = kept ++ strip_segments n unread.
Proof.
  revert unread kept. induction n as [|n IH]; intros unread kept; [done|].
  cbn [think_loop strip_segments]. rewrite thinkRegex_exec_spec.
  destruct (find_first think_open unread) as [[a b]|] eqn:Ha; [|done].
  destruct (find_first think_close b) as [[g rest]|] eqn:Hb; [|done].
  intros Hn.
  pose proof (find_first_before think_close b g rest ltac:(done) Hb) as Hg.
  apply find_first_Some in Ha, Hb. subst b unread.
  rewrite !(assoc_L (++) kept) in *.
  rewrite <-(IH rest (kept ++ a)) by done. f_equal.
  rewrite <-(replace_first_here (kept ++ a) (strip_segments n rest) g rest) by done.
  by rewrite <-!(assoc_L (++)).
Qed.

Lemma parseOllamaResponse_exact s :
  has_think_segment (strip_think s) = false →
  parseOllamaResponse s = trim (strip_think s).
Proof.
  intros Hn. unfold parseOllamaResponse, strip_think in *.
  by rewrite (think_loop_exact _ s []).
Qed.

(** *** The converse: a closed segment that is left *)

Lemma drop_ws_app_head a m :
  head_not_ws m → m ≠ [] → drop_ws (a ++ m) = drop_ws a ++ m.
Proof.
  intros Hm Hne. induction a as [|c a IH]; cbn [app drop_ws].
  - by apply drop_ws_id.
  - by destruct (is_ws c).
Qed.

Lemma rstrip_app_keep l m : rstrip m ≠ [] → rstrip (l ++ m) = l ++ rstrip m.
Proof.
  intros Hm. induction l as [|c l IH]; cbn [app rstrip]; [done|].
  rewrite IH. destruct (l ++ rstrip m) eqn:Hl.
  - by destruct l, (rstrip m).
  - by rewrite andb_false_r.
Qed.

(** Trimming keeps a closed segment. *)
Lemma has_think_segment_trim s :
  has_think_segment s = true → has_think_segment (trim s) = true.
Proof.
  intros (a & g & r & -> & _ & _)%has_think_segment_split.
  assert (rstrip (think_close ++ r) = think_close ++ rstrip r) as Hc.
  { rewrite think_close_units. cbn [app rstrip is_ws].
    by destruct (rstrip r). }
  unfold trim. rewrite drop_ws_app_head; [|by rewrite think_open_units..].
  rewrite !(assoc_L (++)), <-(assoc_L (++) _ think_close).
  rewrite rstrip_app_keep.
  - rewrite Hc, <-!(assoc_L (++)). apply has_think_segment_here.
  - rewrite Hc, think_close_units. done.
Qed.

Lemma replace_first_shorter p s a b :
  s = a ++ p ++ b → 0 < length p → length (replace_first p s) < length s.
Proof.
  intros Hs Hp. revert a Hs.
  induction s as [|c s IH]; intros a Hs.
  - apply (f_equal length) in Hs. rewrite !length_app in Hs. simpl in Hs. lia.
  - cbn [replace_first]. destruct (starts_with p (c :: s)) eqn:E.
    + apply starts_with_true in E as [t Ht]. rewrite Ht, drop_app_length, length_app. lia.
    + destruct a as [|d a].
      * cbn [app] in Hs. by rewrite Hs, starts_with_app in E.
      * injection Hs as -> Hs. cbn [length]. specialize (IH a Hs). lia.
Qed.

(** A text with a closed segment is made shorter. *)
Lemma parseOllamaResponse_shorter s :
  has_think_segment s = true → length (parseOllamaResponse s) < length s.
Proof.
  intros Hseg. pose proof Hseg as (a & g & r & Hs & _ & _)%has_think_segment_split.
  unfold parseOllamaResponse.
  eapply Nat.le_lt_trans; [apply sublist_length, trim_sublist|].
  destruct (length s) as [|n] eqn:Hl.
  { apply (f_equal length) in Hs. rewrite !length_app, Hl in Hs.
    replace (length think_open) with 7 in Hs by done. lia. }
  cbn [think_loop]. rewrite thinkRegex_exec_spec.
  unfold has_think_segment in Hseg.
  destruct (find_first think_open s) as [[a' b]|] eqn:Ha; [|done].
  apply bool_decide_eq_true in Hseg as [[g' rest] Hb]. rewrite Hb.
  eapply Nat.le_lt_trans; [apply sublist_length, think_loop_sublist|].
  rewrite <-Hl. apply find_first_Some in Ha, Hb. subst b.
  apply (replace_first_shorter _ _ a' rest).
  - by rewrite Ha, <-!(assoc_L (++)).
  - rewrite length_app. replace (length think_open) with 7 by done. lia.
Qed.


(** ** Reasoning on runs *)

Lemma post_run {A} (m : M A) w Q out w' : post m w Q → m w = (out, w') → Q out w'.
Proof. unfold post. intros HQ Hm. by rewrite Hm in HQ. Qed.

Lemma post_intro {A} (m : M A) w (Q : outcome A → World → Prop) :
  (∀ out w', m w = (out, w') → Q out w') → post m w Q.
Proof. unfold post. intros HQ. apply HQ. by destruct (m w). Qed.

Lemma post_mono {A} (m : M A) w (Q Q' : outcome A → World → Prop) :
  post m w Q → (∀ out w', Q out w' → Q' out w') → post m w Q'.
Proof. unfold post. auto. Qed.

Lemma bind_run {A B} (m : M A) (f : A → M B) w :
  (m ≫= f) w =
    match m w with
    | (Ret a, w') => f a w'
    | (Throw e, w') => (Throw e, w')
    | (Diverge, w') => (Diverge, w')
    end.
Proof. done. Qed.

Lemma post_bind {A B} (m : M A) (f : A → M B) w Q :
  post m w (λ out w',
    match out with
    | Ret a => post (f a) w' Q
    | Throw e => Q (Throw e) w'
    | Diverge => Q Diverge w'
    end) →
  post (m ≫= f) w Q.
Proof.
  unfold post. rewrite bind_run. by destruct (m w) as [[a|e|] w'].
Qed.

Lemma post_ret {A} (a : A) w (Q : outcome A → World → Prop) :
  Q (Ret a) w → post (mret a) w Q.
Proof. done. Qed.

Lemma post_throw {A} e w (Q : outcome A → World → Prop) :
  Q (Throw e) w → post (throw e) w Q.
Proof. done. Qed.

Lemma post_or_TypeError {A} (o : option A) w (Q : outcome A → World → Prop) :
  match o with Some a => Q (Ret a) w | None => Q (Throw TypeError) w end →
  post (or_TypeError o) w Q.
Proof. by destruct o. Qed.

Lemma or_TypeError_Some {A} (a : A) w : or_TypeError (Some a) w = (Ret a, w).
Proof. done. Qed.

Lemma or_TypeError_None {A} w : or_TypeError (@None A) w = (Throw TypeError, w).
Proof. done. Qed.

Section RunLemmas.
Context `{Builtins} (E : Env).

Lemma failure_reply_text r : failure r = None ↔ is_Some (reply_text r).
Proof.
  destruct r as [|status [|[text|]]]; simpl; try (split; [done | by intros [? ?]]).
  - destruct (response_ok status); simpl; (split; [done | by intros [? ?]]).
  - destruct (response_ok status); simpl; (split; [done | by intros [? ?]]).
  - destruct (response_ok status); simpl; [by eauto|]. split; [done | by intros [? ?]].
Qed.

Lemma callOllama_run prompt w :
  callOllama E prompt w =
    (reply_outcome (svc E (length (sent w)) (ollama_request E prompt)),
     log_request (ollama_request E prompt) w).
Proof.
  unfold callOllama, try_catch. rewrite bind_run. unfold fetch, reply_outcome.
  destruct (svc E (length (sent w)) (ollama_request E prompt))
    as [|status [|[text|]]]; simpl; try done;
    by destruct (response_ok status).
Qed.

Lemma reply_outcome_Ret r text :
  reply_outcome r = Ret text ↔
  ∃ t, reply_text r = Some t ∧ text = parseOllamaResponse t.
Proof.
  unfold reply_outcome. destruct (failure r) eqn:Hf.
  - split; [done|]. intros (t & Ht & _).
    assert (failure r = None) by (apply failure_reply_text; eauto). congruence.
  - destruct (reply_text r) as [t|]; split.
    + intros [= <-]. eauto.
    + by intros (? & [= <-] & ->).
    + done.
    + by intros (? & ? & _).
Qed.

Lemma reply_outcome_Throw r e : reply_outcome r = Throw e ↔ failure r = Some e.
Proof.
  unfold reply_outcome. destruct (failure r) eqn:Hf.
  - split; congruence.
  - apply failure_reply_text in Hf as [t ->]. done.
Qed.

Lemma reply_outcome_Diverge r : reply_outcome r ≠ Diverge.
Proof.
  unfold reply_outcome. destruct (failure r); [done|]. by destruct (reply_text r).
Qed.

Lemma post_callOllama prompt w Q :
  Q (reply_outcome (svc E (length (sent w)) (ollama_request E prompt)))
    (log_request (ollama_request E prompt) w) →
  post (callOllama E prompt) w Q.
Proof. unfold post. by rewrite callOllama_run. Qed.

Lemma long_not_short r : long_reply r → short_reply r → False.
Proof. intros (t & Ht & Hl) (t' & Ht' & Hs). simplify_eq. lia. Qed.

Lemma short_no_failure r : short_reply r → failure r = None.
Proof. intros (t & Ht & _). apply failure_reply_text. eauto. Qed.

Lemma long_no_failure r : long_reply r → failure r = None.
Proof. intros (t & Ht & _). apply failure_reply_text. eauto. Qed.

(** *** writeChapter *)

Lemma writeChapter_post budget previousChapters plot chapterTitle w :
  post (writeChapter E budget previousChapters plot chapterTitle) w
    (writeChapter_result E budget
       (ollama_request E (chapterPrompt previousChapters plot chapterTitle))
       (bool_decide (is_Some (Object_keys chapterTitle))) w).
Proof.
  set (req := ollama_request E _). set (keyed := bool_decide _).
  revert w. induction budget as [|budget IH]; intros w.
  - exists 0. simpl. rewrite (right_id_L [] (++)). split_and!; try done; lia.
  - cbn [writeChapter]. apply post_bind, post_or_TypeError.
    destruct (Object_keys chapterTitle) as [keys|] eqn:Hk.
    2:{ exists 0. simpl. rewrite (right_id_L [] (++)).
        split_and!; try done; try lia. by left. }
    cbn beta iota. apply post_bind, post_callOllama.
    fold req. set (r := svc E (length (sent w)) req).
    destruct (reply_outcome r) as [text|e|] eqn:Hr.
    + destruct (length text <? 1000) eqn:Hlen.
      * apply Nat.ltb_lt in Hlen. apply reply_outcome_Ret in Hr as (t & Ht & ->).
        eapply post_mono; [apply IH|]. intros out w' (k & Hs & Hd & Hk' & Hshort & Hout).
        cbn [log_request sent disk] in *. rewrite length_app in *. cbn [length] in *.
        exists (S k). rewrite Hs, <-(assoc_L (++)). split_and!; try done; try lia.
        -- intros [|j] Hj; [rewrite Nat.add_0_r; by exists t|].
           replace (length (sent w) + S j) with (length (sent w) + 1 + j) by lia.
           apply Hshort. lia.
        -- destruct out as [text|e|].
           ++ destruct Hout as (k' & t' & -> & Ht' & -> & Hl). exists (S k'), t'.
              replace (length (sent w) + S k') with (length (sent w) + 1 + k') by lia.
              done.
           ++ destruct Hout as [(-> & Hkeyed & _)|(k' & -> & Hf)].
              ** by subst keyed.
              ** right. exists (S k').
                 replace (length (sent w) + S k') with (length (sent w) + 1 + k') by lia.
                 done.
           ++ destruct Hout as [-> Hall]. split; [done|].
              intros [|j] Hj; [rewrite Nat.add_0_r; by exists t|].
              replace (length (sent w) + S j) with (length (sent w) + 1 + j) by lia.
              apply Hall. lia.
      * apply Nat.ltb_ge in Hlen. apply post_ret.
        apply reply_outcome_Ret in Hr as (t & Ht & ->).
        exists 1. cbn [log_request sent disk replicate]. split_and!; try done; try lia.
        exists 0, t. by rewrite Nat.add_0_r.
    + exists 1. cbn [log_request sent disk replicate]. split_and!; try done; try lia.
      right. exists 0. rewrite Nat.add_0_r. split; [done|]. by apply reply_outcome_Throw.
    + by apply reply_outcome_Diverge in Hr.
Qed.

(** *** The loop over the chapters *)

Lemma chapter_blocks_app i a b :
  chapter_blocks i (a ++ b) = chapter_blocks i a ++ chapter_blocks (i + length a) b.
Proof.
  revert i. induction a as [|t a IH]; intros i; cbn [chapter_blocks app length].
  - by rewrite Nat.add_0_r.
  - rewrite IH, <-!(assoc_L (++)). by replace (S i + length a) with (i + S (length a)) by lia.
Qed.

Lemma manuscript_snoc storyline done t :
  manuscript storyline (done ++ [t]) =
    manuscript storyline done
    ++ lit "Chapter " ++ dec (length done + 1) ++ lit ":" ++ nl ++ t ++ nl.
Proof.
  unfold manuscript. rewrite chapter_blocks_app. cbn [chapter_blocks].
  rewrite (right_id_L [] (++)), <-!(assoc_L (++)).
  by replace (1 + length done) with (length done + 1) by lia.
Qed.

Lemma plan_entry_get plan i entry : js_get plan i = Some entry → plan_entry plan i = entry.
Proof. unfold plan_entry. by intros ->. Qed.

Lemma loop_post budget plan storyline count st w :
  novel st = manuscript storyline (chapters st) →
  post (chapter_loop E budget plan storyline count (length (chapters st)) st) w
    (loop_result E storyline plan st count w).
Proof.
  revert st w. induction count as [|count IH]; intros st w Hnovel.
  - apply post_ret. exists [], []. cbn [chapter_requests imap].
    rewrite ?(right_id_L [] (++)). split_and!; try done.
    intros st' [= <-]. rewrite ?(right_id_L [] (++)). split_and!; try done. lia.
  - cbn [chapter_loop]. apply post_bind, post_or_TypeError.
    destruct (js_get plan (length (chapters st))) as [entry|] eqn:Hget.
    2:{ exists [], []. cbn [chapter_requests]. rewrite ?(right_id_L [] (++)). done. }
    cbn beta iota. apply post_bind.
    eapply post_mono; [apply writeChapter_post|].
    intros out1 w1 (k & Hs & Hd & _ & _ & Hout).
    assert (sent w1 = sent w ++ chapter_requests E storyline plan (chapters st) [[]] [k])
      as Hs1.
    { cbn [chapter_requests]. rewrite ?(right_id_L [] (++)).
      by rewrite <-Hnovel, (plan_entry_get _ _ _ Hget). }
    destruct out1 as [chapter|e|].
    2,3: by exists [[]], [k].
    apply post_bind, post_or_TypeError.
    destruct (first_key entry) as [key|] eqn:Hkey.
    2:{ by exists [[]], [k]. }
    cbn beta iota.
    set (st1 := {| novel := _ |}).
    assert (chapters st1 = chapters st ++ [chapter]) as Hch by done.
    replace (S (length (chapters st))) with (length (chapters st1))
      by (rewrite Hch, length_app; simpl; lia).
    eapply post_mono; [apply IH|].
    { by rewrite Hch, manuscript_snoc, <-Hnovel. }
    intros out w' (texts & attempts & Hs' & Hd' & HR).
    exists (chapter :: texts), (k :: attempts). split_and!.
    + rewrite Hs', Hs. cbn [chapter_requests]. rewrite Hch, <-!(assoc_L (++)).
      by rewrite <-Hnovel, (plan_entry_get _ _ _ Hget).
    + congruence.
    + intros st' Hst'. destruct (HR st' Hst') as (Hl & Ht & Hc & Hn & Ho & Hkeys & Hlong).
      rewrite Hch in *. rewrite length_app in *. cbn [length] in *.
      destruct Hout as (k' & t & -> & Ht' & -> & Hlen).
      split_and!.
      * simpl. lia.
      * done.
      * by rewrite Hc, <-(assoc_L (++)).
      * done.
      * rewrite Ho. subst st1. cbn [chapterObjects imap]. rewrite <-(assoc_L (++)).
        cbn [app]. f_equal. f_equal.
        -- unfold plan_key. rewrite Nat.add_0_r, Hget. simpl. by rewrite Hkey.
        -- apply imap_ext. intros j t' _. cbn.
           by replace (length (chapters st) + 1 + j) with (length (chapters st) + S j) by lia.
      * intros [|j] Hj.
        -- unfold plan_key. rewrite Nat.add_0_r, Hget. simpl. rewrite Hkey. eauto.
        -- replace (length (chapters st) + S j) with (length (chapters st) + 1 + j) by lia.
           apply Hkeys. lia.
      * by constructor.
Qed.

(** *** The stages from the chapter plan on *)

Lemma first_block text :
  lit "Chapter 1:" ++ nl ++ text ++ nl = chapter_blocks 1 [text].
Proof. cbn [chapter_blocks]. by rewrite (right_id_L [] (++)). Qed.

Lemma chapters_post budget bookTitle storyline plan numChapters writingStyle w :
  post (writeFantasyNovel_chapters E budget bookTitle storyline plan numChapters
          writingStyle) w
    (chapters_result E bookTitle storyline plan numChapters writingStyle w).
Proof.
  unfold writeFantasyNovel_chapters. apply post_bind, post_or_TypeError.
  destruct (js_get plan 0) as [first|] eqn:Hget.
  2:{ exists [], 0, [], []. rewrite take_0. cbn [take chapter_requests drop].
      rewrite ?(right_id_L [] (++)). done. }
  cbn beta iota. apply post_bind.
  unfold writeFirstChapter. apply post_bind, post_or_TypeError.
  destruct (ToString first) as [shown|] eqn:Hshown.
  2:{ exists [], 0, [], []. rewrite take_0. cbn [take chapter_requests drop].
      rewrite ?(right_id_L [] (++)). done. }
  cbn beta iota. apply post_bind, post_callOllama.
  assert (∀ d, take 1 (first_chapter_requests E storyline plan writingStyle d)
               = [ollama_request E (firstChapterPrompt storyline shown writingStyle)])
    as Htake1.
  { intros d. unfold first_chapter_requests.
    by rewrite (plan_entry_get _ _ _ Hget), Hshown. }
  assert (∀ d, take 2 (first_chapter_requests E storyline plan writingStyle d)
               = [ollama_request E (firstChapterPrompt storyline shown writingStyle);
                  ollama_request E (improveChapterPrompt storyline d writingStyle)])
    as Htake2.
  { intros d. unfold first_chapter_requests.
    by rewrite (plan_entry_get _ _ _ Hget), Hshown. }
  match goal with
  | |- context [reply_outcome ?r] =>
      destruct (reply_outcome r) as [firstDraft|e|] eqn:Hr1
  end.
  2,3: by (exists [], 1, [], []; rewrite Htake1; cbn [take chapter_requests drop];
           rewrite ?(right_id_L [] (++))).
  apply post_callOllama.
  match goal with
  | |- context [reply_outcome ?r] =>
      destruct (reply_outcome r) as [firstChapter|e|] eqn:Hr2
  end.
  2,3: by (exists firstDraft, 2, [], []; rewrite Htake2;
           cbn [take chapter_requests drop log_request sent disk];
           rewrite ?(right_id_L [] (++)), <-?(assoc_L (++))).
  apply post_bind, post_or_TypeError.
  destruct (first_key first) as [key|] eqn:Hkey.
  2:{ exists firstDraft, 2, [], []; rewrite Htake2;
        cbn [take chapter_requests drop log_request sent disk];
        rewrite ?(right_id_L [] (++)), <-?(assoc_L (++)). done. }
  cbn beta iota.
  set (st0 := {| novel := _ |}).
  change 1 with (length (chapters st0)) at 1.
  eapply post_mono; [apply loop_post|].
  { subst st0. cbn [novel chapters]. unfold manuscript.
    rewrite <-first_block. by rewrite <-!(assoc_L (++)). }
  intros out w' (texts & attempts & Hs & Hd & HR).
  exists firstDraft, 2, (firstChapter :: texts), attempts. rewrite Htake2.
  cbn [take drop log_request sent disk chapters] in *. split_and!.
  - rewrite Hs. by rewrite <-!(assoc_L (++)).
  - done.
  - intros r Hr. destruct (HR r Hr) as (Hl & Ht & Hc & Hn & Ho & Hkeys & Hlong).
    cbn [length] in *. split_and!; try done.
    + simpl. lia.
    + by rewrite Hn, Hc.
    + rewrite Ho. unfold chapter_records. cbn [imap app]. f_equal.
      unfold plan_key. rewrite Hget. simpl. by rewrite Hkey.
    + intros [|j] Hj.
      * unfold plan_key. rewrite Hget. simpl. rewrite Hkey. eauto.
      * apply (Hkeys j). lia.
Qed.

(** *** Failing fast *)

Lemma clean_log req w :
  clean E w → failure (svc E (length (sent w)) req) = None → clean E (log_request req w).
Proof.
  intros Hw Hreq j r. cbn [log_request sent]. intros Hj.
  apply lookup_app_Some in Hj as [Hj|[Hl Hj]]; [by apply Hw|].
  apply list_lookup_singleton_Some in Hj as [Hj <-].
  by replace j with (length (sent w)) by lia.
Qed.

Lemma failed_last_log req e w :
  clean E w → failure (svc E (length (sent w)) req) = Some e →
  failed_last E (log_request req w) e.
Proof. intros Hw Hreq. by exists (sent w), req. Qed.

Lemma fail_fast_ret {A} (a : A) : fail_fast E (mret a).
Proof. intros w Hw. apply post_ret. auto. Qed.

Lemma fail_fast_or_TypeError {A} (o : option A) : fail_fast E (or_TypeError o).
Proof. intros w Hw. apply post_or_TypeError. destruct o; auto. Qed.

Lemma fail_fast_diverge {A} : fail_fast E (@diverge A).
Proof. intros w Hw. unfold post. simpl. auto. Qed.

Lemma fail_fast_bind {A B} (m : M A) (f : A → M B) :
  fail_fast E m → (∀ a, fail_fast E (f a)) → fail_fast E (m ≫= f).
Proof.
  intros Hm Hf w Hw. apply post_bind. eapply post_mono; [by apply Hm|].
  intros [a|e|] w1 [Hd Hc]; cbn beta iota.
  - destruct Hc as [Hc|(e & ? & _)]; [|done].
    eapply post_mono; [by apply Hf|]. intros out w' [Hd' Hc']. split; [congruence | done].
  - split; [done|]. destruct Hc as [Hc|(e' & He & Hfl)]; [by left|].
    right. exists e'. by injection He as ->.
  - split; [done|]. destruct Hc as [Hc|(e' & He & Hfl)]; [by left | done].
Qed.

Lemma fail_fast_callOllama prompt : fail_fast E (callOllama E prompt).
Proof.
  intros w Hw. apply post_callOllama. split; [done|].
  destruct (failure (svc E (length (sent w)) (ollama_request E prompt))) as [e|] eqn:Hf.
  - right. exists e. split; [by apply reply_outcome_Throw | by apply failed_last_log].
  - left. by apply clean_log.
Qed.

Lemma fail_fast_writeChapter budget previousChapters plot chapterTitle :
  fail_fast E (writeChapter E budget previousChapters plot chapterTitle).
Proof.
  induction budget as [|budget IH]; cbn [writeChapter].
  - apply fail_fast_diverge.
  - apply fail_fast_bind; [apply fail_fast_or_TypeError|]. intros _.
    apply fail_fast_bind; [apply fail_fast_callOllama|]. intros response.
    destruct (length response <? 1000); [done | apply fail_fast_ret].
Qed.

Lemma fail_fast_chapter_loop budget plan storyline count i st :
  fail_fast E (chapter_loop E budget plan storyline count i st).
Proof.
  revert i st. induction count as [|count IH]; intros i st; cbn [chapter_loop].
  - apply fail_fast_ret.
  - apply fail_fast_bind; [apply fail_fast_or_TypeError|]. intros entry.
    apply fail_fast_bind; [apply fail_fast_writeChapter|]. intros chapter.
    apply fail_fast_bind; [apply fail_fast_or_TypeError|]. intros key. apply IH.
Qed.

Lemma fail_fast_storyline prompt numChapters :
  fail_fast E (writeFantasyNovel_storyline E prompt numChapters).
Proof.
  unfold writeFantasyNovel_storyline, generatePlots, selectMostEngaging, improvePlot,
    getTitle, generateStoryline.
  repeat first
    [ apply fail_fast_callOllama | apply fail_fast_ret
    | apply fail_fast_bind; [|intros ?] ].
Qed.

Lemma fail_fast_chapters budget bookTitle storyline plan numChapters writingStyle :
  fail_fast E (writeFantasyNovel_chapters E budget bookTitle storyline plan numChapters
                 writingStyle).
Proof.
  unfold writeFantasyNovel_chapters, writeFirstChapter.
  repeat first
    [ apply fail_fast_callOllama | apply fail_fast_or_TypeError
    | apply fail_fast_chapter_loop
    | apply fail_fast_bind; [|intros ?] ].
Qed.

Lemma fail_fast_writeFantasyNovel budget prompt numChapters writingStyle :
  fail_fast E (writeFantasyNovel E budget prompt numChapters writingStyle).
Proof.
  unfold writeFantasyNovel. apply fail_fast_bind; [apply fail_fast_storyline|].
  intros [bookTitle storyline]. apply fail_fast_chapters.
Qed.

(** A request that failed in a run that fails fast is the last one, and
    its error is the outcome. *)
Lemma failed_request_last {A} w (o : outcome A) j req e :
  (clean E w ∨ ∃ e', o = Throw e' ∧ failed_last E w e') →
  sent w !! j = Some req → failure (svc E j req) = Some e →
  o = Throw e ∧ length (sent w) = S j.
Proof.
  intros [Hc|(e' & -> & reqs & r & Hs & Hf & Hclean)] Hj He.
  - rewrite (Hc j req Hj) in He. done.
  - rewrite Hs in Hj. apply lookup_app_Some in Hj as [Hj|[Hl Hj]].
    + rewrite (Hclean j req Hj) in He. done.
    + apply list_lookup_singleton_Some in Hj as [Hj <-].
      replace j with (length reqs) in * by lia.
      rewrite Hs, length_app. simpl. split; [congruence | lia].
Qed.

(** The run of the [try] block of the main function, from the run of
    [writeFantasyNovel]. *)
Lemma main_try_run budget prompt numChapters writingStyle w :
  main_try E budget prompt numChapters writingStyle w =
    match writeFantasyNovel E budget prompt numChapters writingStyle w with
    | (Ret r, w1) =>
        let d1 := disk w1 ++ [prompt_file E prompt (novel r)] in
        let d2 := d1 ++ [cover_file E] in
        let s1 := sent w1 ++ [cover_request E r] in
        if accepts E (disk w1) (prompt_file E prompt (novel r)) then
          match failure (svc E (length (sent w1)) (cover_request E r)) with
          | Some e => (Throw e, {| sent := s1; disk := d1 |})
          | None =>
              if accepts E d1 (cover_file E) then
                if accepts E d2 (epub_file E r)
                then (Ret (), {| sent := s1; disk := d2 ++ [epub_file E r] |})
                else (Throw IOError, {| sent := s1; disk := d2 |})
              else (Throw IOError, {| sent := s1; disk := d1 |})
          end
        else (Throw IOError, w1)
    | (Throw e, w1) => (Throw e, w1)
    | (Diverge, w1) => (Diverge, w1)
    end.
Proof.
  unfold main_try. rewrite bind_run.
  destruct (writeFantasyNovel E budget prompt numChapters writingStyle w)
    as [[r|e|] w1]; [|done..].
  cbn zeta. rewrite bind_run. unfold writeToFile, write at 1.
  fold (prompt_file E prompt (novel r)).
  destruct (accepts E (disk w1) (prompt_file E prompt (novel r))); [|done].
  unfold createCoverImage, generateCoverPrompt.
  rewrite !bind_run, callOllama_run.
  fold (coverPrompt (template_hole (JSON_stringify (VArr (chapterObjects r))))).
  fold (cover_request E r). cbn [log_request sent disk].
  destruct (failure (svc E (length (sent w1)) (cover_request E r))) as [e|] eqn:Hf.
  { by rewrite (proj2 (reply_outcome_Throw _ _) Hf). }
  apply failure_reply_text in Hf as [t Ht].
  rewrite (proj2 (reply_outcome_Ret _ _) (ex_intro _ t (conj Ht eq_refl))).
  unfold createEpub, write. cbv [mbind M_bind mret M_ret]. cbn [sent disk].
  fold (cover_path E). fold (cover_file E).
  destruct (accepts E _ (cover_file E)); [|done].
  cbn [sent disk]. fold (epub_file E r).
  by destruct (accepts E _ (epub_file E r)).
Qed.

Lemma main_try_failure budget prompt numChapters writingStyle w out w' j req e :
  clean E w →
  main_try E budget prompt numChapters writingStyle w = (out, w') →
  sent w' !! j = Some req → failure (svc E j req) = Some e →
  out = Throw e ∧ length (sent w') = S j ∧
  match writeFantasyNovel E budget prompt numChapters writingStyle w with
  | (Ret r, _) => disk w' = disk w ++ [prompt_file E prompt (novel r)]
  | _ => disk w' = disk w
  end.
Proof.
  intros Hw Hrun Hj He.
  pose proof (fail_fast_writeFantasyNovel budget prompt numChapters writingStyle w Hw)
    as Hff.
  unfold post in Hff. rewrite main_try_run in Hrun.
  destruct (writeFantasyNovel E budget prompt numChapters writingStyle w)
    as [[r|e1|] w1] eqn:Hnovel; cbn [fst snd] in Hff; destruct Hff as [Hd Hc].
  - destruct Hc as [Hc|(? & ? & _)]; [|done]. cbn zeta in Hrun.
    set (creq := cover_request E r) in *.
    destruct (accepts E (disk w1) (prompt_file E prompt (novel r))).
    2:{ injection Hrun as <- <-. rewrite (Hc j req Hj) in He. done. }
    destruct (failure (svc E (length (sent w1)) creq)) as [e2|] eqn:Hf.
    + injection Hrun as <- <-.
      destruct (failed_request_last (log_request creq w1) (@Throw () e2) j req e)
        as [Ho Hl]; try done.
      { right. exists e2. split; [done|]. by apply failed_last_log. }
      split_and!; [done..|]. cbn [disk]. by rewrite Hd.
    + assert (clean E (log_request creq w1)) as Hc3 by by apply clean_log.
      assert (sent w' = sent (log_request creq w1)) as Hs.
      { repeat match type of Hrun with
               | (if ?b then _ else _) = _ => destruct b
               end; by injection Hrun as <- <-. }
      rewrite Hs in Hj. rewrite (Hc3 j req Hj) in He. done.
  - injection Hrun as <- <-.
    destruct (failed_request_last w1 _ j req e Hc Hj He) as [Ho Hl].
    by injection Ho as ->.
  - injection Hrun as <- <-.
    by destruct (failed_request_last w1 _ j req e Hc Hj He) as [Ho Hl].
Qed.

(** *** Liveness *)



Lemma world_eq (w w' : World) : sent w = sent w' → disk w = disk w' → w = w'.
Proof. destruct w, w'. simpl. by intros -> ->. Qed.

(** With enough budget, [writeChapter] returns the first long reply. *)
Lemma writeChapter_returns budget previousChapters plot chapterTitle w k :
  let req := ollama_request E (chapterPrompt previousChapters plot chapterTitle) in
  ∀ t,
  is_Some (Object_keys chapterTitle) →
  reply_text (svc E (length (sent w) + k) req) = Some t →
  1000 ≤ length (parseOllamaResponse t) →
  (∀ j, j < k → short_reply (svc E (length (sent w) + j) req)) →
  k < budget →
  writeChapter E budget previousChapters plot chapterTitle w =
    (Ret (parseOllamaResponse t),
     {| sent := sent w ++ replicate (S k) req; disk := disk w |}).
Proof.
  intros req t Hkeys Hreply Hlength Hshort Hbudget.
  assert (long_reply (svc E (length (sent w) + k) req)) as Hlong by by exists t.
  pose proof (writeChapter_post budget previousChapters plot chapterTitle w) as Hpost.
  unfold post in Hpost.
  destruct (writeChapter E budget previousChapters plot chapterTitle w) as [out w'].
  destruct Hpost as (k2 & Hs & Hd & Hk2 & Hsh2 & Hout). fold req in Hs, Hsh2, Hout.
  cbn [fst snd] in *.
  destruct out as [text|e|].
  - destruct Hout as (k' & t' & -> & Ht & -> & Hlen).
    assert (k = k') as <-.
    { destruct (lt_eq_lt_dec k k') as [[Hlt|Heq]|Hgt]; [|done|].
      - exfalso. eapply long_not_short; [done|]. apply Hsh2. lia.
      - exfalso. eapply long_not_short; [|by apply Hshort]. by exists t'. }
    assert (t' = t) as -> by congruence.
    f_equal. by apply world_eq.
  - destruct Hout as [(-> & Hkeyed & _)|(k' & -> & Hf)].
    + apply bool_decide_eq_false in Hkeyed. done.
    + exfalso. destruct (decide (k' ≤ k)) as [Hle|Hgt].
      * destruct (decide (k' = k)) as [->|Hne].
        -- by rewrite (long_no_failure _ Hlong) in Hf.
        -- rewrite (short_no_failure (svc E (length (sent w) + k') req)) in Hf; [done|].
           apply Hshort. lia.
      * eapply long_not_short; [done|]. apply Hsh2. lia.
  - destruct Hout as [-> Hall]. exfalso.
    eapply long_not_short; [done|]. by apply Hall.
Qed.


Lemma callOllama_succeeds prompt w :
  all_succeed E →
  ∃ text, callOllama E prompt w = (Ret text, log_request (ollama_request E prompt) w).
Proof.
  intros Hall. rewrite callOllama_run.
  destruct (proj1 (failure_reply_text _)
              (Hall (length (sent w)) (ollama_request E prompt))) as [t Ht].
  exists (parseOllamaResponse t). f_equal. apply reply_outcome_Ret. eauto.
Qed.



Ltac step_call Hall :=
  rewrite ?bind_run;
  match goal with
  | |- context [callOllama E ?p ?w] =>
      let text := fresh "text" in
      destruct (callOllama_succeeds p w Hall) as [text ->]
  end;
  cbn beta iota; cbn [mret M_ret].

Lemma storyline_live prompt numChapters w :
  all_succeed E →
  ∃ bookTitle storyline w1,
    writeFantasyNovel_storyline E prompt numChapters w = (Ret (bookTitle, storyline), w1).
Proof.
  intros Hall.
  unfold writeFantasyNovel_storyline, generatePlots, selectMostEngaging, improvePlot,
    getTitle, generateStoryline.
  do 6 step_call Hall. rewrite ?bind_run. cbn beta iota. eauto.
Qed.


(** The requests of the chapters after the first, one by one. *)
Lemma chapter_requests_elem storyline plan done texts attempts req :
  req ∈ chapter_requests E storyline plan done texts attempts →
  ∃ i, i < length texts ∧
    req = ollama_request E
            (chapterPrompt (manuscript storyline (done ++ take i texts)) storyline
               (plan_entry plan (length done + i))).
Proof.
  revert done attempts.
  induction texts as [|t texts IH]; intros done [|a attempts]; cbn [chapter_requests];
    try (by intros ?%elem_of_nil).
  intros [Hin|Hin]%elem_of_app.
  - apply elem_of_replicate in Hin as [-> _]. exists 0. split; [simpl; lia|].
    by rewrite take_0, (right_id_L [] (++)), Nat.add_0_r.
  - apply IH in Hin as (i & Hi & ->). exists (S i). split; [simpl; lia|].
    rewrite length_app, <-(assoc_L (++)). cbn [length take app].
    by replace (length done + 1 + i) with (length done + S i) by lia.
Qed.
End RunLemmas.


(** ** The fallback plan *)

Lemma lit_inj s1 s2 : lit s1 = lit s2 → s1 = s2.
Proof.
  unfold lit. intros Hl.
  assert (String.list_ascii_of_string s1 = String.list_ascii_of_string s2) as Ha.
  { revert Hl. generalize (String.list_ascii_of_string s1) as l1.
    generalize (String.list_ascii_of_string s2) as l2.
    induction l2 as [|a2 l2 IH]; intros [|a1 l1]; simpl; try done.
    intros [= Ha Hl]. f_equal; [|by apply IH].
    by rewrite <-(Ascii.ascii_N_embedding a1), Ha, Ascii.ascii_N_embedding. }
  by rewrite <-(String.string_of_list_ascii_of_string s1), Ha,
    String.string_of_list_ascii_of_string.
Qed.

Lemma dec_inj i j : dec i = dec j → i = j.
Proof.
  unfold dec, dec_Z. intros Hd%lit_inj.
  apply Nat2Z.inj. apply DecimalZ.to_int_inj.
  assert (Some (Z.to_int (Z.of_nat i)) = Some (Z.to_int (Z.of_nat j))) as [= ->]; [|done].
  by rewrite <-!DecimalString.NilEmpty.isi, Hd.
Qed.

Lemma fallback_key_inj i j : fallback_key i = fallback_key j → i = j.
Proof. unfold fallback_key. intros Hk%app_inv_head%app_inv_tail. by apply dec_inj. Qed.

Lemma fallbackPlan_lookup numChapters j :
  j < Z.to_nat numChapters →
  js_get (fallbackPlan numChapters) j = Some (fallback_entry (j + 1)).
Proof.
  intros Hj. unfold fallbackPlan, js_get. rewrite list_lookup_fmap.
  by rewrite lookup_seq_lt.
Qed.



Lemma fallbackPlan_key numChapters j :
  j < Z.to_nat numChapters →
  plan_key (fallbackPlan numChapters) j = Some (fallback_key (j + 1)).
Proof. intros Hj. unfold plan_key. by rewrite fallbackPlan_lookup. Qed.

(** ** Scripted services *)

Lemma clean_init (E : Env) : clean E init.
Proof. intros j req Hj. done. Qed.

Lemma scripted_all_succeed script otherwise :
  Forall (λ r, failure r = None) script → failure otherwise = None →
  all_succeed (default_env (scripted script otherwise)).
Proof.
  intros Hscript Hother n req. unfold default_env, scripted. cbn [svc].
  destruct (script !! n) as [r|] eqn:Hr; simpl; [|done].
  by eapply (proj1 (Forall_lookup _ _) Hscript).
Qed.


Lemma long_text_reply : long_reply (ok_reply long_text).
Proof. exists long_text. split; [done|]. vm_compute. lia. Qed.

(** ** A service whose replies are all short *)

Section AllShort.
Context `{Builtins} (E : Env).
Hypothesis Hshort : ∀ n req, short_reply (svc E n req).



End AllShort.

(** ** The escapes of [JSON.stringify] *)

Lemma hex_value_digit n : (n < 16)%N → Ref.hex_value (hex_digit n) = Some n.
Proof.
  intros Hn. unfold Ref.hex_value, hex_digit, Ref.is_digit.
  destruct (N.ltb_spec n 10).
  - rewrite (proj2 (N.leb_le 48 (48 + n))), (proj2 (N.leb_le (48 + n) 57)) by lia.
    simpl. f_equal. lia.
  - rewrite (proj2 (N.leb_gt (87 + n) 57)) by lia. rewrite andb_false_r.
    rewrite (proj2 (N.leb_gt (87 + n) 70)) by lia. rewrite andb_false_r.
    rewrite (proj2 (N.leb_le 97 (87 + n))), (proj2 (N.leb_le (87 + n) 102)) by lia.
    simpl. f_equal. lia.
Qed.

(** The four digits of an escape are those of the code unit. *)
Lemma unicode_escape_hex c :
  (c < 65536)%N →
  ∃ x y z t, unicode_escape c = lit "\u" ++ [x; y; z; t] ∧ Ref.hex4 x y z t = Some c.
Proof.
  intros Hc. eexists _, _, _, _. split; [reflexivity|].
  unfold Ref.hex4.
  rewrite !hex_value_digit by (apply N.mod_lt; lia). cbn [mbind option_bind]. f_equal.
  pose proof (N.div_mod c 16 ltac:(lia)).
  pose proof (N.div_mod (c / 16) 16 ltac:(lia)).
  pose proof (N.div_mod (c / 256) 16 ltac:(lia)).
  assert (c / 256 = c / 16 / 16)%N as H256 by (rewrite N.Div0.div_div; done).
  assert (c / 4096 = c / 256 / 16)%N as H4096 by (rewrite N.Div0.div_div; done).
  assert (c / 4096 < 16)%N by (apply N.Div0.div_lt_upper_bound; lia).
  rewrite (N.mod_small (c / 4096)) by done.
  rewrite H4096, H256 in *. lia.
Qed.

(** A control character, a line feed, a surrogate that stands alone and
    a pair of surrogates, as [JSON.stringify] prints them. *)
Lemma QuoteJSONString_escapes :
  QuoteJSONString [27; 10; 55296; 55357; 56832; 31]%N
  = dq ++ lit "\u001b\n\ud800" ++ [55357; 56832]%N ++ lit "\u001f" ++ dq.
Proof. reflexivity. Qed.


(** * The claims *)

(** C3. When [JSON.parse] throws on the storyline, the plan that is used
    is the fallback: an array of exactly [numChapters] entries (none when
    the count is negative) whose entry [i], for [i] from 1 to
    [numChapters], is the single-key object with the key
    ["Chapter i - Untitled"] and the overview ["This is chapter i"]. *)
Theorem fallback_plan_shape `{Builtins} (storyline : str) (numChapters : Z) :
  JSON_parse storyline = None →
  ∃ entries,
    parse_storyline storyline numChapters = VArr entries ∧
    Z.of_nat (length entries) = Z.max 0 numChapters ∧
    ∀ i, 1 ≤ i ≤ length entries →
      entries !! (i - 1) =
        Some (VObj [(lit "Chapter " ++ dec i ++ lit " - Untitled",
                     VStr (lit "This is chapter " ++ dec i))]).
Proof.
  intros Hparse. unfold parse_storyline. rewrite Hparse. unfold fallbackPlan.
  eexists. split; [done|]. rewrite length_fmap, length_seq. split; [lia|].
  intros i Hi. rewrite list_lookup_fmap, lookup_seq_lt by lia. simpl.
  by replace (i - 1 + 1) with i by lia.
Qed.

Lemma fallback_plan_shape_witness :
  ∃ entries,
    @parse_storyline Ref.builtins (lit "Once upon a time") 3 = VArr entries ∧
    Z.of_nat (length entries) = Z.max 0 3 ∧
    ∀ i, 1 ≤ i ≤ length entries →
      entries !! (i - 1) =
        Some (VObj [(lit "Chapter " ++ dec i ++ lit " - Untitled",
                     VStr (lit "This is chapter " ++ dec i))]).
Proof.
  apply (@fallback_plan_shape Ref.builtins (lit "Once upon a time") 3).
  vm_compute. reflexivity.
Defined.

(** C7, as amended. [extractJsonFromMarkdown] returns a text without a
    fenced block tagged [json] unchanged; for a text with such a block it
    returns the interior of the first one, trimmed, unless that is empty,
    in which case it returns the text unchanged; and applying it twice is
    applying it once. *)
Theorem extractJsonFromMarkdown_spec (text : str) :
  extractJsonFromMarkdown text =
    match first_json_fence text with
    | None => text
    | Some interior => if is_nil (trim interior) then text else trim interior
    end
  ∧ extractJsonFromMarkdown (extractJsonFromMarkdown text) = extractJsonFromMarkdown text.
Proof.
  split.
  - rewrite extractJsonFromMarkdown_closed. by destruct (first_json_fence text).
  - apply extractJsonFromMarkdown_idemp.
Qed.

(** C7, as stated, fails on a fence with an empty interior: the text has
    exactly one fenced block tagged [json], its interior trimmed is the
    empty string, and the function returns the whole text. *)
Lemma extractJsonFromMarkdown_empty_fence :
  let text := lit "```json ```" in
  first_json_fence text = Some (lit " ") ∧
  trim (lit " ") = [] ∧
  extractJsonFromMarkdown text = text ∧
  extractJsonFromMarkdown text ≠ trim (lit " ").
Proof. vm_compute. by split_and!. Qed.

(** C6, as amended. When the text that is left after the removal of the
    segments holds no opening tag that is closed later, which is the case
    of an input without a closed segment, [parseOllamaResponse] returns the
    input with every segment removed, in order, and trimmed; applying it
    again changes nothing; and an input without a segment is returned
    unchanged after trimming. An opening tag that is never closed does no
    harm. The condition is exact: when the text that is left holds a
    closed segment, the function does not remove the segments in order or
    is not idempotent. *)
Theorem parseOllamaResponse_strips (s : str) :
  (has_think_segment (strip_think s) = false →
   parseOllamaResponse s = trim (strip_think s)
   ∧ parseOllamaResponse (parseOllamaResponse s) = parseOllamaResponse s
   ∧ (has_think_segment s = false → parseOllamaResponse s = trim s))
  ∧
  (has_think_segment (strip_think s) = true →
   ¬ (parseOllamaResponse s = trim (strip_think s)
      ∧ parseOllamaResponse (parseOllamaResponse s) = parseOllamaResponse s)).
Proof.
  split.
  - intros Hs. pose proof (parseOllamaResponse_exact s Hs) as Hexact. split_and!.
    + done.
    + rewrite Hexact. rewrite parseOllamaResponse_no_segment; [apply trim_idemp|].
      destruct (trim_infix (strip_think s)) as (l & r & Hlr). rewrite Hlr in Hs.
      by apply has_think_segment_infix in Hs.
    + apply parseOllamaResponse_no_segment.
  - intros Hs [Hexact Hidem]. rewrite Hexact in Hidem.
    pose proof (parseOllamaResponse_shorter _ (has_think_segment_trim _ Hs)) as Hlt.
    rewrite Hidem in Hlt. lia.
Qed.

Lemma parseOllamaResponse_strips_witness :
  (let s := lit "  <think>plan</think> Hello <think>more</think>world <think> again " in
   parseOllamaResponse s = trim (strip_think s)
   ∧ parseOllamaResponse (parseOllamaResponse s) = parseOllamaResponse s
   ∧ (has_think_segment s = false → parseOllamaResponse s = trim s))
  ∧
  (let s := lit "<th<think>x</think>ink>y</think>" in
   ¬ (parseOllamaResponse s = trim (strip_think s)
      ∧ parseOllamaResponse (parseOllamaResponse s) = parseOllamaResponse s)).
Proof.
  split.
  - apply (proj1 (parseOllamaResponse_strips
             (lit "  <think>plan</think> Hello <think>more</think>world <think> again "))).
    vm_compute. reflexivity.
  - apply (proj2 (parseOllamaResponse_strips (lit "<th<think>x</think>ink>y</think>"))).
    vm_compute. reflexivity.
Defined.

(** C6, as stated, fails: a segment inside a broken tag leaves a segment
    behind, so the function is not idempotent; and the deletion of the
    first occurrence of a matched text can delete another copy of it, so
    the text that is left is not in the order of the input. *)
Lemma parseOllamaResponse_not_idempotent :
  (let s := lit "<th<think>x</think>ink>y</think>" in
   parseOllamaResponse s = lit "<think>y</think>" ∧
   parseOllamaResponse (parseOllamaResponse s) = [] ∧
   parseOllamaResponse (parseOllamaResponse s) ≠ parseOllamaResponse s)
  ∧
  (let s := lit "<th<think>1</think>ink>a</think>x<think>a</think>" in
   trim (strip_think s) = lit "<think>a</think>x" ∧
   parseOllamaResponse s = lit "x<think>a</think>" ∧
   parseOllamaResponse s ≠ trim (strip_think s)).
Proof. vm_compute. by split_and!. Qed.

(** C5. A call of [writeChapter] that returns, returns a response of at
    least 1000 characters: it has sent the same request again and again,
    every response before the last was shorter and was dropped, and the
    value returned is the first response that is long enough. There is no
    bound on the attempts: after any number [k] of short responses the
    call returns the next long one, whenever the budget of the model
    allows [k + 1] calls. In a run that completes, every chapter after the
    first is that long, and the records hold the chapters returned. *)
Theorem writeChapter_first_long_response `{Builtins} (E : Env) (budget : nat)
    (previousChapters plot : str) (chapterTitle : value) (w : World) :
  let req := ollama_request E (chapterPrompt previousChapters plot chapterTitle) in
  let n := length (sent w) in
  (∀ text w',
     writeChapter E budget previousChapters plot chapterTitle w = (Ret text, w') →
     1000 ≤ length text ∧
     ∃ k t, sent w' = sent w ++ replicate (S k) req ∧ disk w' = disk w ∧
       (∀ j, j < k → short_reply (svc E (n + j) req)) ∧
       reply_text (svc E (n + k) req) = Some t ∧ text = parseOllamaResponse t)
  ∧
  (∀ k t,
     is_Some (Object_keys chapterTitle) →
     (∀ j, j < k → short_reply (svc E (n + j) req)) →
     reply_text (svc E (n + k) req) = Some t →
     1000 ≤ length (parseOllamaResponse t) →
     k < budget →
     writeChapter E budget previousChapters plot chapterTitle w =
       (Ret (parseOllamaResponse t),
        {| sent := sent w ++ replicate (S k) req; disk := disk w |}))
  ∧
  (∀ bookTitle storyline plan numChapters writingStyle r w',
     writeFantasyNovel_chapters E budget bookTitle storyline plan numChapters
       writingStyle w = (Ret r, w') →
     Forall (λ t, 1000 ≤ length t) (drop 1 (chapters r)) ∧
     chapterObjects r = chapter_records plan (chapters r)).
Proof.
  intros req n. split_and!.
  - intros text w' Hrun.
    pose proof (post_run _ _ _ _ _
                  (writeChapter_post E budget previousChapters plot chapterTitle w) Hrun)
      as (k & Hs & Hd & _ & Hshort & k' & t & -> & Ht & -> & Hlen).
    split; [done|]. exists k', t. split_and!; try done.
    intros j Hj. apply Hshort. lia.
  - intros k t Hkeys Hshort Ht Hlen Hk. by apply writeChapter_returns.
  - intros bookTitle storyline plan numChapters writingStyle r w' Hrun.
    pose proof (post_run _ _ _ _ _
                  (chapters_post E budget bookTitle storyline plan numChapters
                     writingStyle w) Hrun)
      as (d & c & texts & attempts & _ & _ & HR).
    destruct (HR r eq_refl) as (_ & _ & -> & _ & _ & -> & _ & Hlong). done.
Qed.

Lemma writeChapter_first_long_response_witness :
  let E := default_env (scripted [ok_reply (lit "too short")] (ok_reply long_text)) in
  let req := @ollama_request E
               (@chapterPrompt Ref.builtins (lit "so far") (lit "plot") (fallback_entry 2)) in
  @writeChapter Ref.builtins E 2 (lit "so far") (lit "plot") (fallback_entry 2) init =
    (Ret (parseOllamaResponse long_text),
     {| sent := sent init ++ replicate 2 req; disk := disk init |}).
Proof.
  intros E req.
  apply (proj1 (proj2 (@writeChapter_first_long_response Ref.builtins E 2
                         (lit "so far") (lit "plot") (fallback_entry 2) init))
           1 long_text).
  - by eexists.
  - intros [|j] Hj; [|lia]. exists (lit "too short"). split; [reflexivity|].
    vm_compute. lia.
  - reflexivity.
  - vm_compute. lia.
  - lia.
Defined.

(** C8. In every run of the stages that follow the chapter plan, every
    request for a chapter after the first holds, after the plot and the
    words [Previous Chapters:], the manuscript so far, which is
    ["Storyline:\n" + storyline + "\n\n"] followed by one block
    ["Chapter i:\n" + text + "\n"] per chapter completed before, in order;
    the manuscript returned has this form for all the chapters; and the
    loop keeps the manuscript in this form after any number of rounds. *)
Theorem manuscript_invariant `{Builtins} (E : Env) (budget : nat)
    (bookTitle storyline : str) (plan : value) (numChapters : Z)
    (writingStyle : str) (w : World) :
  (let '(out, w') :=
     writeFantasyNovel_chapters E budget bookTitle storyline plan numChapters
       writingStyle w in
   ∃ firstDraft sent_first texts attempts,
     sent w' =
       sent w
       ++ take sent_first (first_chapter_requests E storyline plan writingStyle firstDraft)
       ++ chapter_requests E storyline plan (take 1 texts) (drop 1 texts) attempts ∧
     (∀ req,
        req ∈ chapter_requests E storyline plan (take 1 texts) (drop 1 texts) attempts →
        ∃ k, 0 < k < length texts ∧
          req =
            {| model := ollamaModel E;
               prompt :=
                 (if is_nil (language E) then []
                  else lit "Respond in the language " ++ language E ++ lit ". ")
                 ++ lit "You are a world-class fantasy writer."
                 ++ para ++ lit "Plot: " ++ storyline
                 ++ nl ++ lit "  Previous Chapters: "
                 ++ (lit "Storyline:" ++ nl ++ storyline ++ nl ++ nl
                     ++ chapter_blocks 1 (take k texts))
                 ++ para ++ lit "Write the next chapter of this novel, following the plot and taking in the previous chapters as context. Here is the plan for this chapter: "
                 ++ default (lit "undefined")
                      (JSON_stringify (default VUndefined (js_get plan k)))
                 ++ para ++ lit "Write it beautifully. Include only the chapter text. There is no need to rewrite the chapter name." |}) ∧
     ∀ r, out = Ret r →
       chapters r = texts ∧
       novel r = lit "Storyline:" ++ nl ++ storyline ++ nl ++ nl ++ chapter_blocks 1 texts)
  ∧
  (∀ rounds st w0 st' w',
     novel st = manuscript storyline (chapters st) →
     chapter_loop E budget plan storyline rounds (length (chapters st)) st w0
       = (Ret st', w') →
     novel st' = manuscript storyline (chapters st') ∧
     length (chapters st') = length (chapters st) + rounds).
Proof.
  split.
  - destruct (writeFantasyNovel_chapters E budget bookTitle storyline plan numChapters
                writingStyle w) as [out w'] eqn:Hrun.
    pose proof (post_run _ _ _ _ _
                  (chapters_post E budget bookTitle storyline plan numChapters
                     writingStyle w) Hrun)
      as (d & c & texts & attempts & Hs & _ & HR).
    exists d, c, texts, attempts. split_and!; [done|..].
    + intros req (i & Hi & ->)%chapter_requests_elem.
      destruct texts as [|t texts]; [simpl in Hi; lia|].
      change (take 1 (t :: texts)) with [t]. change (drop 1 (t :: texts)) with texts in *.
      exists (S i). split; [cbn [length]; lia|]. done.
    + intros r Hr. by destruct (HR r Hr) as (_ & _ & -> & _ & -> & _).
  - intros rounds st w0 st' w' Hinv Hrun.
    pose proof (post_run _ _ _ _ _
                  (loop_post E budget plan storyline rounds st w0 Hinv) Hrun)
      as (texts & attempts & _ & _ & HR).
    destruct (HR st' eq_refl) as (Hl & _ & Hc & Hn & _). split; [done|].
    rewrite Hc, length_app. lia.
Qed.


Lemma manuscript_invariant_witness :
  let E := default_env (scripted [] (ok_reply long_text)) in
  let st := {| novel := manuscript (lit "plot") [lit "one"]; title := lit "T";
               chapters := [lit "one"]; chapterObjects := [] |} in
  let st' := {| novel := manuscript (lit "plot") [lit "one"; long_text];
                title := lit "T"; chapters := [lit "one"; long_text];
                chapterObjects := [single_key_object (fallback_key 2) long_text] |} in
  novel st' = manuscript (lit "plot") (chapters st') ∧
  length (chapters st') = length (chapters st) + 1.
Proof.
  intros E st st'.
  eapply (proj2 (@manuscript_invariant Ref.builtins E 1 (lit "T") (lit "plot")
                   (fallbackPlan 2) 2 (lit "style") init) 1 st init st').
  - reflexivity.
  - vm_compute. reflexivity.
Defined.


Lemma NoDup_fmap_inj_on {A B} (f : A → B) (l : list A) x y :
  NoDup (f <$> l) → x ∈ l → y ∈ l → f x = f y → x = y.
Proof.
  intros Hnd [i Hi]%list_elem_of_lookup [j Hj]%list_elem_of_lookup Hxy.
  assert (i = j) as ->; [|congruence].
  apply (proj1 (NoDup_alt _) Hnd i j (f x)).
  - by rewrite list_lookup_fmap, Hi.
  - by rewrite list_lookup_fmap, Hj, Hxy.
Qed.

(** C2, as amended. For a count of at least 1, a run that completes
    returns exactly [numChapters] records and as many chapters; the
    record [i] is the single-key object that maps the first key of the
    plan entry [i] to the text of the chapter [i], in the order of the
    plan; the keys of the records are distinct whenever the keys of the
    plan entries are, which is the case of the fallback plan. *)
Theorem chapter_records_follow_plan `{Builtins} (E : Env) (budget : nat)
    (prompt : str) (numChapters : Z) (writingStyle : str) (w : World)
    (r : NovelResult) (w' : World) :
  (1 ≤ numChapters)%Z →
  writeFantasyNovel E budget prompt numChapters writingStyle w = (Ret r, w') →
  ∃ bookTitle storyline w1,
    writeFantasyNovel_storyline E prompt numChapters w = (Ret (bookTitle, storyline), w1) ∧
    let plan := parse_storyline storyline numChapters in
    Z.of_nat (length (chapterObjects r)) = numChapters ∧
    length (chapters r) = length (chapterObjects r) ∧
    (∀ i, i < length (chapterObjects r) →
       ∃ key text,
         plan_key plan i = Some key ∧ chapters r !! i = Some text ∧
         chapterObjects r !! i = Some (single_key_object key text)) ∧
    (NoDup ((λ i, plan_key plan i) <$> seq 0 (length (chapterObjects r))) →
     NoDup (record_key <$> chapterObjects r)) ∧
    (JSON_parse storyline = None → NoDup (record_key <$> chapterObjects r)).
Proof.
  intros Hn Hrun. unfold writeFantasyNovel in Hrun. rewrite bind_run in Hrun.
  destruct (writeFantasyNovel_storyline E prompt numChapters w)
    as [[[bookTitle storyline]|e|] w1] eqn:Hstory; [|done..].
  exists bookTitle, storyline, w1. split; [done|]. intros plan.
  pose proof (post_run _ _ _ _ _
                (chapters_post E budget bookTitle storyline plan numChapters
                   writingStyle w1) Hrun)
    as (d & c & texts & attempts & _ & _ & HR).
  destruct (HR r eq_refl) as (_ & _ & Hc & Hl & _ & Ho & Hkeys & _).
  assert (length (chapterObjects r) = length texts) as Hlen.
  { rewrite Ho. unfold chapter_records. by rewrite length_imap. }
  assert (record_key <$> chapterObjects r =
          (λ i, default [] (plan_key plan i)) <$> seq 0 (length texts)) as Hrk.
  { rewrite Ho. unfold chapter_records. rewrite fmap_imap, <-imap_seq_0.
    by apply imap_ext. }
  assert (NoDup ((λ i, plan_key plan i) <$> seq 0 (length (chapterObjects r))) →
          NoDup (record_key <$> chapterObjects r)) as Hdistinct.
  { rewrite Hrk, Hlen. intros Hnd. apply NoDup_fmap_2_strong; [|apply NoDup_seq].
    intros i j Hi%elem_of_seq Hj%elem_of_seq Hij.
    destruct (Hkeys i ltac:(lia)) as [ki Hki], (Hkeys j ltac:(lia)) as [kj Hkj].
    rewrite Hki, Hkj in Hij. simpl in Hij. subst kj.
    eapply (NoDup_fmap_inj_on (λ i, plan_key plan i)); [done|..].
    - apply elem_of_seq. lia.
    - apply elem_of_seq. lia.
    - congruence. }
  split_and!.
  - rewrite Hlen, Hl. lia.
  - by rewrite Hlen, Hc.
  - intros i Hi. rewrite Hlen in Hi. destruct (Hkeys i Hi) as [key Hkey].
    destruct (lookup_lt_is_Some_2 texts i Hi) as [text Htext].
    exists key, text. split_and!; [done|by rewrite Hc|].
    rewrite Ho. unfold chapter_records. rewrite list_lookup_imap, Htext. simpl.
    by rewrite Hkey.
  - done.
  - intros Hparse. apply Hdistinct. subst plan. unfold parse_storyline. rewrite Hparse.
    rewrite Hlen, Hl. apply NoDup_fmap_2_strong; [|apply NoDup_seq].
    intros i j Hi%elem_of_seq Hj%elem_of_seq.
    rewrite !fallbackPlan_key by lia. intros Hk. apply (inj Some) in Hk.
    apply fallback_key_inj in Hk. lia.
Qed.

Lemma chapter_records_follow_plan_witness :
  let E := demo_service plan_same_keys (ok_reply long_text) in
  let run := @writeFantasyNovel Ref.builtins E 1 demo_prompt 2 demo_style init in
  let r := returned empty_result run.1 in
  ∃ bookTitle storyline w1,
    writeFantasyNovel_storyline E demo_prompt 2 init
      = (Ret (bookTitle, storyline), w1) ∧
    let plan := @parse_storyline Ref.builtins storyline 2 in
    Z.of_nat (length (chapterObjects r)) = 2%Z ∧
    length (chapters r) = length (chapterObjects r) ∧
    (∀ i, i < length (chapterObjects r) →
       ∃ key text,
         plan_key plan i = Some key ∧ chapters r !! i = Some text ∧
         chapterObjects r !! i = Some (single_key_object key text)) ∧
    (NoDup ((λ i, plan_key plan i) <$> seq 0 (length (chapterObjects r))) →
     NoDup (record_key <$> chapterObjects r)) ∧
    (Ref.parse storyline = None → NoDup (record_key <$> chapterObjects r)).
Proof.
  intros E run r.
  apply (@chapter_records_follow_plan Ref.builtins E 1 demo_prompt 2 demo_style init
           r run.2).
  - lia.
  - vm_compute. reflexivity.
Defined.

(** C2, as stated, fails on a plan whose entries share a key: the run
    completes and its two records have the same key. *)
Lemma chapter_records_same_key :
  let E := demo_service plan_same_keys (ok_reply long_text) in
  ∃ r w',
    @writeFantasyNovel Ref.builtins E 1 demo_prompt 2 demo_style init = (Ret r, w') ∧
    record_key <$> chapterObjects r = [lit "Chapter 1 - Dawn"; lit "Chapter 1 - Dawn"] ∧
    ¬ NoDup (record_key <$> chapterObjects r).
Proof.
  intros E. eexists _, _. split; [vm_compute; reflexivity|].
  split; [vm_compute; reflexivity|].
  intros Hnd. vm_compute in Hnd. apply NoDup_cons in Hnd as [Hin _].
  apply Hin. left.
Qed.

(** C9, as amended. [callOllama] throws the error of a request that
    fails, and no request that fails is followed by another one: in a run
    of the main block from a state without a failed request, a request
    answered with a transport error, a service error or a body without
    text is the last request of the run, and the run ends with the error
    of that request. When the request was sent by [writeFantasyNovel], no
    file has been written. When it was sent for the caption of the cover,
    after [writeFantasyNovel] returned, the manuscript file has been
    written, and neither the cover nor the e-book. *)
Theorem failed_request_aborts `{Builtins} (E : Env) (budget : nat) (prompt : str)
    (numChapters : Z) (writingStyle : str) (w : World) :
  (∀ text w0 e,
     failure (svc E (length (sent w0)) (ollama_request E text)) = Some e →
     callOllama E text w0 = (Throw e, log_request (ollama_request E text) w0))
  ∧
  (clean E w →
   let '(out, w') := main_try E budget prompt numChapters writingStyle w in
   ∀ j req e,
     sent w' !! j = Some req → failure (svc E j req) = Some e →
     out = Throw e ∧ length (sent w') = S j ∧
     match writeFantasyNovel E budget prompt numChapters writingStyle w with
     | (Ret r, _) => disk w' = disk w ++ [prompt_file E prompt (novel r)]
     | _ => disk w' = disk w
     end).
Proof.
  split.
  - intros text w0 e Hf. rewrite callOllama_run. f_equal. by apply reply_outcome_Throw.
  - intros Hw.
    destruct (main_try E budget prompt numChapters writingStyle w) as [out w'] eqn:Hrun.
    intros j req e. by apply main_try_failure.
Qed.

Lemma failed_request_aborts_witness :
  let E := default_env (scripted [ok_reply (lit "Plot one"); ok_reply (lit "The plot");
                                  Http 503 Undecodable] (ok_reply long_text)) in
  let '(out, w') := @main_try Ref.builtins E 1 demo_prompt 2 demo_style init in
  ∀ j req e,
    sent w' !! j = Some req → failure (svc E j req) = Some e →
    out = Throw e ∧ length (sent w') = S j ∧
    match @writeFantasyNovel Ref.builtins E 1 demo_prompt 2 demo_style init with
    | (Ret r, _) => disk w' = disk init ++ [prompt_file E demo_prompt (novel r)]
    | _ => disk w' = disk init
    end.
Proof.
  intros E.
  apply (proj2 (@failed_request_aborts Ref.builtins E 1 demo_prompt 2 demo_style init)).
  intros j req Hj. vm_compute in Hj. discriminate Hj.
Defined.

(** C9, as stated, fails for the request of the cover caption: it is a
    generation call, the endpoint is unreachable when it is sent, the
    error propagates and the run aborts, but the manuscript file has been
    written before. *)
Lemma cover_caption_error_after_manuscript :
  let E := demo_service plan_one_entry Unreachable in
  ∃ r w1 w' req,
    @writeFantasyNovel Ref.builtins E 1 demo_prompt 1 demo_style init = (Ret r, w1) ∧
    @main_try Ref.builtins E 1 demo_prompt 1 demo_style init = (Throw FetchError, w') ∧
    sent w' !! 8 = Some req ∧ svc E 8 req = Unreachable ∧
    disk w' = [prompt_file E demo_prompt (novel r)].
Proof.
  intros E. eexists _, _, _, _. split_and!.
  - vm_compute; reflexivity.
  - vm_compute; reflexivity.
  - vm_compute; reflexivity.
  - vm_compute; reflexivity.
  - vm_compute; reflexivity.
Qed.








(** * Further properties of the code *)

(** ** The cleaning of a response *)

Lemma rstrip_last s c : last (rstrip s) = Some c → is_ws c = false.
Proof.
  induction s as [|d s IH]; simpl; [done|].
  destruct (is_ws d) eqn:Hd; simpl.
  - destruct (rstrip s) as [|e r] eqn:Hr; simpl; [done|]. apply IH.
  - destruct (rstrip s) as [|e r] eqn:Hr; simpl; [by intros [= <-] | apply IH].
Qed.

(** A trimmed text neither starts nor ends with white space. *)
Lemma trim_ends s c :
  head (trim s) = Some c ∨ last (trim s) = Some c → is_ws c = false.
Proof.
  intros [Hh|Hl].
  - pose proof (rstrip_head _ (drop_ws_head s)) as Hn. fold (trim s) in Hn.
    destruct (trim s); simplify_eq/=. done.
  - by apply rstrip_last in Hl.
Qed.

(** X1. The cleaned response is made of characters of the response, in
    their order: nothing is added and nothing is moved, so it is never
    longer than the response. *)
Theorem parseOllamaResponse_sublist (response : str) :
  parseOllamaResponse response `sublist_of` response
  ∧ length (parseOllamaResponse response) ≤ length response.
Proof.
  assert (parseOllamaResponse response `sublist_of` response) as Hs.
  { unfold parseOllamaResponse. etrans; [apply trim_sublist | apply think_loop_sublist]. }
  split; [done | by apply sublist_length].
Qed.

(** X2. The cleaned response neither starts nor ends with white space,
    and trimming it again changes nothing. *)
Theorem parseOllamaResponse_trimmed (response : str) :
  from_option is_ws false (head (parseOllamaResponse response)) = false
  ∧ from_option is_ws false (last (parseOllamaResponse response)) = false
  ∧ trim (parseOllamaResponse response) = parseOllamaResponse response.
Proof.
  unfold parseOllamaResponse. split_and!; [..|apply trim_idemp].
  - destruct (head (trim _)) as [c|] eqn:Hc; [|done]. eapply trim_ends. eauto.
  - destruct (last (trim _)) as [c|] eqn:Hc; [|done]. eapply trim_ends. eauto.
Qed.

(** ** The extraction of the storyline *)

Lemma first_json_fence_infix text interior :
  first_json_fence text = Some interior → ∃ l r, text = l ++ interior ++ r.
Proof.
  unfold first_json_fence.
  destruct (find_first fence_json text) as [[a b]|] eqn:Ha; [|done]. simpl.
  destruct (find_first fence b) as [[i rest]|] eqn:Hb; [|done]. intros [= <-].
  apply find_first_Some in Ha, Hb. subst b. exists (a ++ fence_json), (fence ++ rest).
  by rewrite Ha, <-!(assoc_L (++)).
Qed.

Lemma extractJsonFromMarkdown_part text :
  ∃ l r, text = l ++ extractJsonFromMarkdown text ++ r.
Proof.
  rewrite extractJsonFromMarkdown_closed.
  destruct (first_json_fence text) as [interior|] eqn:Hf.
  2:{ exists [], []. by rewrite (right_id_L [] (++)). }
  destruct (is_nil (trim interior)).
  { exists [], []. by rewrite (right_id_L [] (++)). }
  destruct (first_json_fence_infix _ _ Hf) as (l & r & ->).
  destruct (trim_infix interior) as (l' & r' & Hi).
  exists (l ++ l'), (r' ++ r). rewrite Hi at 1. by rewrite <-!(assoc_L (++)).
Qed.

Lemma extractJsonFromMarkdown_trim text :
  trim text = text → trim (extractJsonFromMarkdown text) = extractJsonFromMarkdown text.
Proof.
  intros Ht. rewrite extractJsonFromMarkdown_closed.
  destruct (first_json_fence text) as [interior|]; [|done].
  destruct (is_nil (trim interior)); [done | apply trim_idemp].
Qed.

(** X3. [extractJsonFromMarkdown] returns a contiguous part of its input;
    the extraction from a trimmed text is a trimmed text; and the result
    is empty for the empty text only. *)
Theorem extractJsonFromMarkdown_infix (text : str) :
  (∃ l r, text = l ++ extractJsonFromMarkdown text ++ r)
  ∧ trim (extractJsonFromMarkdown (trim text)) = extractJsonFromMarkdown (trim text)
  ∧ is_nil (extractJsonFromMarkdown text) = is_nil text.
Proof.
  split_and!; [apply extractJsonFromMarkdown_part|..].
  - apply extractJsonFromMarkdown_trim, trim_idemp.
  - rewrite extractJsonFromMarkdown_closed.
    destruct (first_json_fence text) as [interior|] eqn:Hf; [|done].
    destruct (is_nil (trim interior)) eqn:Hi; [done|]. rewrite Hi.
    apply first_json_fence_infix in Hf as (l & r & ->).
    destruct l; [|done]. destruct interior; [done | done].
Qed.

(** ** The list of plots *)

Lemma split_nl_cons s : ∃ l ls, split_nl s = l :: ls.
Proof.
  destruct s as [|c s]; simpl; [by eauto|].
  destruct (c =? 10)%N; [by eauto|]. destruct (split_nl s); eauto.
Qed.

Lemma join_cons_head sep (c : N) l ls : join sep ((c :: l) :: ls) = c :: join sep (l :: ls).
Proof. by destruct ls. Qed.

(** Joining the lines with a separator puts the separator in the place
    of every line feed. *)
Lemma join_split_nl sep s :
  join sep (split_nl s) = s ≫= (λ c, if (c =? 10)%N then sep else [c]).
Proof.
  induction s as [|c s IH]; [done|]. cbn [split_nl mbind list_bind].
  change (mbind ?f s) with (s ≫= f). rewrite <-IH.
  destruct (split_nl_cons s) as (l & ls & Hs). rewrite Hs.
  destruct (c =? 10)%N; [done|]. by rewrite join_cons_head.
Qed.

Lemma join_split_nl_unit sep s :
  join [sep] (split_nl s) = (λ c, if (c =? 10)%N then sep else c) <$> s.
Proof.
  rewrite join_split_nl. induction s as [|c s IH]; [done|].
  cbn [mbind list_bind fmap list_fmap]. change (mbind ?f s) with (s ≫= f).
  rewrite IH. by destruct (c =? 10)%N.
Qed.

(** X4. The response with the plots is cut at its line feeds into at
    least one plot, nothing of it is lost, and [selectMostEngaging] shows
    the plots to the model as the response with a comma in the place of
    every line feed. *)
Theorem plots_joined_with_commas (response : str) :
  0 < length (split_nl response)
  ∧ join nl (split_nl response) = response
  ∧ selectPrompt (split_nl response)
    = selectPrompt [(λ c, if (c =? 10)%N then 44%N else c) <$> response].
Proof.
  split_and!.
  - destruct (split_nl_cons response) as (l & ls & ->). simpl. lia.
  - unfold nl. rewrite join_split_nl_unit. induction response as [|c s IH]; [done|].
    cbn [fmap list_fmap]. change (list_fmap _ _ ?f s) with (f <$> s). rewrite IH.
    destruct (c =? 10)%N eqn:Hc; [|done]. by apply N.eqb_eq in Hc as ->.
  - unfold selectPrompt. change (lit ",") with [44%N].
    by rewrite join_split_nl_unit.
Qed.

(** ** The name of the manuscript file *)

Lemma filename_unit_spec c :
  filename_unit c = true ↔
  (97 ≤ c ≤ 122 ∨ 65 ≤ c ≤ 90 ∨ 48 ≤ c ≤ 57 ∨ c = 46 ∨ c = 95 ∨ c = 32)%N.
Proof.
  unfold filename_unit.
  rewrite !orb_true_iff, !andb_true_iff, !N.leb_le, !N.eqb_eq. lia.
Qed.

Lemma validFilename_sublist prompt : validFilename prompt `sublist_of` prompt.
Proof. unfold validFilename. etrans; [apply trim_sublist | apply sublist_filter]. Qed.

Lemma validFilename_units prompt :
  Forall (λ c, filename_unit c = true) (validFilename prompt).
Proof.
  apply Forall_forall. intros c Hc.
  eapply elem_of_sublist in Hc; [|apply trim_sublist].
  by apply list_elem_of_filter in Hc as [Hc _].
Qed.

Lemma filter_units l :
  Forall (λ c, filename_unit c = true) l → filter (λ c, filename_unit c = true) l = l.
Proof.
  induction 1 as [|c l Hc _ IH]; [done|]. by rewrite filter_cons_True, IH.
Qed.

Lemma utf8_ascii s : utf8 (filter (λ c, (c < 128)%N) s) = filter (λ c, (c < 128)%N) s.
Proof.
  induction s as [|c s IH]; [done|]. destruct (decide (c < 128)%N) as [Hc|Hc].
  - rewrite filter_cons_True by done. cbn [utf8]. rewrite IH.
    unfold is_lead, is_trail, utf8_point.
    repeat match goal with
           | |- context [(?a <=? ?b)%N] => destruct (N.leb_spec a b); try lia
           | |- context [(?a <? ?b)%N] => destruct (N.ltb_spec a b); try lia
           end; done.
  - by rewrite filter_cons_False.
Qed.

(** X5. [writeToFile] sends nothing and asks the file system for one
    file, in the folder [prompts] of the output folder, that holds the
    content in UTF-8: a text of ASCII characters is stored as it is, and a
    surrogate that stands alone as U+FFFD. When the file system refuses
    the write, as it does for a name that is too long, the function throws
    and nothing is written. The name of the file is made of letters,
    digits, dots, underscores and spaces of the prompt, in their order,
    followed by [.txt]; it holds no separator of a path and neither starts
    nor ends with white space. *)
Theorem writeToFile_name (E : Env) (prompt content : str) (w : World) :
  let file := TextFile [outputDir E; lit "prompts"; validFilename prompt ++ lit ".txt"]
                       (utf8 content) in
  writeToFile E prompt content w =
    (if accepts E (disk w) file
     then (Ret (), {| sent := sent w; disk := disk w ++ [file] |})
     else (Throw IOError, w))
  ∧ utf8 (filter (λ c, (c < 128)%N) content) = filter (λ c, (c < 128)%N) content
  ∧ utf8 [55296%N] = [239; 191; 189]%N
  ∧ validFilename prompt `sublist_of` prompt
  ∧ Forall (λ c, (97 ≤ c ≤ 122 ∨ 65 ≤ c ≤ 90 ∨ 48 ≤ c ≤ 57
                  ∨ c = 46 ∨ c = 95 ∨ c = 32)%N) (validFilename prompt)
  ∧ from_option is_ws false (head (validFilename prompt)) = false
  ∧ from_option is_ws false (last (validFilename prompt)) = false.
Proof.
  split_and!.
  - done.
  - apply utf8_ascii.
  - done.
  - apply validFilename_sublist.
  - eapply Forall_impl; [apply validFilename_units|]. intros c. apply filename_unit_spec.
  - unfold validFilename.
    destruct (head (trim _)) as [c|] eqn:Hc; [|done]. eapply trim_ends. eauto.
  - unfold validFilename.
    destruct (last (trim _)) as [c|] eqn:Hc; [|done]. eapply trim_ends. eauto.
Qed.

(** X6. The characters that are not allowed in the name of the file are
    dropped, so that two prompts that differ in such characters only are
    written to the same file. *)
Theorem validFilename_drops (before after : str) (c : N) :
  filename_unit c = false →
  validFilename (before ++ c :: after) = validFilename (before ++ after).
Proof.
  intros Hc. unfold validFilename. rewrite !filter_app.
  rewrite filter_cons_False; [done|]. by rewrite Hc.
Qed.

Lemma validFilename_drops_witness :
  validFilename (lit "Who? Me!") = validFilename (lit "Who Me!").
Proof.
  apply (validFilename_drops (lit "Who") (lit " Me!") 63%N). reflexivity.
Defined.

Lemma rstrip_nil_ws s : rstrip s = [] → forallb is_ws s = true.
Proof.
  induction s as [|c s IH]; simpl; [done|].
  destruct (is_ws c); simpl; [|done].
  destruct (rstrip s); [by intros _; apply IH | done].
Qed.

Lemma drop_ws_nil_ws s : forallb is_ws (drop_ws s) = true → forallb is_ws s = true.
Proof.
  induction s as [|c s IH]; simpl; [done|].
  destruct (is_ws c) eqn:Hc; simpl; [done|]. by rewrite Hc.
Qed.

Lemma ws_drop_ws s : forallb is_ws s = true → drop_ws s = [].
Proof.
  induction s as [|c s IH]; simpl; [done|]. destruct (is_ws c); simpl; [done|done].
Qed.

(** A text is trimmed to nothing when it is made of white space. *)
Lemma trim_nil s : is_nil (trim s) = forallb is_ws s.
Proof.
  destruct (forallb is_ws s) eqn:Hs.
  - unfold trim. by rewrite ws_drop_ws.
  - destruct (trim s) eqn:Ht; [|done].
    apply rstrip_nil_ws, drop_ws_nil_ws in Ht. congruence.
Qed.

(** X7. Cleaning the name of a file twice is cleaning it once, and the
    name is empty, so that the file is [.txt], exactly when the prompt has
    no letter, digit, dot or underscore. *)
Theorem validFilename_idemp (prompt : str) :
  validFilename (validFilename prompt) = validFilename prompt
  ∧ is_nil (validFilename prompt)
    = forallb (λ c, negb (filename_unit c) || (c =? 32)%N) prompt.
Proof.
  split.
  - unfold validFilename at 1. rewrite filter_units by apply validFilename_units.
    unfold validFilename. apply trim_idemp.
  - unfold validFilename. rewrite trim_nil.
    induction prompt as [|c s IH]; [done|]. cbn [forallb].
    destruct (filename_unit c) eqn:Hc.
    + rewrite filter_cons_True by done. cbn [forallb negb orb]. rewrite IH. f_equal.
      apply filename_unit_spec in Hc. unfold is_ws.
      destruct (c =? 32)%N eqn:H32.
      * apply N.eqb_eq in H32 as ->. done.
      * apply N.eqb_neq in H32.
        repeat match goal with
               | |- context [(?a <=? ?b)%N] => destruct (N.leb_spec a b)
               | |- context [(?a =? ?b)%N] => destruct (N.eqb_spec a b)
               end; simpl; try done; lia.
    + rewrite filter_cons_False by (by rewrite Hc). by rewrite IH.
Qed.

(** *** A fenced block and a reasoning segment where they stand *)

Lemma find_first_skip p0 p c s :
  c ≠ p0 →
  find_first (p0 :: p) (c :: s) = prod_map (cons c) id <$> find_first (p0 :: p) s.
Proof.
  intros Hc. cbn [find_first starts_with].
  by rewrite (proj2 (N.eqb_neq p0 c)) by done.
Qed.

(** The first occurrence of a pattern after a text without the first
    character of the pattern. *)
Lemma find_first_app_unit p0 p a b :
  forallb (λ c, negb (c =? p0)%N) a = true →
  find_first (p0 :: p) (a ++ (p0 :: p) ++ b) = Some (a, b).
Proof.
  induction a as [|c a IH]; cbn [forallb app].
  - intros _. cbn [find_first]. change (p0 :: p ++ b) with ((p0 :: p) ++ b).
    by rewrite starts_with_app, drop_app_length.
  - intros [Hc Ha]%andb_true_iff. apply negb_true_iff, N.eqb_neq in Hc.
    rewrite find_first_skip by done. change (p0 :: p ++ b) with ((p0 :: p) ++ b).
    by rewrite IH.
Qed.

Lemma fence_json_all_units : fence_json = [96; 96; 96; 106; 115; 111; 110]%N.
Proof. reflexivity. Qed.

Lemma fence_json_no_overlap x y :
  x ≠ [] → find_first fence_json x = None →
  starts_with fence_json (x ++ fence_json ++ y) = false.
Proof. revert x. intros x. no_overlap fence_json_all_units. Qed.

Lemma drop_ws_app_ws a s : forallb is_ws a = true → drop_ws (a ++ s) = drop_ws s.
Proof.
  induction a as [|c a IH]; cbn [forallb app drop_ws]; [done|].
  intros [Hc Ha]%andb_true_iff. rewrite Hc. by apply IH.
Qed.

Lemma rstrip_ws b : forallb is_ws b = true → rstrip b = [].
Proof.
  induction b as [|c b IH]; cbn [forallb rstrip]; [done|].
  intros [Hc Hb]%andb_true_iff. by rewrite Hc, IH.
Qed.

Lemma rstrip_app_ws t b : forallb is_ws b = true → rstrip (t ++ b) = rstrip t.
Proof.
  intros Hb. induction t as [|c t IH]; cbn [app rstrip]; [by apply rstrip_ws|].
  by rewrite IH.
Qed.

Lemma drop_ws_app s b :
  drop_ws (s ++ b) = if forallb is_ws s then drop_ws b else drop_ws s ++ b.
Proof.
  induction s as [|c s IH]; cbn [app drop_ws forallb]; [done|].
  destruct (is_ws c); [apply IH | done].
Qed.

(** White space around a text does not count for its trimming. *)
Lemma trim_ws_around a s b :
  forallb is_ws a = true → forallb is_ws b = true → trim (a ++ s ++ b) = trim s.
Proof.
  intros Ha Hb. unfold trim. rewrite drop_ws_app_ws by done. rewrite drop_ws_app.
  destruct (forallb is_ws s) eqn:Hs.
  - by rewrite !ws_drop_ws.
  - by apply rstrip_app_ws.
Qed.

(** X8. A response that holds one fenced block tagged [json], as the
    models write it, gives the text of the block: what stands before and
    after the block, the fences and the white space around the text are
    dropped. *)
Theorem extractJsonFromMarkdown_fenced (before ws1 json ws2 after : str) :
  find_first fence_json before = None →
  forallb is_ws ws1 = true → forallb is_ws ws2 = true →
  forallb (λ c, negb (c =? 96)%N) json = true →
  trim json = json → 0 < length json →
  extractJsonFromMarkdown
    (before ++ fence_json ++ ws1 ++ json ++ ws2 ++ fence ++ after) = json.
Proof.
  intros Hbefore Hws1 Hws2 Hjson Htrim Hlen.
  rewrite extractJsonFromMarkdown_closed. unfold first_json_fence.
  rewrite (find_first_app_here fence_json before) by (done || apply fence_json_no_overlap).
  cbn [mbind option_bind].
  assert (find_first fence (ws1 ++ json ++ ws2 ++ fence ++ after)
          = Some (ws1 ++ json ++ ws2, after)) as ->.
  { rewrite fence_units.
    rewrite <-(find_first_app_unit 96 [96; 96]%N (ws1 ++ json ++ ws2) after).
    - by rewrite <-!(assoc_L (++)).
    - assert (∀ l, forallb is_ws l = true → forallb (λ c, negb (c =? 96)%N) l = true)
        as Hws.
      { intros l. induction l as [|c l IH]; cbn [forallb]; [done|].
        intros [Hc Hl]%andb_true_iff. rewrite (IH Hl), andb_true_r.
        destruct (N.eqb_spec c 96) as [->|]; done. }
      by rewrite !forallb_app, Hjson, !Hws. }
  cbn [mbind option_bind]. rewrite trim_ws_around, Htrim by done.
  by destruct json; [simpl in Hlen; lia|].
Qed.

Lemma extractJsonFromMarkdown_fenced_witness :
  extractJsonFromMarkdown
    (lit "Here is the storyline:" ++ nl ++ plan_one_entry ++ nl ++ lit "Enjoy!")
  = plan_one_entry_json.
Proof.
  apply (extractJsonFromMarkdown_fenced (lit "Here is the storyline:" ++ nl) nl
           plan_one_entry_json nl (nl ++ lit "Enjoy!"));
    vm_compute; (reflexivity || lia).
Defined.

(** X9. A response with one reasoning segment, as the models write it,
    is cleaned to the text around the segment, trimmed: the segment must
    hold no closing tag and the text around it no opening tag. *)
Theorem parseOllamaResponse_one_segment (before thinking after : str) :
  find_first think_close thinking = None →
  find_first think_open (before ++ after) = None →
  parseOllamaResponse (before ++ think_open ++ thinking ++ think_close ++ after)
  = trim (before ++ after).
Proof.
  intros Hthinking Hrest.
  pose proof (find_first_None_app _ _ _ Hrest) as [Hbefore Hafter].
  assert (strip_think (before ++ think_open ++ thinking ++ think_close ++ after)
          = before ++ after) as Hstrip.
  { unfold strip_think. rewrite !length_app.
    replace (length think_open) with 7 by done.
    replace (length before + (7 + (length thinking + (length think_close + length after))))
      with (S (length before + (6 + (length thinking
                                      + (length think_close + length after))))) by lia.
    cbn [strip_segments].
    rewrite (find_first_app_here think_open before)
      by (done || apply think_open_no_overlap).
    rewrite (find_first_app_here think_close thinking)
      by (done || apply think_close_no_overlap).
    f_equal. match goal with |- strip_segments ?n _ = _ => destruct n end; [done|].
    cbn [strip_segments]. by rewrite Hafter. }
  rewrite parseOllamaResponse_clean; rewrite Hstrip; done.
Qed.

Lemma parseOllamaResponse_one_segment_witness :
  parseOllamaResponse
    (lit "<think>The user wants a title.</think>" ++ nl ++ nl ++ lit "The Bottle" ++ nl)
  = lit "The Bottle".
Proof.
  apply (parseOllamaResponse_one_segment [] (lit "The user wants a title.")
           (nl ++ nl ++ lit "The Bottle" ++ nl)); vm_compute; reflexivity.
Defined.

(** ** The chapters of the e-book *)

Lemma split_nl_app a b : split_nl (a ++ nl ++ b) = split_nl a ++ split_nl b.
Proof.
  induction a as [|c a IH]; [done|]. cbn [app split_nl]. rewrite IH.
  destruct (split_nl_cons a) as (l & ls & ->). by destruct (c =? 10)%N.
Qed.

Lemma split_nl_line l : forallb (λ c, negb (c =? 10)%N) l = true → split_nl l = [l].
Proof.
  induction l as [|c l IH]; [done|]. cbn [forallb split_nl].
  intros [Hc Hl]%andb_true_iff. rewrite (IH Hl). by destruct (c =? 10)%N.
Qed.

Lemma split_nl_lines s : Forall (λ l, forallb (λ c, negb (c =? 10)%N) l = true) (split_nl s).
Proof.
  induction s as [|c s IH]; cbn [split_nl]; [by repeat constructor|].
  destruct (c =? 10)%N eqn:Hc; [by constructor|].
  destruct (split_nl_cons s) as (l & ls & Hs). rewrite Hs in *.
  apply Forall_cons in IH as [Hl Hls]. constructor; [|done]. simpl. by rewrite Hc.
Qed.

Lemma split_nl_join lines :
  Forall (λ l, forallb (λ c, negb (c =? 10)%N) l = true) lines → 0 < length lines →
  split_nl (join nl lines) = lines.
Proof.
  induction 1 as [|l lines Hl Hlines IH]; [simpl; lia|]. intros _.
  destruct lines as [|l' lines']; [by apply split_nl_line|].
  change (join nl (l :: l' :: lines')) with (l ++ nl ++ join nl (l' :: lines')).
  rewrite split_nl_app, (split_nl_line l Hl). cbn [app]. f_equal. apply IH. simpl. lia.
Qed.

Lemma join_nil_concat (l : list str) : join [] l = concat l.
Proof.
  induction l as [|x l IH]; [done|]. cbn [concat]. rewrite <-IH.
  destruct l; cbn [join app]; [by rewrite (right_id_L [] (++)) | done].
Qed.

(** The paragraph of a line. *)
Lemma formattedContent_concat s :
  formattedContent s =
    concat ((λ l, if is_nil (trim l) then [] else lit "<p>" ++ l ++ lit "</p>")
            <$> split_nl s).
Proof.
  unfold formattedContent. rewrite join_nil_concat.
  induction (split_nl s) as [|l ls IH]; [done|]. cbn [fmap list_fmap concat].
  destruct (is_nil (trim l)) eqn:Hl.
  - rewrite filter_cons_False by (by rewrite Hl). apply IH.
  - rewrite filter_cons_True by done. cbn [fmap list_fmap concat]. by rewrite IH.
Qed.

(** X10. The text of a chapter in the e-book: every line that is not
    blank becomes one paragraph, with its text as it is, neither trimmed
    nor escaped; the blank lines are dropped. *)
Theorem formattedContent_lines (lines : list str) :
  Forall (λ l, forallb (λ c, negb (c =? 10)%N) l = true) lines → 0 < length lines →
  formattedContent (join nl lines) =
    concat ((λ l, if forallb is_ws l then [] else lit "<p>" ++ l ++ lit "</p>")
            <$> lines).
Proof.
  intros Hl Hn. rewrite formattedContent_concat, split_nl_join by done.
  f_equal. apply list_fmap_ext. intros _ l _. by rewrite trim_nil.
Qed.

Lemma formattedContent_lines_witness :
  formattedContent (lit "  It rained." ++ nl ++ lit "  " ++ nl ++ lit "<i>Still</i>")
  = lit "<p>  It rained.</p><p><i>Still</i></p>".
Proof.
  apply (formattedContent_lines [lit "  It rained."; lit "  "; lit "<i>Still</i>"]).
  - repeat constructor.
  - simpl. lia.
Defined.

(** X11. The paragraphs of two texts put on separate lines are the
    paragraphs of the one followed by those of the other, and the
    paragraphs are on one line: they hold no line feed. *)
Theorem formattedContent_app (a b : str) :
  formattedContent (a ++ nl ++ b) = formattedContent a ++ formattedContent b
  ∧ forallb (λ c, negb (c =? 10)%N) (formattedContent a) = true.
Proof.
  split.
  - by rewrite !formattedContent_concat, split_nl_app, fmap_app, concat_app.
  - rewrite formattedContent_concat.
    induction (split_nl_lines a) as [|l ls Hl _ IH]; [done|].
    cbn [fmap list_fmap concat]. rewrite forallb_app, IH, andb_true_r.
    destruct (is_nil (trim l)); [done|]. by rewrite !forallb_app, Hl.
Qed.

Lemma find_first_nil c p : find_first (c :: p) [] = None.
Proof. done. Qed.

(** The rounds of [str_split] are enough: more rounds give the same
    pieces. *)
Lemma split_rounds_enough sep s n m :
  0 < length sep → length s ≤ n → length s ≤ m →
  split_rounds n sep s = split_rounds m sep s.
Proof.
  intros Hsep. revert s m. induction n as [|n IH]; intros s m Hn Hm.
  - destruct s; [|simpl in Hn; lia].
    destruct sep; [simpl in Hsep; lia|]. by destruct m.
  - destruct m as [|m].
    + destruct s; [|simpl in Hm; lia].
      destruct sep; [simpl in Hsep; lia|]. done.
    + cbn [split_rounds]. destruct (find_first sep s) as [[a rest]|] eqn:Hf; [|done].
      f_equal. apply find_first_Some in Hf. apply (f_equal length) in Hf.
      rewrite !length_app in Hf. apply IH; lia.
Qed.

(** The second piece of a text that holds the separator. *)
Lemma str_split_second sep s a rest :
  0 < length sep → find_first sep s = Some (a, rest) →
  str_split sep s !! 1 =
    Some (match find_first sep rest with Some (name, _) => name | None => rest end).
Proof.
  intros Hsep Hf. unfold str_split.
  pose proof (find_first_Some _ _ _ _ Hf) as Hs.
  apply (f_equal length) in Hs. rewrite !length_app in Hs.
  destruct (length s) as [|[|n]] eqn:Hn; [lia|..]; cbn [split_rounds]; rewrite Hf.
  - assert (rest = []) as -> by (destruct rest; [done | simpl in Hs; lia]).
    destruct sep; [simpl in Hsep; lia | done].
  - by destruct (find_first sep rest) as [[name r]|].
Qed.

Lemma epubChapter_single_key key text :
  epubChapter (single_key_object key text) =
    Some {| epub_title :=
              Some (match find_first dash key with
                    | None => key
                    | Some (_, rest) =>
                        match find_first dash rest with
                        | Some (name, _) => name
                        | None => rest
                        end
                    end);
            epub_data := lit "<h1>" ++ key ++ lit "</h1>" ++ formattedContent text |}.
Proof.
  unfold epubChapter, single_key_object.
  cbn [Object_keys fmap list_fmap fst mbind option_bind head first_value own_property].
  rewrite bool_decide_eq_true_2 by done. cbn [default]. do 2 f_equal.
  unfold str_includes. destruct (find_first dash key) as [[a rest]|] eqn:Hf.
  - rewrite bool_decide_eq_true_2 by eauto.
    apply (str_split_second dash key a rest); [simpl; lia | done].
  - rewrite bool_decide_eq_false_2; [done|]. by intros [? ?].
Qed.

(** X12. The entry of the e-book for a chapter record: the record of a
    run is never refused; the heading is the key of the record and the
    body its paragraphs; the title is the key when it holds no [" - "],
    and otherwise what stands between the first [" - "] and the next one,
    or the end. *)
Theorem epubChapter_record (key text : str) :
  epubChapter (single_key_object key text) =
    Some {| epub_title :=
              Some (match find_first dash key with
                    | None => key
                    | Some (_, rest) =>
                        match find_first dash rest with
                        | Some (name, _) => name
                        | None => rest
                        end
                    end);
            epub_data := lit "<h1>" ++ key ++ lit "</h1>" ++ formattedContent text |}.
Proof. apply epubChapter_single_key. Qed.

Lemma uint_digits u :
  Forall (λ c, (48 ≤ c ≤ 57)%N) (lit (DecimalString.NilEmpty.string_of_uint u)).
Proof.
  unfold lit. induction u; simpl; [constructor|..]; (constructor; [simpl; lia | done]).
Qed.

Lemma dec_digits i : Forall (λ c, (48 ≤ c ≤ 57)%N) (dec i).
Proof.
  unfold dec, dec_Z. destruct (Z.of_nat i) as [|p|p] eqn:Hi; [..|lia]; simpl.
  - apply (uint_digits (Decimal.D0 Decimal.Nil)).
  - apply uint_digits.
Qed.

(** The first [" - "] of a text that starts with digits. *)
Lemma find_first_dash_digits d rest :
  Forall (λ c, (48 ≤ c ≤ 57)%N) d →
  find_first dash (d ++ dash ++ rest) = Some (d, rest).
Proof.
  induction 1 as [|c d Hc _ IH].
  - cbn [app]. unfold find_first. destruct (dash ++ rest) eqn:Hd; [done|].
    rewrite <-Hd. by rewrite starts_with_app, drop_app_length.
  - cbn [app]. change dash with (32%N :: [45; 32]%N) at 1.
    rewrite find_first_skip by lia.
    change (32%N :: [45; 32]%N) with dash. by rewrite IH.
Qed.

Lemma fallback_key_dash i :
  find_first dash (fallback_key i) = Some (lit "Chapter " ++ dec i, lit "Untitled").
Proof.
  unfold fallback_key.
  change (lit " - Untitled") with (dash ++ lit "Untitled").
  change (lit "Chapter ") with ([67; 104; 97; 112; 116; 101; 114]%N ++ [32%N]).
  rewrite <-!(assoc_L (++)). cbn [app].
  change dash with (32%N :: [45; 32]%N).
  rewrite !find_first_skip by lia.
  assert (starts_with (32%N :: [45; 32]%N)
            (32%N :: dec i ++ (32%N :: [45; 32]%N) ++ lit "Untitled") = false) as Hsp.
  { cbn [starts_with]. destruct (dec_digits i) as [|c d Hc _]; [done|].
    cbn [app starts_with]. by rewrite (proj2 (N.eqb_neq 45 c)) by lia. }
  cbn [find_first]. rewrite Hsp.
  change (32%N :: [45; 32]%N) with dash. rewrite find_first_dash_digits by apply dec_digits.
  done.
Qed.

(** X13. With the fallback plan every chapter of the e-book has the
    title [Untitled]; the number of the chapter is in the heading only. *)
Theorem fallback_chapters_untitled (i : nat) (text : str) :
  epubChapter (single_key_object (fallback_key i) text) =
    Some {| epub_title := Some (lit "Untitled");
            epub_data := lit "<h1>Chapter " ++ dec i ++ lit " - Untitled</h1>"
                         ++ formattedContent text |}.
Proof.
  rewrite epubChapter_single_key, fallback_key_dash.
  change (find_first dash (lit "Untitled")) with (@None (str * str)).
  unfold fallback_key. do 2 f_equal.
  change (lit "<h1>Chapter ") with (lit "<h1>" ++ lit "Chapter ").
  change (lit " - Untitled</h1>") with (lit " - Untitled" ++ lit "</h1>").
  by rewrite <-!(assoc_L (++)).
Qed.

(** ** The stages of a run *)

Section StageLemmas.
Context `{Builtins} (E : Env).

(** The stages fill the templates above. *)
Lemma stages_use_prompts prompt plots plot numChapters :
  generatePlots E prompt
    = (response ← callOllama E (plotsPrompt prompt); mret (split_nl response))
  ∧ selectMostEngaging E plots = callOllama E (selectPrompt plots)
  ∧ improvePlot E plot = callOllama E (improvePlotPrompt plot)
  ∧ getTitle E plot = callOllama E (titlePrompt plot)
  ∧ generateCoverPrompt E plot = callOllama E (coverPrompt plot)
  ∧ generateStoryline E plot numChapters
    = (initialResponse ← callOllama E (storylinePrompt plot numChapters);
       improvedResponse ← callOllama E (improveStorylinePrompt initialResponse);
       mret (extractJsonFromMarkdown improvedResponse)).
Proof. done. Qed.

Lemma sent_log req w : sent (log_request req w) = sent w ++ [req].
Proof. done. Qed.

Lemma disk_log req w : disk (log_request req w) = disk w.
Proof. done. Qed.

Lemma response_at_log w i req reqs w' :
  sent w' = sent w ++ reqs → length reqs = i →
  reply_outcome (svc E (length (sent w')) req) = response_at E w i req.
Proof. intros -> <-. unfold response_at. by rewrite length_app. Qed.

Lemma asked_app w w1 w2 reqs1 reqs2 texts1 texts2 :
  asked E w w1 reqs1 texts1 → asked E w1 w2 reqs2 texts2 →
  asked E w w2 (reqs1 ++ reqs2) (texts1 ++ texts2).
Proof.
  intros (Hs1 & Hd1 & Hr1) (Hs2 & Hd2 & Hr2). split_and!.
  - by rewrite Hs2, Hs1, <-(assoc_L (++)).
  - congruence.
  - rewrite imap_app, fmap_app, Hr1, <-Hr2. f_equal. apply imap_ext.
    intros i req _. unfold response_at. simpl.
    rewrite Hs1, length_app. f_equal. f_equal. lia.
Qed.

Lemma asked_length w w' reqs texts : asked E w w' reqs texts → length texts = length reqs.
Proof.
  intros (_ & _ & Hr). apply (f_equal length) in Hr.
  by rewrite length_imap, length_fmap in Hr.
Qed.

Lemma callOllama_asked prompt w text w' :
  callOllama E prompt w = (Ret text, w') →
  asked E w w' [ollama_request E prompt] [text].
Proof.
  rewrite callOllama_run. intros [= Hr <-]. split_and!; [done..|].
  cbn [imap fmap list_fmap]. unfold response_at. by rewrite Nat.add_0_r, Hr.
Qed.

(** A text that [callOllama] returned is trimmed. *)
Lemma response_at_trim w i req text :
  response_at E w i req = Ret text → trim text = text.
Proof.
  unfold response_at. intros (t & _ & ->)%reply_outcome_Ret.
  unfold parseOllamaResponse. apply trim_idemp.
Qed.

(** One call of [callOllama] in a run that returns. *)
Ltac call_returns Hrun text Hc :=
  rewrite ?bind_run in Hrun;
  match type of Hrun with
  | context [callOllama E ?p ?w] =>
      destruct (callOllama E p w) as [[text|?|] ?] eqn:Hc; [|discriminate Hrun..];
      apply callOllama_asked in Hc
  end;
  cbn beta iota in Hrun; rewrite ?bind_run in Hrun;
  cbn [mret M_ret] in Hrun; cbn beta iota in Hrun.

Lemma generateStoryline_asked plot numChapters w storyline w' :
  generateStoryline E plot numChapters w = (Ret storyline, w') →
  ∃ initialResponse improvedResponse,
    asked E w w'
      (ollama_request E <$> [storylinePrompt plot numChapters;
                             improveStorylinePrompt initialResponse])
      [initialResponse; improvedResponse] ∧
    storyline = extractJsonFromMarkdown improvedResponse.
Proof.
  unfold generateStoryline. intros Hrun.
  call_returns Hrun initialResponse Hc1. call_returns Hrun improvedResponse Hc2.
  rewrite ?bind_run in Hrun. injection Hrun as <- <-.
  exists initialResponse, improvedResponse. split; [|done].
  apply (asked_app _ _ _ _ _ _ _ Hc1 Hc2).
Qed.

Lemma storyline_asked prompt numChapters w bookTitle storyline w' :
  writeFantasyNovel_storyline E prompt numChapters w = (Ret (bookTitle, storyline), w') →
  ∃ plots bestPlot improvedPlot initialResponse improvedResponse,
    asked E w w'
      (storyline_requests E prompt numChapters plots bestPlot improvedPlot
         initialResponse)
      [plots; bestPlot; improvedPlot; bookTitle; initialResponse; improvedResponse] ∧
    storyline = extractJsonFromMarkdown improvedResponse.
Proof.
  unfold writeFantasyNovel_storyline, generatePlots, selectMostEngaging, improvePlot,
    getTitle. intros Hrun.
  call_returns Hrun plots Hc1. rewrite ?bind_run in Hrun. cbn beta iota in Hrun.
  call_returns Hrun bestPlot Hc2. call_returns Hrun improvedPlot Hc3.
  call_returns Hrun title' Hc4. rewrite ?bind_run in Hrun.
  match type of Hrun with
  | context [generateStoryline E ?p ?n ?w] =>
      destruct (generateStoryline E p n w) as [[s|?|] ?] eqn:Hg; [|discriminate Hrun..]
  end.
  injection Hrun as <- <- <-.
  apply generateStoryline_asked in Hg as (initialResponse & improvedResponse & Hg & ->).
  exists plots, bestPlot, improvedPlot, initialResponse, improvedResponse.
  split; [|done].
  pose proof (asked_app _ _ _ _ _ _ _ Hc1 Hc2) as H12.
  pose proof (asked_app _ _ _ _ _ _ _ H12 Hc3) as H13.
  pose proof (asked_app _ _ _ _ _ _ _ H13 Hc4) as H14.
  apply (asked_app _ _ _ _ _ _ _ H14 Hg).
Qed.

(** *** Requests only *)

Lemma only_asks_ret {A} (a : A) : only_asks E (mret a).
Proof.
  intros w. apply post_ret. split; [done|]. exists []. cbn [fmap list_fmap].
  by rewrite (right_id_L [] (++)).
Qed.

Lemma only_asks_or_TypeError {A} (o : option A) : only_asks E (or_TypeError o).
Proof.
  intros w. apply post_or_TypeError.
  destruct o; (split; [done|]; exists []; cbn [fmap list_fmap];
               by rewrite (right_id_L [] (++))).
Qed.

Lemma only_asks_diverge {A} : only_asks E (@diverge A).
Proof.
  intros w. split; [done|]. exists []. cbn. by rewrite (right_id_L [] (++)).
Qed.

Lemma only_asks_bind {A B} (m : M A) (f : A → M B) :
  only_asks E m → (∀ a, only_asks E (f a)) → only_asks E (m ≫= f).
Proof.
  intros Hm Hf w. apply post_bind. eapply post_mono; [apply Hm|].
  intros [a|e|] w1 (Hd & ps & Hs); cbn beta iota; [|by eauto..].
  eapply post_mono; [apply Hf|]. intros out w' (Hd' & ps' & Hs').
  split; [congruence|]. exists (ps ++ ps'). by rewrite Hs', Hs, fmap_app, (assoc_L (++)).
Qed.

Lemma only_asks_callOllama prompt : only_asks E (callOllama E prompt).
Proof. intros w. apply post_callOllama. split; [done|]. by exists [prompt]. Qed.

Lemma only_asks_writeChapter budget previousChapters plot chapterTitle :
  only_asks E (writeChapter E budget previousChapters plot chapterTitle).
Proof.
  induction budget as [|budget IH]; cbn [writeChapter].
  - apply only_asks_diverge.
  - apply only_asks_bind; [apply only_asks_or_TypeError|]. intros _.
    apply only_asks_bind; [apply only_asks_callOllama|]. intros response.
    destruct (length response <? 1000); [done | apply only_asks_ret].
Qed.

Lemma only_asks_chapter_loop budget plan storyline count i st :
  only_asks E (chapter_loop E budget plan storyline count i st).
Proof.
  revert i st. induction count as [|count IH]; intros i st; cbn [chapter_loop].
  - apply only_asks_ret.
  - apply only_asks_bind; [apply only_asks_or_TypeError|]. intros entry.
    apply only_asks_bind; [apply only_asks_writeChapter|]. intros chapter.
    apply only_asks_bind; [apply only_asks_or_TypeError|]. intros key. apply IH.
Qed.

Lemma only_asks_writeFantasyNovel budget prompt numChapters writingStyle :
  only_asks E (writeFantasyNovel E budget prompt numChapters writingStyle).
Proof.
  unfold writeFantasyNovel, writeFantasyNovel_storyline, generatePlots,
    selectMostEngaging, improvePlot, getTitle, generateStoryline,
    writeFantasyNovel_chapters, writeFirstChapter.
  repeat first
    [ apply only_asks_callOllama | apply only_asks_ret | apply only_asks_or_TypeError
    | apply only_asks_chapter_loop
    | apply only_asks_bind; [|intros ?]
    | match goal with |- only_asks _ (let '(_, _) := ?p in _) => destruct p end ].
Qed.

(** *** The main block *)

Lemma main_run budget prompt numChapters writingStyle w :
  main E budget prompt numChapters writingStyle w =
    match main_try E budget prompt numChapters writingStyle w with
    | (Throw e, w') => (Ret (), w')
    | r => r
    end.
Proof. done. Qed.

(** *** The stages of [writeFantasyNovel] *)

Lemma writeFantasyNovel_stages budget prompt numChapters writingStyle w r w' :
  writeFantasyNovel E budget prompt numChapters writingStyle w = (Ret r, w') →
  ∃ bookTitle storyline w1,
    writeFantasyNovel_storyline E prompt numChapters w = (Ret (bookTitle, storyline), w1) ∧
    writeFantasyNovel_chapters E budget bookTitle storyline
      (parse_storyline storyline numChapters) numChapters writingStyle w1 = (Ret r, w').
Proof.
  unfold writeFantasyNovel. rewrite bind_run.
  destruct (writeFantasyNovel_storyline E prompt numChapters w)
    as [[[bookTitle storyline]|e|] w1]; [|done..].
  intros Hrun. by exists bookTitle, storyline, w1.
Qed.

(** *** The number of requests *)

Lemma loop_count budget plan storyline count i st w :
  post (chapter_loop E budget plan storyline count i st) w
    (λ out w', ∀ st', out = Ret st' → length (sent w) + count ≤ length (sent w')).
Proof.
  revert i st w. induction count as [|count IH]; intros i st w; cbn [chapter_loop].
  - apply post_ret. intros _ _. lia.
  - apply post_bind, post_or_TypeError.
    destruct (js_get plan i) as [entry|]; [|done]. apply post_bind.
    eapply post_mono; [apply writeChapter_post|].
    intros [chapter|e|] w1 (k & Hs & _ & _ & _ & Hout); cbn beta iota; [|done..].
    destruct Hout as (k' & t & -> & _).
    apply post_bind, post_or_TypeError. destruct (first_key entry) as [key|]; [|done].
    eapply post_mono; [apply IH|]. intros out w' HR st' Hst.
    specialize (HR st' Hst). rewrite Hs, length_app, length_replicate in HR. lia.
Qed.

Lemma chapters_count budget bookTitle storyline plan numChapters writingStyle w :
  post (writeFantasyNovel_chapters E budget bookTitle storyline plan numChapters
          writingStyle) w
    (λ out w', ∀ r, out = Ret r →
       length (sent w) + 2 + Z.to_nat (numChapters - 1) ≤ length (sent w')).
Proof.
  unfold writeFantasyNovel_chapters, writeFirstChapter.
  apply post_bind, post_or_TypeError. destruct (js_get plan 0) as [first|]; [|done].
  cbn beta iota. apply post_bind, post_bind, post_or_TypeError.
  destruct (ToString first) as [shown|]; [|done].
  apply post_bind, post_callOllama.
  match goal with
  | |- context [reply_outcome ?r] => destruct (reply_outcome r) as [firstDraft|e|]
  end; [|done..].
  apply post_callOllama.
  match goal with
  | |- context [reply_outcome ?r] => destruct (reply_outcome r) as [firstChapter|e|]
  end; [|done..].
  apply post_bind, post_or_TypeError. destruct (first_key first) as [key|]; [|done].
  cbn beta iota. eapply post_mono; [apply loop_count|].
  intros out w' HR r Hr. specialize (HR r Hr).
  rewrite !sent_log, !length_app in HR. cbn [length] in HR. lia.
Qed.

(** Without a short response no chapter is asked for twice. *)
Lemma loop_count_exact budget plan storyline count i st w :
  (∀ n req, ¬ short_reply (svc E n req)) →
  post (chapter_loop E budget plan storyline count i st) w
    (λ out w', ∀ st', out = Ret st' → length (sent w') = length (sent w) + count).
Proof.
  intros Hlong. revert i st w.
  induction count as [|count IH]; intros i st w; cbn [chapter_loop].
  - apply post_ret. intros _ _. lia.
  - apply post_bind, post_or_TypeError.
    destruct (js_get plan i) as [entry|]; [|done]. apply post_bind.
    eapply post_mono; [apply writeChapter_post|].
    intros [chapter|e|] w1 (k & Hs & _ & _ & Hshort & Hout); cbn beta iota; [|done..].
    destruct Hout as (k' & t & -> & _).
    assert (k' = 0) as ->.
    { destruct k' as [|k']; [done|]. destruct (Hlong _ _ (Hshort 0 ltac:(lia))). }
    apply post_bind, post_or_TypeError. destruct (first_key entry) as [key|]; [|done].
    eapply post_mono; [apply IH|]. intros out w' HR st' Hst.
    specialize (HR st' Hst). rewrite Hs, length_app, length_replicate in HR. lia.
Qed.

Lemma chapters_count_exact budget bookTitle storyline plan numChapters writingStyle w :
  (∀ n req, ¬ short_reply (svc E n req)) →
  post (writeFantasyNovel_chapters E budget bookTitle storyline plan numChapters
          writingStyle) w
    (λ out w', ∀ r, out = Ret r →
       length (sent w') = length (sent w) + 2 + Z.to_nat (numChapters - 1)).
Proof.
  intros Hlong. unfold writeFantasyNovel_chapters, writeFirstChapter.
  apply post_bind, post_or_TypeError. destruct (js_get plan 0) as [first|]; [|done].
  cbn beta iota. apply post_bind, post_bind, post_or_TypeError.
  destruct (ToString first) as [shown|]; [|done].
  apply post_bind, post_callOllama.
  match goal with
  | |- context [reply_outcome ?r] => destruct (reply_outcome r) as [firstDraft|e|]
  end; [|done..].
  apply post_callOllama.
  match goal with
  | |- context [reply_outcome ?r] => destruct (reply_outcome r) as [firstChapter|e|]
  end; [|done..].
  apply post_bind, post_or_TypeError. destruct (first_key first) as [key|]; [|done].
  cbn beta iota. eapply post_mono; [by apply loop_count_exact|].
  intros out w' HR r Hr. specialize (HR r Hr).
  rewrite !sent_log, !length_app in HR. cbn [length] in HR. lia.
Qed.

(** *** The content of the e-book *)

Lemma epubContent_records (key : nat → str) texts :
  let records := imap (λ i text, single_key_object (key i) text) texts in
  ∃ content,
    epubContent records = Some content ∧
    length content = length texts ∧
    epub_data <$> content =
      zip_with (λ record text, lit "<h1>" ++ record_key record ++ lit "</h1>"
                               ++ formattedContent text) records texts ∧
    Forall (λ entry, is_Some (epub_title entry)) content.
Proof.
  cbn zeta. revert key. induction texts as [|text texts IH]; intros key.
  - exists []. by split_and!.
  - destruct (IH (key ∘ S)) as (content & Hc & Hl & Hd & Ht).
    unfold epubContent in *. cbn [imap mapM]. unfold compose in *.
    rewrite epubChapter_single_key. cbn [mbind option_bind]. rewrite Hc.
    cbn [mbind option_bind mret option_ret]. eexists. split; [done|]. split_and!.
    + simpl. by rewrite Hl.
    + cbn [fmap list_fmap zip_with epub_data]. by rewrite Hd.
    + constructor; [by eexists | done].
Qed.
End StageLemmas.

(** X14. The storyline that [generateStoryline] returns: two requests are
    sent, the second one with the cleaned response to the first; the
    storyline is extracted from the cleaned response to the second and is
    a contiguous part of it; it is trimmed, and extracting from it again
    changes nothing. *)
Theorem generateStoryline_result (E : Env) (plot : str) (numChapters : Z)
    (w : World) (storyline : str) (w' : World) :
  generateStoryline E plot numChapters w = (Ret storyline, w') →
  (∃ initialResponse improvedResponse,
     asked E w w'
       (ollama_request E <$> [storylinePrompt plot numChapters;
                              improveStorylinePrompt initialResponse])
       [initialResponse; improvedResponse] ∧
     storyline = extractJsonFromMarkdown improvedResponse ∧
     ∃ l r, improvedResponse = l ++ storyline ++ r)
  ∧ extractJsonFromMarkdown storyline = storyline
  ∧ trim storyline = storyline.
Proof.
  intros (initialResponse & improvedResponse & Ha & ->)%generateStoryline_asked.
  split_and!.
  - exists initialResponse, improvedResponse. split_and!; [done..|].
    apply extractJsonFromMarkdown_part.
  - apply extractJsonFromMarkdown_idemp.
  - apply extractJsonFromMarkdown_trim. destruct Ha as (_ & _ & Hr).
    cbn [fmap list_fmap imap] in Hr. injection Hr as _ Hr.
    by apply response_at_trim in Hr.
Qed.

Lemma generateStoryline_result_witness :
  let E := default_env (scripted [ok_reply (lit "a draft"); ok_reply plan_one_entry]
                          (ok_reply [])) in
  extractJsonFromMarkdown plan_one_entry_json = plan_one_entry_json
  ∧ trim plan_one_entry_json = plan_one_entry_json.
Proof.
  intros E.
  apply (proj2 (generateStoryline_result E (lit "The plot") 1 init
                  plan_one_entry_json
                  (generateStoryline E (lit "The plot") 1 init).2
                  ltac:(vm_compute; reflexivity))).
Defined.

(** X15. The stages of [writeFantasyNovel] up to the storyline send six
    requests: for the plots from the prompt of the user, for the best plot
    from the plots, for the improved plot from the best plot, for the title
    and for the storyline from the improved plot, and for the improved
    storyline from the first storyline. The title is the cleaned response
    to the fourth, and the storyline is extracted from the cleaned response
    to the sixth; no file is written. *)
Theorem storyline_stage_chain (E : Env) (userPrompt : str)
    (numChapters : Z) (w : World) (bookTitle storyline : str) (w' : World) :
  writeFantasyNovel_storyline E userPrompt numChapters w
    = (Ret (bookTitle, storyline), w') →
  ∃ plots bestPlot improvedPlot initialResponse improvedResponse,
    asked E w w'
      (storyline_requests E userPrompt numChapters plots bestPlot improvedPlot
         initialResponse)
      [plots; bestPlot; improvedPlot; bookTitle; initialResponse; improvedResponse] ∧
    storyline = extractJsonFromMarkdown improvedResponse.
Proof. apply storyline_asked. Qed.

Lemma storyline_stage_chain_witness :
  let E := demo_service plan_one_entry (ok_reply long_text) in
  let w' := (writeFantasyNovel_storyline E demo_prompt 1 init).2 in
  ∃ plots bestPlot improvedPlot initialResponse improvedResponse,
    asked E init w'
      (storyline_requests E demo_prompt 1 plots bestPlot improvedPlot initialResponse)
      [plots; bestPlot; improvedPlot; lit "The Bottle"; initialResponse;
       improvedResponse] ∧
    plan_one_entry_json = extractJsonFromMarkdown improvedResponse.
Proof.
  intros E w'.
  apply (storyline_stage_chain E demo_prompt 1 init).
  vm_compute. reflexivity.
Defined.

(** X16. Every request of a run carries the model of the configuration
    and a prompt that starts with the instruction on the language: no
    stage asks another model. *)
Theorem requests_carry_configuration `{Builtins} (E : Env) (budget : nat)
    (userPrompt : str) (numChapters : Z) (writingStyle : str) (w : World) :
  ∃ reqs,
    sent (main E budget userPrompt numChapters writingStyle w).2 = sent w ++ reqs ∧
    Forall (λ req, model req = ollamaModel E ∧
                   ∃ text, prompt req = languageInstruction E ++ text) reqs.
Proof.
  assert (∀ prompts,
            Forall (λ req, model req = ollamaModel E ∧
                           ∃ text, prompt req = languageInstruction E ++ text)
                   (ollama_request E <$> prompts)) as Hreqs.
  { intros prompts. apply Forall_fmap, Forall_forall. intros p _. simpl. eauto. }
  rewrite main_run, main_try_run.
  destruct (only_asks_writeFantasyNovel E budget userPrompt numChapters writingStyle w)
    as (_ & prompts & Hs).
  destruct (writeFantasyNovel E budget userPrompt numChapters writingStyle w)
    as [[r|e|] w1]; cbn [fst snd] in Hs.
  - cbn zeta. destruct (accepts E (disk w1) _).
    2:{ exists (ollama_request E <$> prompts). split; [done | apply Hreqs]. }
    exists (ollama_request E <$> (prompts ++ [coverPrompt
              (template_hole (JSON_stringify (VArr (chapterObjects r))))])).
    split; [|apply Hreqs].
    destruct (failure _);
      [|destruct (accepts E _ (cover_file E));
        [destruct (accepts E _ (epub_file E r))|]];
      cbn [snd sent]; by rewrite Hs, fmap_app, (assoc_L (++)).
  - exists (ollama_request E <$> prompts). split; [done | apply Hreqs].
  - exists (ollama_request E <$> prompts). split; [done | apply Hreqs].
Qed.

(** X17. The main block never ends with an error: an error of the run or
    of a write is caught. When [writeFantasyNovel] returns, the manuscript
    is written first; if the file system refuses it, nothing more is done.
    Then one request is sent, for the caption of the cover; if it fails,
    the manuscript is all that is written. Then the cover is written and
    then the e-book, whatever the caption says, each one if the file system
    takes it and the one before was written. When [writeFantasyNovel] does
    not return, nothing is written. *)
Theorem main_artifacts `{Builtins} (E : Env) (budget : nat) (userPrompt : str)
    (numChapters : Z) (writingStyle : str) (w : World) :
  let '(out, w') := main E budget userPrompt numChapters writingStyle w in
  match writeFantasyNovel E budget userPrompt numChapters writingStyle w with
  | (Ret r, w1) =>
      let manuscript_file := prompt_file E userPrompt (novel r) in
      let d1 := disk w ++ [manuscript_file] in
      let d2 := d1 ++ [cover_file E] in
      out = Ret () ∧
      if accepts E (disk w) manuscript_file then
        sent w' = sent w1 ++ [cover_request E r] ∧
        match failure (svc E (length (sent w1)) (cover_request E r)) with
        | Some _ => disk w' = d1
        | None =>
            if accepts E d1 (cover_file E) then
              if accepts E d2 (epub_file E r)
              then disk w' = d2 ++ [epub_file E r]
              else disk w' = d2
            else disk w' = d1
        end
      else w' = w1 ∧ disk w' = disk w
  | (Throw _, w1) => out = Ret () ∧ w' = w1 ∧ disk w' = disk w
  | (Diverge, w1) => out = Diverge ∧ w' = w1 ∧ disk w' = disk w
  end.
Proof.
  rewrite main_run, main_try_run.
  destruct (only_asks_writeFantasyNovel E budget userPrompt numChapters writingStyle w)
    as (Hd & _).
  destruct (writeFantasyNovel E budget userPrompt numChapters writingStyle w)
    as [[r|e|] w1]; cbn [fst snd] in Hd; [|done..].
  cbn zeta. rewrite Hd.
  repeat match goal with
         | |- context [if ?x then _ else _] => destruct x
         | |- context [match failure ?x with _ => _ end] => destruct (failure x)
         end; done.
Qed.

(** X18. A run that completes returns as many records as chapters, and
    one chapter at least: [numChapters] of them for a count of one or
    more, and one for a count of zero or below. *)
Theorem chapter_count_at_least_one `{Builtins} (E : Env) (budget : nat)
    (userPrompt : str) (numChapters : Z) (writingStyle : str) (w : World)
    (r : NovelResult) (w' : World) :
  writeFantasyNovel E budget userPrompt numChapters writingStyle w = (Ret r, w') →
  Z.of_nat (length (chapters r)) = Z.max 1 numChapters
  ∧ length (chapterObjects r) = length (chapters r).
Proof.
  intros (bookTitle & storyline & w1 & _ & Hrun)%writeFantasyNovel_stages.
  destruct (post_run _ _ _ _ _ (chapters_post E budget bookTitle storyline
              (parse_storyline storyline numChapters) numChapters writingStyle w1) Hrun)
    as (firstDraft & sent_first & texts & attempts & _ & _ & HR).
  destruct (HR r eq_refl) as (_ & _ & -> & Hl & _ & -> & _).
  split; [lia|]. unfold chapter_records. by rewrite length_imap.
Qed.

Lemma chapter_count_at_least_one_witness :
  let E := demo_service plan_one_entry (ok_reply long_text) in
  let run := @writeFantasyNovel Ref.builtins E 0 demo_prompt (-1) demo_style init in
  let r := returned empty_result run.1 in
  Z.of_nat (length (chapters r)) = Z.max 1 (-1)
  ∧ length (chapterObjects r) = length (chapters r).
Proof.
  intros E run r.
  apply (@chapter_count_at_least_one Ref.builtins E 0 demo_prompt (-1) demo_style init
           r run.2).
  vm_compute. reflexivity.
Defined.

(** X19. With a count of zero or below and a storyline that does not
    parse, the fallback plan is empty: the first chapter is asked for with
    the title [undefined], and the run ends with a type error after its
    two requests, whatever the budget. *)
Theorem nonpositive_count_fallback `{Builtins} (E : Env) (userPrompt : str)
    (numChapters : Z) (writingStyle : str) (w : World)
    (bookTitle storyline : str) (w1 : World) :
  all_succeed E → (numChapters ≤ 0)%Z →
  writeFantasyNovel_storyline E userPrompt numChapters w
    = (Ret (bookTitle, storyline), w1) →
  JSON_parse storyline = None →
  ∃ firstDraft,
    ∀ budget,
      writeFantasyNovel E budget userPrompt numChapters writingStyle w =
        (Throw TypeError,
         {| sent := sent w1
                    ++ [ollama_request E
                          (firstChapterPrompt storyline (lit "undefined") writingStyle);
                        ollama_request E
                          (improveChapterPrompt storyline firstDraft writingStyle)];
            disk := disk w1 |}).
Proof.
  intros Hall Hn Hstory Hparse.
  destruct (callOllama_succeeds E
              (firstChapterPrompt storyline (lit "undefined") writingStyle) w1 Hall)
    as [firstDraft Hcall1].
  destruct (callOllama_succeeds E
              (improveChapterPrompt storyline firstDraft writingStyle)
              (log_request (ollama_request E
                 (firstChapterPrompt storyline (lit "undefined") writingStyle)) w1) Hall)
    as [firstChapter Hcall2].
  exists firstDraft. intros budget.
  unfold writeFantasyNovel. rewrite bind_run, Hstory. cbn beta iota.
  unfold parse_storyline. rewrite Hparse. unfold fallbackPlan.
  replace (Z.to_nat numChapters) with 0 by lia. cbn [seq fmap list_fmap].
  unfold writeFantasyNovel_chapters, writeFirstChapter.
  change (js_get (VArr []) 0) with (Some VUndefined).
  repeat first
    [ progress rewrite ?bind_run, ?or_TypeError_Some, ?or_TypeError_None, ?Hcall1, ?Hcall2
    | progress cbn beta iota
    | progress change (first_key VUndefined) with (@None str)
    | progress change (ToString VUndefined) with (Some (lit "undefined")) ].
  f_equal. unfold log_request. cbn [sent disk]. by rewrite <-(assoc_L (++)).
Qed.

Lemma nonpositive_count_fallback_witness :
  let E := default_env (scripted [] (ok_reply (lit "Once upon a time."))) in
  ∃ firstDraft,
    ∀ budget,
      @writeFantasyNovel Ref.builtins E budget demo_prompt (-1) demo_style init =
        (Throw TypeError,
         {| sent := sent (writeFantasyNovel_storyline E demo_prompt (-1) init).2
                    ++ [ollama_request E
                          (firstChapterPrompt (lit "Once upon a time.") (lit "undefined")
                             demo_style);
                        ollama_request E
                          (improveChapterPrompt (lit "Once upon a time.") firstDraft
                             demo_style)];
            disk := [] |}).
Proof.
  intros E.
  apply (@nonpositive_count_fallback Ref.builtins E demo_prompt (-1) demo_style init
           (lit "Once upon a time.") (lit "Once upon a time.")
           (writeFantasyNovel_storyline E demo_prompt (-1) init).2).
  - apply scripted_all_succeed; [constructor | reflexivity].
  - lia.
  - vm_compute. reflexivity.
  - vm_compute. reflexivity.
Defined.

(** X20. A run that completes has sent eight requests for the plot, the
    title, the storyline and the first chapter, and one at least for each
    chapter after the first. *)
Theorem requests_of_a_run `{Builtins} (E : Env) (budget : nat) (userPrompt : str)
    (numChapters : Z) (writingStyle : str) (w : World) (r : NovelResult) (w' : World) :
  writeFantasyNovel E budget userPrompt numChapters writingStyle w = (Ret r, w') →
  length (sent w) + 8 + Z.to_nat (numChapters - 1) ≤ length (sent w').
Proof.
  intros (bookTitle & storyline & w1 & Hstory & Hrun)%writeFantasyNovel_stages.
  apply storyline_asked in Hstory as (? & ? & ? & ? & ? & (Hs & _) & _).
  pose proof (post_run _ _ _ _ _ (chapters_count E budget bookTitle storyline
                (parse_storyline storyline numChapters) numChapters writingStyle w1)
                Hrun r eq_refl) as Hc.
  rewrite Hs, length_app in Hc. unfold storyline_requests in Hc.
  rewrite length_fmap in Hc. cbn [length] in Hc. lia.
Qed.

Lemma requests_of_a_run_witness :
  let E := demo_service plan_same_keys (ok_reply long_text) in
  let run := @writeFantasyNovel Ref.builtins E 1 demo_prompt 2 demo_style init in
  length (sent init) + 8 + Z.to_nat (2 - 1) ≤ length (sent run.2).
Proof.
  intros E run.
  apply (@requests_of_a_run Ref.builtins E 1 demo_prompt 2 demo_style init
           (returned empty_result run.1) run.2).
  vm_compute. reflexivity.
Defined.

(** X21. The first chapter is asked for without its entry of the plan:
    an entry that is an object is shown as [[object Object]] in the prompt,
    whatever its key and its overview. *)
Theorem first_chapter_ignores_entry `{Builtins} (E : Env) (plot : str)
    (props : list (str * value)) (writingStyle : str) (w : World) :
  lit "toString" ∉ props.*1 →
  writeFirstChapter E plot (VObj props) writingStyle w =
    (firstDraft ← callOllama E
       (firstChapterPrompt plot (lit "[object Object]") writingStyle);
     callOllama E (improveChapterPrompt plot firstDraft writingStyle)) w.
Proof.
  intros Hprops. unfold writeFirstChapter. cbn [ToString].
  rewrite bool_decide_eq_false_2 by done. by rewrite bind_run, or_TypeError_Some.
Qed.

Lemma first_chapter_ignores_entry_witness :
  let E := default_env (scripted [] (ok_reply (lit "It was dawn."))) in
  @writeFirstChapter Ref.builtins E (lit "The plot")
    (VObj [(lit "Chapter 1 - Dawn", VStr (lit "The bottle"))]) demo_style init =
    (firstDraft ← callOllama E
       (firstChapterPrompt (lit "The plot") (lit "[object Object]") demo_style);
     callOllama E (improveChapterPrompt (lit "The plot") firstDraft demo_style)) init.
Proof.
  intros E.
  apply (@first_chapter_ignores_entry Ref.builtins E (lit "The plot")
           [(lit "Chapter 1 - Dawn", VStr (lit "The bottle"))] demo_style init).
  intros Hin%list_elem_of_singleton. vm_compute in Hin. discriminate Hin.
Defined.

(** X22. The records of a run that completes are accepted by the mapping
    of [createEpub]: there is an entry for each chapter, with the key of
    its record as heading and the paragraphs of its text as body, and
    every entry has a title. *)
Theorem run_records_make_ebook `{Builtins} (E : Env) (budget : nat)
    (userPrompt : str) (numChapters : Z) (writingStyle : str) (w : World)
    (r : NovelResult) (w' : World) :
  writeFantasyNovel E budget userPrompt numChapters writingStyle w = (Ret r, w') →
  ∃ content,
    epubContent (chapterObjects r) = Some content ∧
    length content = length (chapters r) ∧
    epub_data <$> content =
      zip_with (λ record text, lit "<h1>" ++ record_key record ++ lit "</h1>"
                               ++ formattedContent text)
               (chapterObjects r) (chapters r) ∧
    Forall (λ entry, is_Some (epub_title entry)) content.
Proof.
  intros (bookTitle & storyline & w1 & _ & Hrun)%writeFantasyNovel_stages.
  destruct (post_run _ _ _ _ _ (chapters_post E budget bookTitle storyline
              (parse_storyline storyline numChapters) numChapters writingStyle w1) Hrun)
    as (firstDraft & sent_first & texts & attempts & _ & _ & HR).
  destruct (HR r eq_refl) as (_ & _ & -> & _ & _ & -> & _).
  apply (epubContent_records
           (λ i, default [] (plan_key (parse_storyline storyline numChapters) i))).
Qed.

Lemma run_records_make_ebook_witness :
  let E := demo_service plan_one_entry (ok_reply long_text) in
  let run := @writeFantasyNovel Ref.builtins E 1 demo_prompt 1 demo_style init in
  let r := returned empty_result run.1 in
  ∃ content,
    epubContent (chapterObjects r) = Some content ∧
    length content = length (chapters r) ∧
    epub_data <$> content =
      zip_with (λ record text, lit "<h1>" ++ record_key record ++ lit "</h1>"
                               ++ formattedContent text)
               (chapterObjects r) (chapters r) ∧
    Forall (λ entry, is_Some (epub_title entry)) content.
Proof.
  intros E run r.
  apply (@run_records_make_ebook Ref.builtins E 1 demo_prompt 1 demo_style init r run.2).
  vm_compute. reflexivity.
Defined.

(** X23. When no response that is accepted is shorter than 1000
    characters, no chapter is asked for twice: a run that completes has
    sent exactly 8 + (numChapters - 1) requests. *)
Theorem requests_without_retry `{Builtins} (E : Env) (budget : nat) (userPrompt : str)
    (numChapters : Z) (writingStyle : str) (w : World) (r : NovelResult) (w' : World) :
  (∀ n req, ¬ short_reply (svc E n req)) →
  writeFantasyNovel E budget userPrompt numChapters writingStyle w = (Ret r, w') →
  length (sent w') = length (sent w) + 8 + Z.to_nat (numChapters - 1).
Proof.
  intros Hlong (bookTitle & storyline & w1 & Hstory & Hrun)%writeFantasyNovel_stages.
  apply storyline_asked in Hstory as (? & ? & ? & ? & ? & (Hs & _) & _).
  pose proof (post_run _ _ _ _ _ (chapters_count_exact E budget bookTitle storyline
                (parse_storyline storyline numChapters) numChapters writingStyle w1 Hlong)
                Hrun r eq_refl) as Hc.
  rewrite Hs, length_app in Hc. unfold storyline_requests in Hc.
  rewrite length_fmap in Hc. cbn [length] in Hc. lia.
Qed.

Lemma requests_without_retry_witness :
  let E := default_env (scripted [] (ok_reply long_text)) in
  let run := @writeFantasyNovel Ref.builtins E 1 demo_prompt 3 demo_style init in
  length (sent run.2) = length (sent init) + 8 + Z.to_nat (3 - 1).
Proof.
  intros E run.
  apply (@requests_without_retry Ref.builtins E 1 demo_prompt 3 demo_style init
           (returned empty_result run.1) run.2).
  - intros n req Hshort. apply (long_not_short _ long_text_reply Hshort).
  - vm_compute. reflexivity.
Defined.

(** X24. In the novel that a run returns every chapter after the first is
    at least 1000 characters long; the length of the first chapter is not
    checked. *)
Theorem later_chapters_long `{Builtins} (E : Env) (budget : nat) (userPrompt : str)
    (numChapters : Z) (writingStyle : str) (w : World) (r : NovelResult) (w' : World) :
  writeFantasyNovel E budget userPrompt numChapters writingStyle w = (Ret r, w') →
  Forall (λ text, 1000 ≤ length text) (drop 1 (chapters r)).
Proof.
  intros (bookTitle & storyline & w1 & _ & Hrun)%writeFantasyNovel_stages.
  destruct (post_run _ _ _ _ _ (chapters_post E budget bookTitle storyline
              (parse_storyline storyline numChapters) numChapters writingStyle w1) Hrun)
    as (firstDraft & sent_first & texts & attempts & _ & _ & HR).
  by destruct (HR r eq_refl) as (_ & _ & -> & _ & _ & _ & _ & Hlong).
Qed.

Lemma later_chapters_long_witness :
  let E := demo_service plan_same_keys (ok_reply long_text) in
  let run := @writeFantasyNovel Ref.builtins E 1 demo_prompt 2 demo_style init in
  let r := returned empty_result run.1 in
  chapters r !! 0 = Some (lit "The first chapter.")
  ∧ Forall (λ text, 1000 ≤ length text) (drop 1 (chapters r)).
Proof.
  intros E run r. split; [vm_compute; reflexivity|].
  apply (@later_chapters_long Ref.builtins E 1 demo_prompt 2 demo_style init r run.2).
  vm_compute. reflexivity.
Defined.
